(** * swnumeric: storage, ownership and fused arithmetic of the tensor containers

    A shallow embedding of the two container families of the repository,

    - [Tensor.hpp]: class [Tensor<T, dims...>] with its [STOP] descriptors and
      the [STOPImpl] kernels (module [TensorHpp]);
    - [Libraries/Tensor/MatrixVector.hpp]: [ContiguousStorage], [Vector] with the
      [SVOP]/[VVOP] descriptors and kernels (module [MatrixVectorHpp]).

    Conventions of the embedding.

    - Element values are exact rationals ([Q]).  [std::fma (a, b, c)] is
      [a * b + c]; rounding is outside the model, so statements about
      arithmetic results are up to [Qeq].
    - Buffers live in a store of blocks ([heap]); a pointer is null, the
      address of a block, or indeterminate (an uninitialised member).
    - [size_t] and [uint32_t] counts are natural numbers; element counts are
      assumed to fit their machine types.
    - An operation yields [Ok] with the new state, [Throw] with the exception
      and the state at the throw, or [Undefined] when the C++ program has no
      defined behaviour (access outside a live block, release of a pointer
      that is not a live allocation). *)

From Stdlib Require Import QArith Qabs Lia Lqa.
From stdpp Require Import base option list gmap.

Set Default Proof Using "Type".

(** ** Memory *)

Definition loc := nat.

Inductive pointer : Type :=
  | Indet               (* an uninitialised pointer member *)
  | Null                (* nullptr *)
  | Addr (l : loc).     (* first element of the block at [l] *)

Global Instance pointer_eq_dec : EqDecision pointer.
Proof. solve_decision. Defined.

Abbreviation heap := (gmap loc (list Q)).

Inductive exn : Type :=
  | DimensionError (n1 n2 : nat)            (* "DIMENSION ERROR: n1 AND n2" *)
  | SizeMismatchError (a1 a2 : list nat)    (* "SIZE MISMATCH ERROR: (..) AND (..) !!!" *)
  | BadAlloc                                (* std::bad_alloc *)
  | LinalgSizeError                         (* "ERROR IN SIZE CHECK" *)
  | AssignSizeMismatch (n1 n2 : nat).       (* "SIZE MISMATCH IN ASSIGNMENT n1 and n2" *)

Inductive result (S : Type) : Type :=
  | Ok (s : S)
  | Throw (e : exn) (s : S)
  | Undefined.
Arguments Ok {S} s.
Arguments Throw {S} e s.
Arguments Undefined {S}.

(** Lift a memory primitive: no result means undefined behaviour. *)
Definition defined {S A : Type} (o : option A) (k : A -> result S) : result S :=
  match o with
  | Some a => k a
  | None => Undefined
  end.

(** [std::aligned_alloc].  The allocator is external: [reply] is its answer,
    [None] for a null return, [Some (l, raw)] for a block at address [l]
    whose cells hold the values [raw 0], [raw 1], ... (whatever the memory
    contained).  The block is modelled with exactly [count] cells. *)
Definition aligned_alloc (reply : option (loc * (nat -> Q))) (count : nat)
    (h : heap) : pointer * heap :=
  match reply with
  | None => (Null, h)
  | Some (l, raw) => (Addr l, <[l := map raw (seq 0 count)]> h)
  end.

(** [std::free]: a no-op on null, releases a live block, undefined otherwise. *)
Definition std_free (p : pointer) (h : heap) : option heap :=
  match p with
  | Null => Some h
  | Addr l => match h !! l with
              | Some _ => Some (delete l h)
              | None => None
              end
  | Indet => None
  end.

(** [std::fill_n (p, n, v)] *)
Definition fill_n (p : pointer) (n : nat) (v : Q) (h : heap) : option heap :=
  match n with
  | O => Some h
  | S _ =>
    match p with
    | Addr l =>
      match h !! l with
      | Some b => if decide (n <= length b)
                  then Some (<[l := replicate n v ++ drop n b]> h)
                  else None
      | None => None
      end
    | _ => None
    end
  end.

(** [std::memcpy (dst, src, n * sizeof(T))] *)
Definition memcpy (dst src : pointer) (n : nat) (h : heap) : option heap :=
  match n with
  | O => Some h
  | S _ =>
    match dst, src with
    | Addr d, Addr s =>
      match h !! d, h !! s with
      | Some bd, Some bs =>
        if decide (n <= length bd /\ n <= length bs)
        then Some (<[d := take n bs ++ drop n bd]> h)
        else None
      | _, _ => None
      end
    | _, _ => None
    end
  end.

(** [p[i]] as an rvalue and [p[i] = v]. *)
Definition load (p : pointer) (i : nat) (h : heap) : option Q :=
  match p with
  | Addr l => match h !! l with Some b => b !! i | None => None end
  | _ => None
  end.

Definition store (p : pointer) (i : nat) (v : Q) (h : heap) : option heap :=
  match p with
  | Addr l =>
    match h !! l with
    | Some b => if decide (i < length b) then Some (<[l := <[i := v]> b]> h)
                else None
    | None => None
    end
  | _ => None
  end.

(** The block a pointer designates. *)
Definition block_of (p : pointer) (h : heap) : option (list Q) :=
  match p with
  | Addr l => h !! l
  | _ => None
  end.

(** [for (size_t i = 0; i < n; i++) body] *)
Fixpoint for_from (i n : nat) (body : nat -> heap -> option heap) (h : heap)
    : option heap :=
  match n with
  | O => Some h
  | S n' => match body i h with
            | Some h' => for_from (S i) n' body h'
            | None => None
            end
  end.

Definition for_loop (n : nat) (body : nat -> heap -> option heap) (h : heap)
    : option heap :=
  for_from 0 n body h.

Definition product (l : list nat) : nat := fold_right Nat.mul 1 l.

(** Sequencing of operations on one state type. *)
Definition and_then {S : Type} (r : result S) (k : S -> result S) : result S :=
  match r with
  | Ok s => k s
  | other => other
  end.

(** ** Elementwise loops

    Both headers define the same atomic loops over [size ()] and
    [operator[]]; they are instances of the two loops below.

    [for (size_t i = 0; i < n; i++) a[i] = f (a[i], b[i]);] *)
Definition elementwise (f : Q -> Q -> Q) (n : nat) (a b : pointer)
    : heap -> option heap :=
  for_loop n (fun i h =>
    match load a i h, load b i h with
    | Some x, Some y => store a i (f x y) h
    | _, _ => None
    end).

(** [for (size_t i = 0; i < n; i++) a[i] = f (a[i], s);] *)
Definition elementwise_scalar (f : Q -> Q -> Q) (n : nat) (a : pointer) (s : Q)
    : heap -> option heap :=
  for_loop n (fun i h =>
    match load a i h with
    | Some x => store a i (f x s) h
    | None => None
    end).

(** [for (size_t i = 0; i < n; i++) d[i] = f (d[i], a[i], b[i]);] *)
Definition elementwise2 (f : Q -> Q -> Q -> Q) (n : nat) (d a b : pointer)
    : heap -> option heap :=
  for_loop n (fun i h =>
    match load d i h, load a i h, load b i h with
    | Some x, Some y, Some z => store d i (f x y z) h
    | _, _, _ => None
    end).

(** [std::fma] *)
Definition fma (a b c : Q) : Q := (a * b + c)%Q.

(** The BLAS routine [cblas_daxpy (n, alpha, x, incx, y, incy)] (and
    [cblas_saxpy]): [y[i * incy] = alpha * x[i * incx] + y[i * incy]].  The
    source passes either a container's buffer with [incx = 1] or a local
    one-element array [x[1] = {c}] with [incx = 0]. *)
Inductive axpy_source : Type :=
  | Buffer (p : pointer)
  | LocalArray (x : list Q).

Definition read_source (x : axpy_source) (i : nat) (h : heap) : option Q :=
  match x with
  | Buffer p => load p i h
  | LocalArray l => l !! i
  end.

Definition cblas_axpy (n : nat) (alpha : Q) (x : axpy_source) (incx : nat)
    (y : pointer) (incy : nat) : heap -> option heap :=
  for_loop n (fun i h =>
    match read_source x (i * incx) h, load y (i * incy) h with
    | Some xi, Some yi => store y (i * incy) (alpha * xi + yi)%Q h
    | _, _ => None
    end).

(** ** Tensor.hpp: class [Tensor<T, dims...>] *)

Module TensorHpp.

(** The kernels are specialised on the element type: [double] and [float]
    go through the BLAS primitives, every other type through the generic
    loops.  Elements are modelled as exact rationals: this is the arithmetic
    of [double] and [float] up to rounding, and that of an integer type for
    sums, differences and products that do not overflow.  The divisions and
    the [std::fma] of an integer type are not those of [Q] (a division
    truncates, [std::fma] goes through [double]), so the theorems about a
    division or about the fused kernels are stated for [double] and
    [float]. *)
Inductive ElemType : Type := Generic | Double | Float.

(** [enum class OPType] *)
Inductive OPType : Type := Add | Sub | SubLeft | Mul | Div | DivLeft | Assign.

(** The object.  [dims] are the template arguments; [self] is the address of
    the object, at which the inline buffer [dataHolder.staticData] is a block
    of the store when [_ctSize > 0]; [heapData] is the other member of the
    union; [_shape] is [None] while the array member is uninitialised. *)
Record Tensor : Type := mkTensor {
  dims : list nat;
  self : loc;
  heapData : pointer;
  data : pointer;
  _size : nat;
  _shape : option (list nat)
}.

Definition _ctSize (t : Tensor) : nat := product (dims t).
Definition _nDims (t : Tensor) : nat := length (dims t).

Definition size (t : Tensor) : nat := _size t.
Definition isStaticSized (t : Tensor) : bool := bool_decide (0 < _ctSize t).
Definition isAlloced (t : Tensor) : bool := bool_decide (data t <> Null).
Definition shape (t : Tensor) : option (list nat) := _shape t.
Definition ptr (t : Tensor) : pointer := data t.

(** [checkShape (a1, a2)]: [None] when it returns, [Some e] when it throws. *)
Fixpoint differ (a1 a2 : list nat) : bool :=
  match a1, a2 with
  | x :: a1', y :: a2' => if decide (x = y) then differ a1' a2' else true
  | _, _ => false
  end.

Definition checkShape (a1 a2 : list nat) : option exn :=
  if decide (length a1 <> length a2)
  then Some (DimensionError (length a1) (length a2))
  else if differ a1 a2 then Some (SizeMismatchError a1 a2) else None.

(** [void alloc (const std::array<uint32_t, _nDims>& shape)] *)
Definition alloc (reply : option (loc * (nat -> Q))) (shp : list nat)
    (t : Tensor) (h : heap) : result (Tensor * heap) :=
  if isAlloced t then Ok (t, h)
  else
    let s := product shp in
    if isStaticSized t then
      let t' := mkTensor (dims t) (self t) (heapData t) (Addr (self t))
                         (_ctSize t) (Some (dims t)) in
      defined (fill_n (data t') (_size t') 0 h) (fun h' => Ok (t', h'))
    else
      let t1 := mkTensor (dims t) (self t) (heapData t) (data t) s (Some shp) in
      match aligned_alloc reply s h with
      | (Null, h1) => Throw BadAlloc (t1, h1)
      | (p, h1) =>
        let t2 := mkTensor (dims t) (self t) p p s (Some shp) in
        defined (fill_n (data t2) (_size t2) 0 h1) (fun h' => Ok (t2, h'))
      end.

(** [inline void free ()] *)
Definition free (t : Tensor) (h : heap) : result (Tensor * heap) :=
  let reset := mkTensor (dims t) (self t) (heapData t) Null 0
                        (Some (replicate (_nDims t) 0)) in
  if isStaticSized t then Ok (reset, h)
  else defined (std_free (heapData t) h) (fun h' => Ok (reset, h')).

(** [setOne], [setZero], [setConstant] *)
Definition setConstant (val : Q) (t : Tensor) (h : heap) : option heap :=
  fill_n (ptr t) (size t) val h.
Definition setZero := setConstant 0.
Definition setOne := setConstant 1.

(** [T& operator[] (size_t iidx)] used as [t[i] = v] and as [t[i]]. *)
Definition set_elem (t : Tensor) (i : nat) (v : Q) (h : heap) : option heap :=
  store (ptr t) i v h.
Definition get_elem (t : Tensor) (i : nat) (h : heap) : option Q :=
  load (ptr t) i h.

(** The elements a container holds: the first [size ()] cells behind [ptr ()]. *)
Definition elements (t : Tensor) (h : heap) : option (list Q) :=
  match size t with
  | O => Some []
  | S _ => option_map (take (size t)) (block_of (ptr t) h)
  end.

(** [std::memcpy (ptr (), other.ptr (), sizeof (T) * other.size ())] *)
Definition copy_from (this other : Tensor) (h : heap)
    : result (Tensor * heap) :=
  defined (memcpy (ptr this) (ptr other) (size other) h)
          (fun h' => Ok (this, h')).

(** [template <size_t... ddims> operator= (const Tensor<T, ddims...>&)] *)
Definition assign_other_dims (this other : Tensor) (h : heap)
    : result (Tensor * heap) :=
  defined (shape this) (fun s1 =>
  defined (shape other) (fun s2 =>
    match checkShape s1 s2 with
    | Some e => Throw e (this, h)
    | None => copy_from this other h
    end)).

(** [operator= (const Tensor<T, dims...>&)] *)
Definition assign_same_dims (reply : option (loc * (nat -> Q)))
    (this other : Tensor) (h : heap) : result (Tensor * heap) :=
  if isAlloced this then
    defined (shape this) (fun s1 =>
    defined (shape other) (fun s2 =>
      match checkShape s1 s2 with
      | Some e => Throw e (this, h)
      | None => copy_from this other h
      end))
  else
    defined (shape other) (fun s2 =>
      match alloc reply s2 this h with
      | Ok (this', h') => copy_from this' other h'
      | r => r
      end).

(** [dest = src]: overload resolution picks the non-template operator exactly
    when both sides have the same template arguments. *)
Definition assign (reply : option (loc * (nat -> Q)))
    (this other : Tensor) (h : heap) : result (Tensor * heap) :=
  if decide (dims this = dims other)
  then assign_same_dims reply this other h
  else assign_other_dims this other h.

(** [Tensor ()]: the object is placed at [at_]; for a fixed size its inline
    buffer appears there with the contents [raw]. *)
Definition ctor_default (ds : list nat) (at_ : loc) (raw : nat -> Q)
    (h : heap) : result (Tensor * heap) :=
  let t0 := mkTensor ds at_ Indet Null 0 None in
  if isStaticSized t0
  then alloc None (replicate (length ds) 0) t0
             (<[at_ := map raw (seq 0 (product ds))]> h)
  else Ok (t0, h).

(** [Tensor (const std::array<uint32_t, _nDims> sz)] *)
Definition ctor_shape (reply : option (loc * (nat -> Q))) (ds : list nat)
    (at_ : loc) (raw : nat -> Q) (sz : list nat) (h : heap)
    : result (Tensor * heap) :=
  let t0 := mkTensor ds at_ Indet Null 0 None in
  alloc reply sz t0
        (if isStaticSized t0
         then <[at_ := map raw (seq 0 (product ds))]> h else h).

(** [Tensor (const Tensor<T, dims...>& other) : Tensor ()] *)
Definition ctor_copy (reply : option (loc * (nat -> Q))) (at_ : loc)
    (raw : nat -> Q) (other : Tensor) (h : heap) : result (Tensor * heap) :=
  match ctor_default (dims other) at_ raw h with
  | Ok (t, h1) =>
    defined (shape other) (fun s2 =>
      match alloc reply s2 t h1 with
      | Ok (t', h2) => assign_same_dims reply t' other h2
      | r => r
      end)
  | r => r
  end.

(** The state a moved-from object is left in. *)
Definition emptied (other : Tensor) (hd : pointer) : Tensor :=
  mkTensor (dims other) (self other) hd Null 0
           (Some (replicate (_nDims other) 0)).

(** [Tensor (Tensor<T, dims...>&& other) noexcept]; yields the new object and
    the moved-from one. *)
Definition ctor_move (at_ : loc) (raw : nat -> Q) (other : Tensor) (h : heap)
    : result (Tensor * Tensor * heap) :=
  if isStaticSized other then
    let h0 := <[at_ := map raw (seq 0 (_ctSize other))]> h in
    let t := mkTensor (dims other) at_ Indet (Addr at_) (_size other)
                      (_shape other) in
    defined (memcpy (Addr at_) (Addr (self other)) (_ctSize other) h0)
            (fun h' => Ok (t, emptied other (heapData other), h'))
  else
    let t := mkTensor (dims other) at_ (heapData other) (data other)
                      (_size other) (_shape other) in
    Ok (t, emptied other Null, h).

(** [operator= (Tensor<T, dims...>&& other) noexcept] *)
Definition assign_move (this other : Tensor) (h : heap)
    : result (Tensor * Tensor * heap) :=
  if decide (self this = self other) then Ok (this, other, h)
  else
    match free this h with
    | Ok (_, h1) =>
      if isStaticSized this then
        let t := mkTensor (dims this) (self this) (heapData this)
                          (Addr (self this)) (_size other) (_shape other) in
        defined (memcpy (Addr (self this)) (Addr (self other)) (_ctSize this) h1)
                (fun h' => Ok (t, emptied other (heapData other), h'))
      else
        let t := mkTensor (dims this) (self this) (heapData other)
                          (heapData other) (_size other) (_shape other) in
        Ok (t, emptied other Null, h1)
    | Throw e (t, h1) => Throw e (t, other, h1)
    | Undefined => Undefined
    end.

(** *** Arithmetic *)

Definition stride (t : Tensor) : nat := 1.

(** A [void] routine on the buffers, run on the state of the destination. *)
Definition pass (dest : Tensor) (o : option heap) : result (Tensor * heap) :=
  defined o (fun h => Ok (dest, h)).

(** NOBLAS atomic operations for Tensor.  Elements are exact rationals, so
    the operations are those of [Q], without rounding.  [Qdiv] is total
    ([x / 0 = 0]), which is no value of the code: at a zero divisor
    [a[i] /= b[i]] leaves an infinity or a NaN for [double] and [float] and
    is undefined for an integer [T], and on an integer [T] a division
    truncates.  What is stated about a division below is therefore stated
    for [double] and [float] and for divisors that are not zero. *)
Definition add (a b : Tensor) := elementwise Qplus (size a) (ptr a) (ptr b).
Definition add_scalar (a : Tensor) (b : Q) :=
  elementwise_scalar Qplus (size a) (ptr a) b.
Definition sub (a b : Tensor) := elementwise Qminus (size a) (ptr a) (ptr b).
Definition sub_scalar (a : Tensor) (b : Q) :=
  elementwise_scalar Qminus (size a) (ptr a) b.
Definition subLeft (a b : Tensor) :=
  elementwise (fun x y => y - x)%Q (size a) (ptr a) (ptr b).
Definition subLeft_scalar (a : Tensor) (b : Q) :=
  elementwise_scalar (fun x y => y - x)%Q (size a) (ptr a) b.
Definition mul (a b : Tensor) := elementwise Qmult (size a) (ptr a) (ptr b).
Definition mul_scalar (a : Tensor) (b : Q) :=
  elementwise_scalar Qmult (size a) (ptr a) b.
Definition div (a b : Tensor) := elementwise Qdiv (size a) (ptr a) (ptr b).
Definition div_scalar (a : Tensor) (b : Q) :=
  elementwise_scalar Qdiv (size a) (ptr a) b.
Definition divLeft (a b : Tensor) :=
  elementwise (fun x y => y / x)%Q (size a) (ptr a) (ptr b).
Definition divLeft_scalar (a : Tensor) (b : Q) :=
  elementwise_scalar (fun x y => y / x)%Q (size a) (ptr a) b.
Definition copyTo (a b : Tensor) := memcpy (ptr a) (ptr b) (size a).

(** The scalar-combine descriptor [STOP<T, _op, sa...>]. *)
Record STOP : Type := mkSTOP { vec : Tensor; scalar : Q; op : OPType }.

(** The routines a kernel is made of; each updates the buffer of [dest]
    from the descriptor. *)
Definition routine : Type := Tensor -> STOP -> heap -> option heap.

(** [f (dest, exp.vec)], [f (dest, exp.scalar)] and [f (dest, c)] for an
    atomic operation [f]. *)
Definition with_vec (f : Tensor -> Tensor -> heap -> option heap) : routine :=
  fun dest exp => f dest (vec exp).
Definition with_scalar (f : Tensor -> Q -> heap -> option heap) : routine :=
  fun dest exp => f dest (scalar exp).
Definition with_const (f : Tensor -> Q -> heap -> option heap) (c : Q)
    : routine :=
  fun dest exp => f dest c.

(** [for (size_t i = 0; i < exp.vec.size (); i++)
       dest[i] = f (exp.scalar, dest[i], exp.vec[i]);]
    the shape of every hand-written kernel loop. *)
Definition loop (f : Q -> Q -> Q -> Q) : routine :=
  fun dest exp =>
    elementwise (f (scalar exp)) (size (vec exp)) (ptr dest) (ptr (vec exp)).

(** [cblas_daxpy (n, alpha, exp.vec (), 1, dest (), 1)], where the source
    writes [exp.vec.size ()] or [dest.size ()] for [n]. *)
Definition vec_size (dest : Tensor) (exp : STOP) : nat := size (vec exp).
Definition dest_size (dest : Tensor) (exp : STOP) : nat := size dest.
Definition axpy_vec (n : Tensor -> STOP -> nat) (alpha : Q) : routine :=
  fun dest exp =>
    cblas_axpy (n dest exp) alpha (Buffer (ptr (vec exp))) 1 (ptr dest) 1.

(** [alignas (16) double x[1] = {c};
     cblas_daxpy (exp.vec.size (), 1.0, x, 0, dest (), 1);]
    with [c] either [exp.scalar] or [-exp.scalar]. *)
Definition axpy_scalar (c : Q -> Q) : routine :=
  fun dest exp =>
    cblas_axpy (size (vec exp)) 1 (LocalArray [c (scalar exp)]) 0 (ptr dest) 1.

Definition fill (dest : Tensor) (val : Q) : heap -> option heap :=
  setConstant val dest.

Definition kernel : Type :=
  Tensor -> STOP -> heap -> result (Tensor * heap).

(** One routine, and two routines in sequence, on the destination. *)
Definition one (f : routine) : kernel :=
  fun dest exp h => pass dest (f dest exp h).

Definition two (f g : routine) : kernel :=
  fun dest exp h =>
    and_then (pass dest (f dest exp h))
             (fun st => pass (fst st) (g (fst st) exp (snd st))).

(** [dest = exp.vec; ...] of the accelerated assignment kernels. *)
Definition after_copy (reply : option (loc * (nat -> Q)))
    (fs : list routine) : kernel :=
  fun dest exp h =>
    fold_left (fun r f => and_then r (fun st =>
                 pass (fst st) (f (fst st) exp (snd st))))
              fs (assign reply dest (vec exp) h).

(** The generic kernels [STOPImpl<T, _op, _destop, sa...>::apply].  In the
    loops [s] is [exp.scalar], [x] is [dest[i]] and [v] is [exp.vec[i]]. *)
Definition STOPImpl_generic (o destop : OPType) : option kernel :=
  match o, destop with
  | Add, Add => Some (two (with_scalar add_scalar) (with_vec add))
  | Sub, Add => Some (two (with_vec add) (with_scalar sub_scalar))
  | SubLeft, Add => Some (two (with_vec sub) (with_scalar add_scalar))
  | Mul, Add => Some (one (loop (fun s x v => fma s v x)))
  | Div, Add => Some (one (loop (fun s x v => let sc := 1 / s in fma sc v x)))
  | DivLeft, Add => Some (one (loop (fun s x v => fma s (1 / v) x)))
  | Add, Sub => Some (two (with_scalar sub_scalar) (with_vec sub))
  | Sub, Sub => Some (two (with_vec sub) (with_scalar add_scalar))
  | SubLeft, Sub => Some (two (with_vec add) (with_scalar sub_scalar))
  | Mul, Sub => Some (one (loop (fun s x v => fma (- s) v x)))
  | Div, Sub => Some (one (loop (fun s x v => let sc := -1 / s in fma sc v x)))
  | DivLeft, Sub => Some (one (loop (fun s x v => fma (- s) (1 / v) x)))
  | Add, Mul => Some (one (loop (fun s x v => fma x v (x * s))))
  | Sub, Mul => Some (one (loop (fun s x v => fma x v (- x * s))))
  | SubLeft, Mul => Some (one (loop (fun s x v => fma x (- v) (x * s))))
  | Mul, Mul => Some (two (with_vec mul) (with_scalar mul_scalar))
  | Div, Mul => Some (two (with_scalar div_scalar) (with_vec mul))
  | DivLeft, Mul => Some (two (with_vec div) (with_scalar mul_scalar))
  | Add, Div => Some (one (loop (fun s x v => x / (v + s))))
  | Sub, Div => Some (one (loop (fun s x v => x / (v - s))))
  | SubLeft, Div => Some (one (loop (fun s x v => x / (s - v))))
  | Mul, Div => Some (two (with_scalar div_scalar) (with_vec div))
  | Div, Div => Some (two (with_scalar mul_scalar) (with_vec div))
  | DivLeft, Div => Some (two (with_vec mul) (with_scalar div_scalar))
  | _, _ => None   (* in particular: no generic kernel for the destination
                      tag Assign *)
  end%Q.

(** The specialisations for [double] (with [cblas_daxpy]); those for [float]
    are the same text with [float] and [cblas_saxpy]. *)
Definition STOPImpl_blas (reply : option (loc * (nat -> Q)))
    (o destop : OPType) : option kernel :=
  match o, destop with
  | Add, Add => Some (two (axpy_vec vec_size 1) (axpy_scalar id))
  | Sub, Add => Some (two (axpy_vec dest_size 1) (axpy_scalar Qopp))
  | SubLeft, Add => Some (two (axpy_vec dest_size (-1)) (axpy_scalar id))
  | Mul, Add => Some (one (loop (fun s x v => fma s v x)))
  | Div, Add => Some (one (loop (fun s x v => fma (1 / s) v x)))
  | DivLeft, Add => Some (one (loop (fun s x v => fma s (1 / v) x)))
  | Add, Sub => Some (two (axpy_vec vec_size (-1)) (axpy_scalar Qopp))
  | Sub, Sub => Some (two (axpy_vec vec_size (-1)) (axpy_scalar id))
  | SubLeft, Sub => Some (two (axpy_vec vec_size 1) (axpy_scalar Qopp))
  | Mul, Sub => Some (one (loop (fun s x v => fma (- s) v x)))
  | Div, Sub => Some (one (loop (fun s x v => fma (-1 / s) v x)))
  | DivLeft, Sub => Some (one (loop (fun s x v => fma (- s) (1 / v) x)))
  | Add, Mul => Some (one (loop (fun s x v => fma x v (x * s))))
  | Sub, Mul => Some (one (loop (fun s x v => fma x v (- x * s))))
  | SubLeft, Mul => Some (one (loop (fun s x v => fma x (- v) (x * s))))
  | Mul, Mul => Some (two (with_scalar mul_scalar) (with_vec mul))
  | Div, Mul => Some (two (with_scalar div_scalar) (with_vec mul))
  | DivLeft, Mul => Some (two (with_vec div) (with_scalar mul_scalar))
  | Add, Div => Some (one (loop (fun s x v => x / (v + s))))
  | Sub, Div => Some (one (loop (fun s x v => x / (v - s))))
  | SubLeft, Div => Some (one (loop (fun s x v => x / (s - v))))
  | Mul, Div => Some (two (with_scalar div_scalar) (with_vec div))
  | Div, Div => Some (two (with_scalar mul_scalar) (with_vec div))
  | DivLeft, Div => Some (two (with_vec mul) (with_scalar div_scalar))
  | Add, Assign => Some (after_copy reply [axpy_scalar id])
  | Sub, Assign => Some (after_copy reply [axpy_scalar Qopp])
  | SubLeft, Assign =>
    Some (after_copy reply [with_const mul_scalar (-1); axpy_scalar id])
  | Mul, Assign => Some (after_copy reply [with_scalar mul_scalar])
  | Div, Assign => Some (after_copy reply [with_scalar div_scalar])
  | DivLeft, Assign => Some (two (with_scalar fill) (with_vec div))
  | _, _ => None   (* Assign is no source tag; SubLeft and DivLeft are no
                      destination tags *)
  end%Q.

(** The dispatch on (source tag, destination tag, element type); [None]
    where the class template has no definition to instantiate.  The [float]
    kernel for (SubLeft, Assign) calls [mul (dest, -1.0)]: [mul] is
    [template <typename T, size_t... sa> void mul (Tensor<T, sa...>&, T)],
    for which [T] is deduced as [float] from [dest] and as [double] from the
    literal, so this one member cannot be instantiated. *)
Definition STOPImpl (ty : ElemType) (reply : option (loc * (nat -> Q)))
    (o destop : OPType) : option kernel :=
  match ty with
  | Generic => STOPImpl_generic o destop
  | Double => STOPImpl_blas reply o destop
  | Float =>
    match o, destop with
    | SubLeft, Assign => None
    | _, _ => STOPImpl_blas reply o destop
    end
  end.

(** The operators that build a descriptor:
    [a + s], [s + a], [a - s], [s - a], [a * s], [s * a], [a / s], [s / a]. *)
Definition plus_scalar (a : Tensor) (s : Q) : STOP := mkSTOP a s Add.
Definition scalar_plus (s : Q) (a : Tensor) : STOP := mkSTOP a s Add.
Definition minus_scalar (a : Tensor) (s : Q) : STOP := mkSTOP a s Sub.
Definition scalar_minus (s : Q) (a : Tensor) : STOP := mkSTOP a s SubLeft.
Definition times_scalar (a : Tensor) (s : Q) : STOP := mkSTOP a s Mul.
Definition scalar_times (s : Q) (a : Tensor) : STOP := mkSTOP a s Mul.
Definition over_scalar (a : Tensor) (s : Q) : STOP := mkSTOP a s Div.
Definition scalar_over (s : Q) (a : Tensor) : STOP := mkSTOP a s DivLeft.

(** [checkShape (shape (), a.shape ())] in front of a routine. *)
Definition checked (this a : Tensor) (h : heap)
    (k : result (Tensor * heap)) : result (Tensor * heap) :=
  defined (shape this) (fun s1 =>
  defined (shape a) (fun s2 =>
    match checkShape s1 s2 with
    | Some e => Throw e (this, h)
    | None => k
    end)).

(** [dest OP= exp] and [dest = exp] for a descriptor: the combining operator
    is the destination tag.  [None] when the kernel cannot be instantiated. *)
Definition compound_STOP (ty : ElemType) (reply : option (loc * (nat -> Q)))
    (destop : OPType) (this : Tensor) (exp : STOP) (h : heap)
    : option (result (Tensor * heap)) :=
  match STOPImpl ty reply (op exp) destop with
  | Some apply => Some (checked this (vec exp) h (apply this exp h))
  | None => None
  end.

(** [operator+= (const Tensor<T, sa...>&)] and [operator+= (const T&)] *)
Definition add_assign (ty : ElemType) (this a : Tensor) (h : heap)
    : result (Tensor * heap) :=
  checked this a h
    (match ty with
     | Generic => pass this (add this a h)
     | _ => pass this (cblas_axpy (size this) 1 (Buffer (ptr a)) (stride a)
                                  (ptr this) (stride this) h)
     end).

Definition add_assign_scalar (ty : ElemType) (this : Tensor) (a : Q)
    (h : heap) : result (Tensor * heap) :=
  match ty with
  | Generic => pass this (add_scalar this a h)
  | _ => pass this (cblas_axpy (size this) 1 (LocalArray [a]) 0
                               (ptr this) (stride this) h)
  end.

(** [operator-= (const Tensor<T, sa...>&)] and [operator-= (const T&)] *)
Definition sub_assign (ty : ElemType) (this a : Tensor) (h : heap)
    : result (Tensor * heap) :=
  checked this a h
    (match ty with
     | Generic => pass this (add this a h)
     | _ => pass this (cblas_axpy (size this) (-1) (Buffer (ptr a)) (stride a)
                                  (ptr this) (stride this) h)
     end).

Definition sub_assign_scalar (ty : ElemType) (this : Tensor) (a : Q)
    (h : heap) : result (Tensor * heap) :=
  match ty with
  | Generic => pass this (add_scalar this a h)
  | _ => pass this (cblas_axpy (size this) (-1) (LocalArray [a]) 0
                               (ptr this) (stride this) h)
  end.

(** [operator*=] and [operator/=] *)
Definition mul_assign (this a : Tensor) (h : heap) : result (Tensor * heap) :=
  checked this a h (pass this (mul this a h)).
Definition mul_assign_scalar (this : Tensor) (a : Q) (h : heap)
    : result (Tensor * heap) :=
  pass this (mul_scalar this a h).
Definition div_assign (this a : Tensor) (h : heap) : result (Tensor * heap) :=
  checked this a h (pass this (div this a h)).
Definition div_assign_scalar (this : Tensor) (a : Q) (h : heap)
    : result (Tensor * heap) :=
  pass this (div_scalar this a h).

(** The by-value operators on [Vector<sz, T>] at the end of the header.
    For a [Vector] operand they are better matches than the descriptor
    operators on [Tensor] (no derived-to-base conversion), so [s - a] and
    [s / a] on vectors resolve to them.  Each is
    [Vector<sz, T> c = a; c OP= b; return c;], the copy being placed at
    [at_]. *)
Definition Vector_op (reply : option (loc * (nat -> Q))) (at_ : loc)
    (raw : nat -> Q) (a : Tensor) (h : heap)
    (compound : Tensor -> heap -> result (Tensor * heap))
    : result (Tensor * heap) :=
  and_then (ctor_copy reply at_ raw a h) (fun st => compound (fst st) (snd st)).

(** [operator- (const Vector<sz, T>& a, const T& b)] *)
Definition Vector_minus_scalar ty reply at_ raw (a : Tensor) (b : Q) h :=
  Vector_op reply at_ raw a h (fun c h => sub_assign_scalar ty c b h).
(** [operator- (const T& b, const Vector<sz, T>& a)] *)
Definition scalar_minus_Vector ty reply at_ raw (b : Q) (a : Tensor) h :=
  Vector_op reply at_ raw a h (fun c h => sub_assign_scalar ty c b h).
(** [operator/ (const Vector<sz, T>& a, const T& b)] *)
Definition Vector_over_scalar reply at_ raw (a : Tensor) (b : Q) h :=
  Vector_op reply at_ raw a h (fun c h => div_assign_scalar c b h).
(** [operator/ (const T& b, const Vector<sz, T>& a)] *)
Definition scalar_over_Vector reply at_ raw (b : Q) (a : Tensor) h :=
  Vector_op reply at_ raw a h (fun c h => div_assign_scalar c b h).
(** [operator- (const Vector<sz, T>& a, const Vector<sz, T>& b)] *)
Definition Vector_minus_Vector ty reply at_ raw (a b : Tensor) h :=
  Vector_op reply at_ raw a h (fun c h => sub_assign ty c b h).

(** The elements of the destination once an operation has returned. *)
Definition elements_after (r : result (Tensor * heap)) : option (list Q) :=
  match r with
  | Ok (t, h) => elements t h
  | _ => None
  end.

End TensorHpp.

(** ** Libraries/Tensor/MatrixVector.hpp *)

Module MatrixVectorHpp.

(** The element type the kernels are specialised on, as in [TensorHpp]:
    elements are exact rationals, and the theorems about a division or about
    the fused kernels are stated for [double] and [float]. *)
Inductive ElemType : Type := Generic | Double | Float.

Inductive OPType : Type := Add | Sub | SubLeft | Mul | Div | DivLeft | Assign.

Definition alignment : nat := 16.

(** [ContiguousStorage<T, size>] holds [T _data[size] = {}] inline (at the
    address of the object); the specialisation [ContiguousStorage<T, 0>]
    holds [_len], [_alloced_size] and the owning pointer [_data].  A
    [Vector<_size, T>] is its storage base and adds no member. *)
Inductive ContiguousStorage : Type :=
  | Inline (size : nat) (self : loc)
  | Dynamic (_len _alloced_size : nat) (_data : pointer).

Abbreviation Vector := ContiguousStorage.

Definition ptr (s : ContiguousStorage) : pointer :=
  match s with
  | Inline _ a => Addr a
  | Dynamic _ _ p => p
  end.

Definition len (s : ContiguousStorage) : nat :=
  match s with
  | Inline n _ => n
  | Dynamic l _ _ => l
  end.

Definition alloced_size (s : ContiguousStorage) : nat :=
  match s with
  | Inline n _ => n
  | Dynamic _ a _ => a
  end.

Definition isAlloc (s : ContiguousStorage) : bool :=
  match s with
  | Inline _ _ => true
  | Dynamic l _ _ => bool_decide (l <> 0)
  end.

(** [std::unique_ptr<T, void (*)(void*)>::reset (p)] releases the pointer it
    held, when that is not null, with the deleter [std::free]. *)
Definition reset (old : pointer) (h : heap) : option heap :=
  match old with
  | Null => Some h
  | _ => std_free old h
  end.

(** [bool alloc (const size_t len)]; [sizeofT] is [sizeof (T)]. *)
Definition alloc (sizeofT : nat) (reply : option (loc * (nat -> Q)))
    (n : nat) (s : ContiguousStorage) (h : heap)
    : option (bool * ContiguousStorage * heap) :=
  match s with
  | Inline _ _ => Some (true, s, h)
  | Dynamic _ _ d =>
    let asz := alignment * ((n * sizeofT + alignment - 1) / alignment) in
    match aligned_alloc reply n h with
    | (Null, h1) => Some (false, Dynamic n asz d, h1)
    | (p, h1) =>
      option_map (fun h2 => (true, Dynamic n asz p, h2)) (reset d h1)
    end
  end.

(** [ContiguousStorage ()] *)
Definition storage_default (size : nat) (at_ : loc) (h : heap)
    : ContiguousStorage * heap :=
  match size with
  | O => (Dynamic 0 0 Null, h)
  | S _ => (Inline size at_, <[at_ := replicate size 0%Q]> h)
  end.

(** [ContiguousStorage (const size_t len)] *)
Definition storage_len (sizeofT : nat) (reply : option (loc * (nat -> Q)))
    (size : nat) (at_ : loc) (n : nat) (h : heap)
    : option (ContiguousStorage * heap) :=
  match size with
  | O =>
    match alloc sizeofT reply n (Dynamic 0 0 Null) h with
    | Some (_, s, h1) => option_map (fun h2 => (s, h2)) (fill_n (ptr s) n 0 h1)
    | None => None
    end
  | S _ => Some (Inline size at_, <[at_ := replicate size 0%Q]> h)
  end.

(** [Vector]: [size ()], [void alloc (const size_t len)] and the fills. *)
Definition size (v : Vector) : nat := len v.

Definition Vector_alloc (sizeofT : nat) (reply : option (loc * (nat -> Q)))
    (n : nat) (v : Vector) (h : heap) : option (Vector * heap) :=
  match alloc sizeofT reply n v h with
  | Some (_, v', h') => Some (v', h')
  | None => None
  end.

Definition setConstant (val : Q) (v : Vector) (h : heap) : option heap :=
  fill_n (ptr v) (len v) val h.

Definition elements (v : Vector) (h : heap) : option (list Q) :=
  match size v with
  | O => Some []
  | S _ => option_map (take (size v)) (block_of (ptr v) h)
  end.

(** The atomic loops, on exact rationals; as in [TensorHpp], [Qdiv] at a
    zero divisor is no value of the code, and what is stated about a division
    is stated for [double] and [float] and for divisors that are not zero. *)
Definition add (a b : Vector) := elementwise Qplus (size a) (ptr a) (ptr b).
Definition add_scalar (a : Vector) (b : Q) :=
  elementwise_scalar Qplus (size a) (ptr a) b.
Definition sub (a b : Vector) := elementwise Qminus (size a) (ptr a) (ptr b).
Definition sub_scalar (a : Vector) (b : Q) :=
  elementwise_scalar Qminus (size a) (ptr a) b.
Definition mul (a b : Vector) := elementwise Qmult (size a) (ptr a) (ptr b).
Definition mul_scalar (a : Vector) (b : Q) :=
  elementwise_scalar Qmult (size a) (ptr a) b.
Definition div (a b : Vector) := elementwise Qdiv (size a) (ptr a) (ptr b).
Definition div_scalar (a : Vector) (b : Q) :=
  elementwise_scalar Qdiv (size a) (ptr a) b.
Definition copyTo (a b : Vector) := memcpy (ptr a) (ptr b) (size a).

Definition run (o : option heap) : result heap := defined o Ok.

(** [_LINALG_VECVEC_SIZECHECK] and [_LINALG_SELFVEC_SIZECHECK] *)
Definition size_check (a b : Vector) (h : heap) : result heap :=
  if decide (size a <> size b) then Throw LinalgSizeError h else Ok h.

(** [Vector::operator= (const Vector&)] *)
Definition assign (this other : Vector) (h : heap) : result heap :=
  if decide (size this <> size other)
  then Throw (AssignSizeMismatch (size this) (size other)) h
  else run (memcpy (ptr this) (ptr other) (size this) h).

(** The compound assignments on a plain container operand. *)
Definition add_assign (this a : Vector) (h : heap) : result heap :=
  run (add this a h).

Definition sub_assign (this a : Vector) (h : heap) : result heap :=
  and_then (size_check this a h) (fun h => run (sub this a h)).

Definition mul_assign (this a : Vector) (h : heap) : result heap :=
  and_then (size_check this a h) (fun h => run (mul this a h)).

Definition div_assign (this a : Vector) (h : heap) : result heap :=
  and_then (size_check this a h) (fun h => run (div this a h)).

(** The container-combine descriptor [VVOP<T, sa, sb, _op>] and the
    operators [a + b], [a - b], [a * b], [a / b] that build it after
    [_LINALG_VECVEC_SIZECHECK]; [inl e] when the check throws. *)
Record VVOP : Type := mkVVOP { lhs : Vector; rhs : Vector; op : OPType }.

Definition make_VVOP (o : OPType) (a b : Vector) : exn + VVOP :=
  if decide (size a <> size b) then inl LinalgSizeError
  else inr (mkVVOP a b o).

Definition kernel : Type := Vector -> VVOP -> heap -> result heap.

Definition two (f g : Vector -> VVOP -> heap -> option heap) : kernel :=
  fun dest exp h => and_then (run (f dest exp h)) (fun h' => run (g dest exp h')).

Definition one (f : Vector -> VVOP -> heap -> option heap) : kernel :=
  fun dest exp h => run (f dest exp h).

(** [dest = exp.lhs; ...] of the accelerated assignment kernels. *)
Definition after_assign (f : Vector -> VVOP -> heap -> option heap) : kernel :=
  fun dest exp h =>
    and_then (assign dest (lhs exp) h) (fun h' => run (f dest exp h')).

(** [for (i < exp.lhs.size ()) dest[i] = f (dest[i], exp.lhs[i], exp.rhs[i])] *)
Definition kernel_loop (f : Q -> Q -> Q -> Q) (dest : Vector) (exp : VVOP)
    : heap -> option heap :=
  elementwise2 f (size (lhs exp)) (ptr dest) (ptr (lhs exp)) (ptr (rhs exp)).

Definition axpy (n : nat) (alpha : Q) (x dest : Vector) :=
  cblas_axpy n alpha (Buffer (ptr x)) 1 (ptr dest) 1.

(** The generic kernels [VVOPImpl<T, sa, sb, _op, _destop>::apply].  The
    body of the specialisation for (Sub, Mul) is
    [dest[i] = std::fma (dest[i], exp.lhs[i], -dest[i] * exp.rhs);]:
    the last operand multiplies a scalar by the container [exp.rhs], which
    is a descriptor and no argument of [std::fma], so the member cannot be
    instantiated; it has no entry here. *)
Definition VVOPImpl_generic (o destop : OPType) : option kernel :=
  match o, destop with
  | Add, Add => Some (two (fun d e => add d (lhs e)) (fun d e => add d (rhs e)))
  | Sub, Add => Some (two (fun d e => add d (lhs e)) (fun d e => sub d (rhs e)))
  | Mul, Add => Some (one (kernel_loop (fun x a b => fma a b x)))
  | Div, Add => Some (one (kernel_loop (fun x a b => fma (1 / b) a x)))
  | Add, Sub => Some (two (fun d e => sub d (lhs e)) (fun d e => sub d (rhs e)))
  | Sub, Sub => Some (two (fun d e => sub d (lhs e)) (fun d e => add d (rhs e)))
  | Mul, Sub => Some (one (kernel_loop (fun x a b => fma (- a) b x)))
  | Div, Sub => Some (one (kernel_loop (fun x a b => fma (-1 / b) a x)))
  | Add, Mul => Some (one (kernel_loop (fun x a b => fma x a (x * b))))
  | Sub, Mul => None
  | Mul, Mul => Some (two (fun d e => mul d (lhs e)) (fun d e => mul d (rhs e)))
  | Div, Mul => Some (two (fun d e => div d (rhs e)) (fun d e => mul d (lhs e)))
  | Add, Div => Some (one (kernel_loop (fun x a b => x / (a + b))))
  | Sub, Div => Some (one (kernel_loop (fun x a b => x / (a - b))))
  | Mul, Div => Some (two (fun d e => div d (lhs e)) (fun d e => div d (rhs e)))
  | Div, Div => Some (two (fun d e => mul d (rhs e)) (fun d e => div d (lhs e)))
  | Add, Assign => Some (two (fun d e => copyTo d (lhs e)) (fun d e => add d (rhs e)))
  | Sub, Assign => Some (two (fun d e => copyTo d (lhs e)) (fun d e => sub d (rhs e)))
  | Mul, Assign => Some (two (fun d e => copyTo d (lhs e)) (fun d e => mul d (rhs e)))
  | Div, Assign => Some (two (fun d e => copyTo d (lhs e)) (fun d e => div d (rhs e)))
  | _, _ => None
  end%Q.

(** The specialisations for [double] and [float]. *)
Definition VVOPImpl_blas (o destop : OPType) : option kernel :=
  match o, destop with
  | Add, Add => Some (two (fun d e => axpy (size (lhs e)) 1 (lhs e) d)
                          (fun d e => axpy (size (rhs e)) 1 (rhs e) d))
  | Sub, Add => Some (two (fun d e => axpy (size (lhs e)) 1 (lhs e) d)
                          (fun d e => axpy (size (rhs e)) (-1) (rhs e) d))
  | Mul, Add => Some (one (kernel_loop (fun x a b => fma a b x)))
  | Div, Add => Some (one (kernel_loop (fun x a b => fma a (1 / b) x)))
  | Add, Sub => Some (two (fun d e => axpy (size (lhs e)) (-1) (lhs e) d)
                          (fun d e => axpy (size (rhs e)) (-1) (rhs e) d))
  | Sub, Sub => Some (two (fun d e => axpy (size (lhs e)) (-1) (lhs e) d)
                          (fun d e => axpy (size (rhs e)) 1 (rhs e) d))
  | Mul, Sub => Some (one (kernel_loop (fun x a b => fma (- a) b x)))
  | Div, Sub => Some (one (kernel_loop (fun x a b => fma (- a) (1 / b) x)))
  | Add, Mul => Some (one (kernel_loop (fun x a b => fma x a (x * b))))
  | Sub, Mul => Some (one (kernel_loop (fun x a b => fma x a (- x * b))))
  | Mul, Mul => Some (two (fun d e => mul d (lhs e)) (fun d e => mul d (rhs e)))
  | Div, Mul => Some (two (fun d e => div d (rhs e)) (fun d e => mul d (lhs e)))
  | Add, Div => Some (one (kernel_loop (fun x a b => x / (a + b))))
  | Sub, Div => Some (one (kernel_loop (fun x a b => x / (a - b))))
  | Mul, Div => Some (two (fun d e => div d (lhs e)) (fun d e => div d (rhs e)))
  | Div, Div => Some (two (fun d e => mul d (rhs e)) (fun d e => div d (lhs e)))
  | Add, Assign => Some (after_assign (fun d e => axpy (size (rhs e)) 1 (rhs e) d))
  | Sub, Assign => Some (after_assign (fun d e => axpy (size (rhs e)) (-1) (rhs e) d))
  | Mul, Assign => Some (after_assign (fun d e => mul d (rhs e)))
  | Div, Assign => Some (after_assign (fun d e => div d (rhs e)))
  | _, _ => None
  end%Q.

Definition VVOPImpl (ty : ElemType) (o destop : OPType) : option kernel :=
  match ty with
  | Generic => VVOPImpl_generic o destop
  | Double | Float => VVOPImpl_blas o destop
  end.

(** [dest OP= exp] and [dest = exp] for a container-combine descriptor;
    [None] when the kernel cannot be instantiated. *)
Definition compound_VVOP (ty : ElemType) (destop : OPType) (this : Vector)
    (exp : VVOP) (h : heap) : option (result heap) :=
  match VVOPImpl ty (op exp) destop with
  | Some apply => Some (apply this exp h)
  | None => None
  end.

(** The elements of [v] once an operation has returned. *)
Definition elements_after (v : Vector) (r : result heap) : option (list Q) :=
  match r with
  | Ok h => elements v h
  | _ => None
  end.

End MatrixVectorHpp.

(** ** States of a container

    [holds t h sh l b]: the container [t] is allocated in the store [h], with
    realized shape [sh] and its [size ()] elements [b] in the block at [l],
    which is the inline buffer of a fixed-size container and the owned heap
    buffer of a dynamic one.  This is the state the constructors and [alloc]
    establish. *)
Definition holds (t : TensorHpp.Tensor) (h : heap) (sh : list nat) (l : loc)
    (b : list Q) : Prop :=
  TensorHpp._shape t = Some sh /\
  length sh = TensorHpp._nDims t /\
  TensorHpp._size t = product sh /\
  TensorHpp.data t = Addr l /\
  h !! l = Some b /\
  length b = TensorHpp._size t /\
  (if TensorHpp.isStaticSized t
   then l = TensorHpp.self t /\ sh = TensorHpp.dims t
   else TensorHpp.heapData t = Addr l).

(** ** The two-pass evaluation

    The reference of the fusion property, after the specification: the
    descriptor stands for the value [R[i]] ([source_value]); the materialized
    evaluation first computes [tmp = operand SRC scalar] elementwise
    ([materialize]) and then applies [dest OP= tmp] elementwise
    ([combine], [two_pass]). *)
Definition source_value (o : TensorHpp.OPType) (x s : Q) : Q :=
  match o with
  | TensorHpp.Add => x + s
  | TensorHpp.Sub => x - s
  | TensorHpp.SubLeft => s - x
  | TensorHpp.Mul => x * s
  | TensorHpp.Div => x / s
  | TensorHpp.DivLeft => s / x
  | TensorHpp.Assign => x
  end%Q.

Definition combine (destop : TensorHpp.OPType) (d r : Q) : Q :=
  match destop with
  | TensorHpp.Assign => r
  | TensorHpp.Add => d + r
  | TensorHpp.Sub => d - r
  | TensorHpp.Mul => d * r
  | TensorHpp.Div => d / r
  | _ => d
  end%Q.

Definition materialize (o : TensorHpp.OPType) (s : Q) (bv : list Q) : list Q :=
  map (fun x => source_value o x s) bv.

Definition two_pass (o destop : TensorHpp.OPType) (s : Q) (bd bv : list Q)
    : list Q :=
  zip_with (combine destop) bd (materialize o s bv).

(** No element of the list is zero. *)
Definition nonzero (l : list Q) : Prop := Forall (fun y => ~ y == 0) l.

(** The two-pass evaluation divides by no zero: not by the scalar (source
    tag Div), not by an element of the operand (DivLeft), and not by an
    element of [tmp] (destination tag Div). *)
Definition divisors_nonzero (o destop : TensorHpp.OPType) (s : Q)
    (bv : list Q) : Prop :=
  (o = TensorHpp.Div -> ~ s == 0) /\
  (o = TensorHpp.DivLeft -> nonzero bv) /\
  (destop = TensorHpp.Div -> nonzero (materialize o s bv)).

(** [updates f F]: on allocated containers of one shape with distinct
    buffers, the routine [f] replaces each element [x] of the destination by
    [F s x v], for the scalar [s] and the element [v] of the operand. *)
Definition updates (f : TensorHpp.routine) (F : Q -> Q -> Q -> Q) : Prop :=
  forall dest exp h sh d bd v bv,
    holds dest h sh d bd -> holds (TensorHpp.vec exp) h sh v bv -> d <> v ->
    f dest exp h
    = Some (<[d := zip_with (F (TensorHpp.scalar exp)) bd bv]> h).

(** ** Tensor.hpp: the by-value operators of [Vector<sz, T>]

    [operator+], [operator*], [operator/] on two vectors and on a vector and
    a scalar, each [Vector<sz, T> c = a; c OP= b; return c;] (the
    subtractions are in [TensorHpp]). *)

Module TensorHppVector.
Import TensorHpp.

(** [operator+ (const Vector<sz, T>& a, const Vector<sz, T>& b)] *)
Definition Vector_plus_Vector ty reply at_ raw (a b : Tensor) h :=
  Vector_op reply at_ raw a h (fun c h => add_assign ty c b h).
(** [operator* (const Vector<sz, T>& a, const Vector<sz, T>& b)] *)
Definition Vector_times_Vector reply at_ raw (a b : Tensor) h :=
  Vector_op reply at_ raw a h (fun c h => mul_assign c b h).
(** [operator/ (const Vector<sz, T>& a, const Vector<sz, T>& b)] *)
Definition Vector_over_Vector reply at_ raw (a b : Tensor) h :=
  Vector_op reply at_ raw a h (fun c h => div_assign c b h).
(** [operator+ (const Vector<sz, T>& a, const T& b)] *)
Definition Vector_plus_scalar ty reply at_ raw (a : Tensor) (b : Q) h :=
  Vector_op reply at_ raw a h (fun c h => add_assign_scalar ty c b h).
(** [operator+ (const T& b, const Vector<sz, T>& a)] *)
Definition scalar_plus_Vector ty reply at_ raw (b : Q) (a : Tensor) h :=
  Vector_op reply at_ raw a h (fun c h => add_assign_scalar ty c b h).
(** [operator* (const Vector<sz, T>& a, const T& b)] *)
Definition Vector_times_scalar reply at_ raw (a : Tensor) (b : Q) h :=
  Vector_op reply at_ raw a h (fun c h => mul_assign_scalar c b h).
(** [operator* (const T& b, const Vector<sz, T>& a)] *)
Definition scalar_times_Vector reply at_ raw (b : Q) (a : Tensor) h :=
  Vector_op reply at_ raw a h (fun c h => mul_assign_scalar c b h).

End TensorHppVector.

(** ** Tensor.hpp: indexing, and the classes [Vector] and [Matrix] *)

Module TensorHppMatrix.
Import TensorHpp.

(** [inline size_t idx (std::array<size_t, _nDims>& iidx) const]:
    [offset += iidx[i] * stride; stride *= _shape[i];] over the dimensions.
    Both arrays have [_nDims] entries. *)
Fixpoint idx_from (iidx shp : list nat) (offset stride : nat) : nat :=
  match iidx, shp with
  | i :: iidx', s :: shp' =>
    idx_from iidx' shp' (offset + i * stride) (stride * s)
  | _, _ => offset
  end.

Definition idx (t : Tensor) (iidx : list nat) : option nat :=
  option_map (fun shp => idx_from iidx shp 0 1) (shape t).

(** [*t (iidx)] through [const T* operator() (std::array<size_t, _nDims>&) const] *)
Definition at_idx (t : Tensor) (iidx : list nat) (h : heap) : option Q :=
  match idx t iidx with
  | Some k => load (ptr t) k h
  | None => None
  end.

(** [std::memcpy (dst, arr, n * sizeof (T))] from an array that is no block
    of the store (the backing array of an initializer list). *)
Definition memcpy_from (dst : pointer) (arr : list Q) (n : nat) (h : heap)
    : option heap :=
  match n with
  | O => Some h
  | S _ =>
    match dst with
    | Addr d =>
      match h !! d with
      | Some bd =>
        if decide (n <= length bd /\ n <= length arr)
        then Some (<[d := take n arr ++ drop n bd]> h)
        else None
      | None => None
      end
    | _ => None
    end
  end.

(** [Vector (uint32_t size) : Tensor<T, sz> ({size})] *)
Definition Vector_ctor_size (reply : option (loc * (nat -> Q))) (sz : nat)
    (at_ : loc) (raw : nat -> Q) (size : nat) (h : heap)
    : result (Tensor * heap) :=
  ctor_shape reply [sz] at_ raw [size] h.

(** [Vector (const std::initializer_list<T>& arr)]; the [static_assert]
    admits it for [sz > 0] only. *)
Definition Vector_ctor_list (sz : nat) (at_ : loc) (raw : nat -> Q)
    (arr : list Q) (h : heap) : option (result (Tensor * heap)) :=
  match sz with
  | O => None
  | S _ =>
    Some (and_then (ctor_shape None [sz] at_ raw [length arr] h) (fun st =>
            pass (fst st) (memcpy_from (ptr (fst st)) arr sz (snd st))))
  end.

(** [class Matrix : public Tensor<T, rw, cl>] with its members [_rows] and
    [_cols]. *)
Record Matrix : Type := mkMatrix { base : Tensor; _rows : nat; _cols : nat }.

Definition rows (m : Matrix) : nat := _rows m.
Definition lda (m : Matrix) : nat := _rows m.
Definition cols (m : Matrix) : nat := _cols m.

(** [inline size_t idx (size_t iidx0, size_t iidx1) const] *)
Definition Matrix_idx (m : Matrix) (i j : nat) : nat := i + rows m * j.

(** [*m (i, j)] as an rvalue. *)
Definition Matrix_at (m : Matrix) (i j : nat) (h : heap) : option Q :=
  load (ptr (base m)) (i + rows m * j) h.

(** The object of a derived class once the base constructor has run. *)
Definition derived (rws cls : nat) (r : result (Tensor * heap))
    : result (Matrix * heap) :=
  match r with
  | Ok (t, h) => Ok (mkMatrix t rws cls, h)
  | Throw e (t, h) => Throw e (mkMatrix t rws cls, h)
  | Undefined => Undefined
  end.

(** [Matrix () : Tensor<T, rw, cl> (), _rows (rw), _cols (cl)] *)
Definition Matrix_ctor_default (rw cl : nat) (at_ : loc) (raw : nat -> Q)
    (h : heap) : result (Matrix * heap) :=
  derived rw cl (ctor_default [rw; cl] at_ raw h).

(** [Matrix (uint32_t rows, uint32_t cols)
      : Tensor<T, rw, cl> ({rows, cols}), _rows (rows), _cols (cols)] *)
Definition Matrix_ctor (reply : option (loc * (nat -> Q))) (rw cl : nat)
    (at_ : loc) (raw : nat -> Q) (rws cls : nat) (h : heap)
    : result (Matrix * heap) :=
  derived rws cls (ctor_shape reply [rw; cl] at_ raw [rws; cls] h).

(** [template <size_t rrw, size_t ccl> Matrix (const Matrix<rrw, ccl, T>& other)
      : Tensor<T, rw, cl> (other.shape ()), _rows (other.rows ()),
        _cols (other.cols ())], chosen for a source with other template
    arguments. *)
Definition Matrix_ctor_convert (reply : option (loc * (nat -> Q)))
    (rw cl : nat) (at_ : loc) (raw : nat -> Q) (other : Matrix) (h : heap)
    : result (Matrix * heap) :=
  defined (shape (base other)) (fun s =>
    derived (rows other) (cols other) (ctor_shape reply [rw; cl] at_ raw s h)).

(** The local [x] of a member function that ends in [return x;]: the loop
    body [x[k i] = value i] for [i < n], then the return.  The returned
    object is the local (the copy is elided or the buffer is moved). *)
Definition filled (x : Tensor) (n : nat) (k : nat -> nat)
    (value : nat -> heap -> option Q) (h : heap) : result (Tensor * heap) :=
  pass x (for_loop n (fun i h =>
            match value i h with
            | Some v => set_elem x (k i) v h
            | None => None
            end) h).

(** [Vector<0, T> diagonalAsVector () const] *)
Definition diagonalAsVector (reply : option (loc * (nat -> Q))) (at_ : loc)
    (raw : nat -> Q) (m : Matrix) (h : heap) : result (Tensor * heap) :=
  let n := Nat.min (rows m) (cols m) in
  and_then (Vector_ctor_size reply 0 at_ raw n h) (fun st =>
    filled (fst st) n id (fun i => Matrix_at m i i) (snd st)).

(** [Vector<rw, T> col (uint32_t i)]; [rw] is the first template argument of
    the matrix. *)
Definition col (reply : option (loc * (nat -> Q))) (at_ : loc)
    (raw : nat -> Q) (m : Matrix) (i : nat) (h : heap)
    : result (Tensor * heap) :=
  and_then (Vector_ctor_size reply (hd 0 (dims (base m))) at_ raw (rows m) h)
    (fun st => filled (fst st) (rows m) id (fun j => Matrix_at m j i) (snd st)).

(** [Vector<cl, T> row (uint32_t i)] *)
Definition row (reply : option (loc * (nat -> Q))) (at_ : loc)
    (raw : nat -> Q) (m : Matrix) (i : nat) (h : heap)
    : result (Tensor * heap) :=
  and_then (Vector_ctor_size reply (hd 0 (tl (dims (base m)))) at_ raw
                             (cols m) h)
    (fun st => filled (fst st) (cols m) id (fun j => Matrix_at m i j) (snd st)).

(** [Matrix<sz, sz, T> Vector::asDiagonalMatrix () const] *)
Definition asDiagonalMatrix (reply : option (loc * (nat -> Q))) (at_ : loc)
    (raw : nat -> Q) (v : Tensor) (h : heap) : result (Matrix * heap) :=
  let sz := hd 0 (dims v) in
  match Matrix_ctor reply sz sz at_ raw (size v) (size v) h with
  | Ok (x, h1) =>
    derived (_rows x) (_cols x)
      (filled (base x) (size v) (fun i => i * size v + i)
              (fun i => get_elem v i) h1)
  | r => r
  end.

(** [Matrix<1, sz, T> Vector::asRowMatrix () const] *)
Definition asRowMatrix (reply : option (loc * (nat -> Q))) (at_ : loc)
    (raw : nat -> Q) (v : Tensor) (h : heap) : result (Matrix * heap) :=
  let sz := hd 0 (dims v) in
  match Matrix_ctor reply 1 sz at_ raw 1 (size v) h with
  | Ok (x, h1) =>
    derived (_rows x) (_cols x)
      (pass (base x) (memcpy (ptr (base x)) (ptr v) (size v) h1))
  | r => r
  end.

End TensorHppMatrix.

(** A matrix in its allocated state: the base tensor holds the shape
    [{r, c}] and the members [_rows], [_cols] agree with it. *)
Definition mholds (m : TensorHppMatrix.Matrix) (h : heap) (r c : nat)
    (l : loc) (b : list Q) : Prop :=
  holds (TensorHppMatrix.base m) h [r; c] l b /\
  TensorHppMatrix.rows m = r /\ TensorHppMatrix.cols m = c.

(** The column-major offset of a multi-index in a shape: the first index
    runs fastest, [i0 + s0 * (i1 + s1 * (i2 + ...))]. *)
Fixpoint column_major (shp iidx : list nat) : nat :=
  match iidx, shp with
  | i :: iidx', s :: shp' => i + s * column_major shp' iidx'
  | _, _ => 0
  end.

(** The block [b] after the writes [b[k i] = vals[i]] for [i < n] in
    turn. *)
Definition writes (k : nat -> nat) (vals : list Q) (n : nat) (b : list Q)
    : list Q :=
  foldl (fun b i => <[k i := nth i vals 0%Q]> b) b (seq 0 n).

(** ** TensorMath.hpp: norms and simple vector operations *)

Global Instance Qeq_decision (x y : Q) : Decision (x == y) := Qeq_dec x y.

Module TensorMath.
Import TensorHpp.

(** [std::max (a, b)] is [(a < b) ? b : a], [std::min (a, b)] is
    [(b < a) ? b : a]. *)
Definition std_max (a b : Q) : Q := if Qlt_le_dec a b then b else a.
Definition std_min (a b : Q) : Q := if Qlt_le_dec b a then b else a.

(** [for (size_t i = 0; i < x.size (); i++) acc = f (acc, x[i]);] *)
Fixpoint accumulate_from {A : Type} (i n : nat) (f : A -> Q -> A) (acc : A)
    (p : pointer) (h : heap) : option A :=
  match n with
  | O => Some acc
  | S n' =>
    match load p i h with
    | Some xi => accumulate_from (S i) n' f (f acc xi) p h
    | None => None
    end
  end.

Definition accumulate {A : Type} (f : A -> Q -> A) (init : A) (x : Tensor)
    (h : heap) : option A :=
  accumulate_from 0 (size x) f init (ptr x) h.

(** [T norm2Sq (const Vector<sz, T>& x)] *)
Definition norm2Sq (x : Tensor) (h : heap) : option Q :=
  accumulate (fun sumsq xi => sumsq + xi * xi)%Q 0%Q x h.

(** [T normInf (const Vector<sz, T>& x)] *)
Definition normInf (x : Tensor) (h : heap) : option Q :=
  accumulate (fun mmax xi => std_max mmax (Qabs xi)) 0%Q x h.

(** [T normNegInf (const Vector<sz, T>& x)]; [maxval] is
    [std::numeric_limits<T>::max ()]. *)
Definition normNegInf (maxval : Q) (x : Tensor) (h : heap) : option Q :=
  accumulate (fun mmin xi => std_min mmin (Qabs xi)) maxval x h.

(** [T norm1 (const Vector<sz, T>& x)] *)
Definition norm1 (x : Tensor) (h : heap) : option Q :=
  accumulate (fun sum xi => sum + Qabs xi)%Q 0%Q x h.

(** [T norm0 (const Vector<sz, T>& x)]: the counter is a [uint64_t],
    converted to [T] on return. *)
Definition norm0 (x : Tensor) (h : heap) : option Q :=
  option_map (fun nonZero : nat => inject_Z (Z.of_nat nonZero))
    (accumulate (fun nonZero xi => if Qeq_dec xi 0 then nonZero else S nonZero)
                0 x h).

(** [T dot (const Vector<sz1, T>& x1, const Vector<sz2>& x2)]:
    [sum += *x1 (i) * *x2 (i)] for [i < x1.size ()]. *)
Fixpoint dot_from (i n : nat) (sum : Q) (p1 p2 : pointer) (h : heap)
    : option Q :=
  match n with
  | O => Some sum
  | S n' =>
    match load p1 i h, load p2 i h with
    | Some a, Some b => dot_from (S i) n' (sum + a * b)%Q p1 p2 h
    | _, _ => None
    end
  end.

Definition dot (x1 x2 : Tensor) (h : heap) : option Q :=
  dot_from 0 (size x1) 0%Q (ptr x1) (ptr x2) h.

(** [inline void crossTo (Vector3& x, const Vector3& v1, const Vector3& v2)]:
    three assignments, each reading its operands when it runs. *)
Definition cross_component (x v1 v2 : Tensor) (k i j : nat) (h : heap)
    : option heap :=
  a ← get_elem v1 i h; b ← get_elem v2 j h;
  c ← get_elem v1 j h; d ← get_elem v2 i h;
  set_elem x k (a * b - c * d)%Q h.

Definition crossTo (x v1 v2 : Tensor) (h : heap) : option heap :=
  h1 ← cross_component x v1 v2 0 1 2 h;
  h2 ← cross_component x v1 v2 1 2 0 h1;
  cross_component x v1 v2 2 0 1 h2.

(** [inline Vector3 cross (const Vector3& v1, const Vector3& v2)]: the same
    assignments into a local [Vector3 x], which is returned. *)
Definition cross (at_ : loc) (raw : nat -> Q) (v1 v2 : Tensor) (h : heap)
    : result (Tensor * heap) :=
  and_then (ctor_default [3] at_ raw h) (fun st =>
    pass (fst st) (crossTo (fst st) v1 v2 (snd st))).

(** [inline int crossSign (const Vector2& v1, const Vector2& v2)] *)
Definition crossSign (v1 v2 : Tensor) (h : heap) : option Z :=
  a ← get_elem v2 0 h; b ← get_elem v1 1 h;
  c ← get_elem v2 1 h; d ← get_elem v1 0 h;
  Some (if Qlt_le_dec 0 (a * b - c * d) then 1%Z else (-1)%Z).

End TensorMath.

(** ** Libraries/Geometry: [Edge], [Triangle] and [Curve] (topology)

    Vertex indices are [uint64_t]; they are only compared, so they are
    natural numbers ([N]) here. *)

Module Geometry.

(** [struct Edge] *)
Record Edge : Type := mkEdge { u : N; v : N }.

Global Instance Edge_eq_dec : EqDecision Edge.
Proof. solve_decision. Defined.

Definition flip (e : Edge) : Edge := mkEdge (v e) (u e).
Definition isOrdered (e : Edge) : bool := (u e <? v e)%N.
Definition ordered (e : Edge) : Edge :=
  mkEdge (N.min (u e) (v e)) (N.max (u e) (v e)).
Definition isTopologicallyEquivalent (e other : Edge) : bool :=
  ((u e =? u other)%N && (v e =? v other)%N)
  || ((u e =? v other)%N && (v e =? u other)%N).
Definition sharesVertexWith (e other : Edge) : bool :=
  (u e =? u other)%N || (u e =? v other)%N
  || (v e =? u other)%N || (v e =? v other)%N.

(** [operator==], [operator<] and [operator<=] on edges *)
Definition Edge_eq (e0 e1 : Edge) : bool :=
  (u e0 =? u e1)%N && (v e0 =? v e1)%N.
Definition Edge_lt (e0 e1 : Edge) : bool :=
  (u e0 <? u e1)%N || (v e0 <? v e1)%N.
Definition Edge_le (e0 e1 : Edge) : bool := Edge_lt e0 e1 || Edge_eq e0 e1.

(** [struct Triangle] *)
Record Triangle : Type := mkTriangle { v0 : N; v1 : N; v2 : N }.

Definition edgeList (t : Triangle) : list Edge :=
  [mkEdge (v0 t) (v1 t); mkEdge (v1 t) (v2 t); mkEdge (v2 t) (v0 t)].
Definition orderedEdgeList (t : Triangle) : list Edge :=
  [ordered (mkEdge (v0 t) (v1 t)); ordered (mkEdge (v1 t) (v2 t));
   ordered (mkEdge (v2 t) (v0 t))].
Definition reverseOrientation (t : Triangle) : Triangle :=
  let temp := v0 t in mkTriangle (v1 t) temp (v2 t).

(** [Curve::isClosed]: the counters of [std::map<uint64_t, uint8_t> signSum]
    are bytes, so [+= 1] and [-= 1] wrap modulo 256; [signSum[k]] inserts 0
    for a key that is not in the map. *)
Definition bump (k : N) (d : Z) (signSum : gmap N Z) : gmap N Z :=
  <[k := ((default 0 (signSum !! k) + d) mod 256)%Z]> signSum.

Definition signSums (edges : list Edge) : gmap N Z :=
  foldl (fun signSum edge => bump (v edge) (-1) (bump (u edge) 1 signSum))
        ∅ edges.

Definition isClosed (edges : list Edge) : bool :=
  forallb (fun kv : N * Z => (snd kv =? 0)%Z) (map_to_list (signSums edges)).

End Geometry.

(** The number of edges that leave and that enter a vertex. *)
Definition leaving (k : N) (edges : list Geometry.Edge) : nat :=
  length (filter (fun e => Geometry.u e = k) edges).
Definition entering (k : N) (edges : list Geometry.Edge) : nat :=
  length (filter (fun e => Geometry.v e = k) edges).

(** ** Libraries/Geometry and Libraries/Mesh: operations on points

    A point is a [Vector3], that is a [Tensor<double, 3>]; [points] is the
    [std::vector<Vector3>] the functions index with a vertex.  Each local
    vector of a function is an object at an address of its own ([at_...]);
    [raw] gives the contents memory has at an address before the object is
    built there. *)

(** The value of a function that returns no container. *)
Inductive answer (A : Type) : Type :=
  | Returns (a : A)
  | Throws (e : exn)
  | NoBehaviour.          (* the C++ program has no defined behaviour *)
Arguments Returns {A} a.
Arguments Throws {A} e.
Arguments NoBehaviour {A}.

Module GeometryOps.
Import TensorHpp TensorHppVector TensorMath Geometry.

(** [points[i]] of a [std::vector], which does not check the index. *)
Definition index (points : list Tensor) (i : N) : option Tensor :=
  points !! N.to_nat i.

(** [Vector3 Triangle::getCentroid (const std::vector<Vector3>& points) const]:
    [Vector3 v = points[v0]; v += points[v1]; v += points[v2];
     return v / 3.0;] *)
Definition getCentroid (t : Triangle) (at_v at_c : loc) (raw : loc -> nat -> Q)
    (points : list Tensor) (h : heap) : result (Tensor * heap) :=
  defined (index points (v0 t)) (fun p0 =>
  and_then (ctor_copy None at_v (raw at_v) p0 h) (fun st =>
  defined (index points (v1 t)) (fun p1 =>
  and_then (add_assign Double (fst st) p1 (snd st)) (fun st =>
  defined (index points (v2 t)) (fun p2 =>
  and_then (add_assign Double (fst st) p2 (snd st)) (fun st =>
  Vector_over_scalar None at_c (raw at_c) (fst st) 3 (snd st))))))).

(** [Vector3 Triangle::getNormal (const std::vector<Vector3>& points) const]:
    [Vector3 vv0 = points[v0]; Vector3 vv1 = points[v1];
     Vector3 vv2 = points[v2]; vv1 -= vv0; vv2 -= vv0;
     crossTo (vv0, vv1, vv2); return vv0;] *)
Definition getNormal (t : Triangle) (at0 at1 at2 : loc) (raw : loc -> nat -> Q)
    (points : list Tensor) (h : heap) : result (Tensor * heap) :=
  defined (index points (v0 t)) (fun p0 =>
  and_then (ctor_copy None at0 (raw at0) p0 h) (fun st0 =>
  defined (index points (v1 t)) (fun p1 =>
  and_then (ctor_copy None at1 (raw at1) p1 (snd st0)) (fun st1 =>
  defined (index points (v2 t)) (fun p2 =>
  and_then (ctor_copy None at2 (raw at2) p2 (snd st1)) (fun st2 =>
  and_then (sub_assign Double (fst st1) (fst st0) (snd st2)) (fun st1' =>
  and_then (sub_assign Double (fst st2) (fst st0) (snd st1')) (fun st2' =>
  pass (fst st0)
       (crossTo (fst st0) (fst st1') (fst st2') (snd st2')))))))))).

(** [struct CircleGeometry] and [bool pointInCircle (const Vector3& v)]:
    [return norm2Sq (v - center) < radius * radius;] *)
Record CircleGeometry : Type := mkCircle { center : Tensor; radius : Q }.

Definition pointInCircle (c : CircleGeometry) (at_ : loc)
    (raw : loc -> nat -> Q) (p : Tensor) (h : heap) : answer bool :=
  match Vector_minus_Vector Double None at_ (raw at_) p (center c) h with
  | Ok (d, h') =>
    match norm2Sq d h' with
    | Some s => Returns (if Qlt_le_dec s (radius c * radius c) then true
                         else false)
    | None => NoBehaviour
    end
  | Throw e _ => Throws e
  | Undefined => NoBehaviour
  end.

(** [enum class Curve::Orientation] and
    [Curve::orientation (const Vector3& planeNormal,
                         const std::vector<Vector3>& points)]:
    [const Edge& e0 = edges[0]; const Edge& e1 = edges[1];
     Vector3 v1 = points[e0.v]; v1 -= points[e0.v];
     Vector3 v2 = points[e1.v]; v2 -= points[e1.u];
     Vector3 v1xv2 = cross (v1, v2); double z = dot (planeNormal, v1xv2);
     return z < 0 ? Curve::Orientation::X : Curve::Orientation::O;] *)
Inductive Orientation : Type := X | O.

Definition orientation_cross (edges : list Edge) (at1 at2 at3 : loc)
    (raw : loc -> nat -> Q) (points : list Tensor) (h : heap)
    : result (Tensor * heap) :=
  defined (edges !! 0) (fun e0 =>
  defined (edges !! 1) (fun e1 =>
  defined (index points (v e0)) (fun p0v =>
  and_then (ctor_copy None at1 (raw at1) p0v h) (fun st1 =>
  and_then (sub_assign Double (fst st1) p0v (snd st1)) (fun st1 =>
  defined (index points (v e1)) (fun p1v =>
  and_then (ctor_copy None at2 (raw at2) p1v (snd st1)) (fun st2 =>
  defined (index points (u e1)) (fun p1u =>
  and_then (sub_assign Double (fst st2) p1u (snd st2)) (fun st2 =>
  cross at3 (raw at3) (fst st1) (fst st2) (snd st2)))))))))).

Definition orientation (edges : list Edge) (planeNormal : Tensor)
    (at1 at2 at3 : loc) (raw : loc -> nat -> Q) (points : list Tensor)
    (h : heap) : answer Orientation :=
  match orientation_cross edges at1 at2 at3 raw points h with
  | Ok (v1xv2, h') =>
    match dot planeNormal v1xv2 h' with
    | Some z => Returns (if Qlt_le_dec z 0 then X else O)
    | None => NoBehaviour
    end
  | Throw e _ => Throws e
  | Undefined => NoBehaviour
  end.

End GeometryOps.

(** A [Vector3] in the store: a fixed-size tensor of dimension 3 holding
    the coordinates [x], [y], [z]. *)
Definition is_Vector3 (p : TensorHpp.Tensor) (h : heap) (x y z : Q) : Prop :=
  TensorHpp.dims p = [3] /\ holds p h [3] (TensorHpp.self p) [x; y; z].

(** ** Libraries/DataStructs/SortableVector.hpp

    [lo], [hi] and [mid] are [uint64_t]: integers with the wrap-around
    modulo [2^64] written out.  The element type [E] comes with its
    [operator==] and [operator<]. *)

Module SortableVectorHpp.

Definition wrap64 (z : Z) : Z := z mod 2 ^ 64.

(** [static_cast<uint64_t> (-1)] *)
Definition npos : Z := wrap64 (-1).

(** The loop of [find]: [while (lo <= hi) { mid = (lo + hi) / 2; ... }].
    No result stands for a loop that has not finished within [fuel]
    iterations; [v[mid]] outside the vector has no defined behaviour. *)
Fixpoint find_loop {E : Type} (eqb ltb : E -> E -> bool) (fuel : nat)
    (v : list E) (query : E) (lo hi : Z) : option (answer Z) :=
  match fuel with
  | O => None
  | S fuel' =>
    if (lo <=? hi)%Z then
      let mid := (wrap64 (lo + hi) / 2)%Z in
      match v !! Z.to_nat mid with
      | None => Some NoBehaviour
      | Some midE =>
        if eqb midE query then Some (Returns mid)
        else if ltb midE query
             then find_loop eqb ltb fuel' v query (wrap64 (mid + 1)) hi
             else find_loop eqb ltb fuel' v query lo (wrap64 (mid - 1))
      end
    else Some (Returns npos)
  end.

(** [uint64_t find (const E& query)], with [lo = 0, hi = v.size () - 1]. *)
Definition find {E : Type} (eqb ltb : E -> E -> bool) (v : list E)
    (query : E) : option (answer Z) :=
  find_loop eqb ltb (S (S (length v))) v query 0
            (wrap64 (Z.of_nat (length v) - 1)).

(** [bool contains (const E& query)] *)
Definition contains {E : Type} (eqb ltb : E -> E -> bool) (v : list E)
    (query : E) : option (answer bool) :=
  match find eqb ltb v query with
  | Some (Returns i) => Some (Returns (negb (i =? npos)%Z))
  | Some (Throws e) => Some (Throws e)
  | Some NoBehaviour => Some NoBehaviour
  | None => None
  end.

End SortableVectorHpp.

(** A vector in the order [sort ()] leaves it in: no element is below an
    earlier one. *)
Definition sorted_by {E : Type} (ltb : E -> E -> bool) (v : list E) : Prop :=
  forall i j x y,
    (i <= j)%nat -> v !! i = Some x -> v !! j = Some y -> ltb y x = false.

(** ** MatrixVector.hpp: states and the two-pass evaluation of [VVOP]

    [vholds v h l b]: the vector [v] has its [size ()] elements [b] in the
    block at [l]. *)
Definition vholds (v : MatrixVectorHpp.Vector) (h : heap) (l : loc)
    (b : list Q) : Prop :=
  MatrixVectorHpp.ptr v = Addr l /\ h !! l = Some b /\
  length b = MatrixVectorHpp.size v.

(** The value a container-combine descriptor stands for, and the
    materialized evaluation [tmp = lhs SRC rhs; dest OP= tmp]. *)
Definition vv_source (o : MatrixVectorHpp.OPType) (a b : Q) : Q :=
  match o with
  | MatrixVectorHpp.Add => a + b
  | MatrixVectorHpp.Sub => a - b
  | MatrixVectorHpp.Mul => a * b
  | MatrixVectorHpp.Div => a / b
  | _ => a
  end%Q.

Definition vv_combine (destop : MatrixVectorHpp.OPType) (d r : Q) : Q :=
  match destop with
  | MatrixVectorHpp.Assign => r
  | MatrixVectorHpp.Add => d + r
  | MatrixVectorHpp.Sub => d - r
  | MatrixVectorHpp.Mul => d * r
  | MatrixVectorHpp.Div => d / r
  | _ => d
  end%Q.

Definition vv_two_pass (o destop : MatrixVectorHpp.OPType)
    (bd ba bb : list Q) : list Q :=
  zip_with (vv_combine destop) bd (zip_with (vv_source o) ba bb).

(** The two-pass evaluation divides by no zero: not by an element of [rhs]
    (source tag Div) and not by an element of [tmp] (destination tag Div). *)
Definition vv_divisors_nonzero (o destop : MatrixVectorHpp.OPType)
    (ba bb : list Q) : Prop :=
  (o = MatrixVectorHpp.Div -> nonzero bb) /\
  (destop = MatrixVectorHpp.Div ->
   nonzero (zip_with (vv_source o) ba bb)).

(** Three lists combined index by index. *)
Definition zip3 (F : Q -> Q -> Q -> Q) (bd ba bb : list Q) : list Q :=
  zip_with (fun x p => F x (fst p) (snd p)) bd (zip ba bb).

(** [vupdates f F]: on a destination and two operands of one length, the
    destination's block distinct from the operands', the routine [f]
    replaces each element [x] of the destination by [F x a b], for the
    elements [a], [b] of the operands at the same index. *)
Definition vupdates
    (f : MatrixVectorHpp.Vector -> MatrixVectorHpp.VVOP -> heap -> option heap)
    (F : Q -> Q -> Q -> Q) : Prop :=
  forall dest exp h d bd a ba b bb,
    vholds dest h d bd ->
    vholds (MatrixVectorHpp.lhs exp) h a ba ->
    vholds (MatrixVectorHpp.rhs exp) h b bb ->
    MatrixVectorHpp.size (MatrixVectorHpp.lhs exp) = MatrixVectorHpp.size dest ->
    MatrixVectorHpp.size (MatrixVectorHpp.rhs exp) = MatrixVectorHpp.size dest ->
    d <> a -> d <> b ->
    f dest exp h = Some (<[d := zip3 F bd ba bb]> h).

(** ** MatrixVector.hpp: [Matrix]

    [Matrix<_rows, _cols, T>] is its storage base of [_rows * _cols]
    elements and the members [Rows] and [Cols]. *)
Module MatrixVectorHppMatrix.
Import MatrixVectorHpp.

Record Matrix : Type :=
  mkMatrix { storage : ContiguousStorage; Rows : nat; Cols : nat }.

Definition rows (m : Matrix) : nat := Rows m.
Definition cols (m : Matrix) : nat := Cols m.
Definition lda (m : Matrix) : nat := rows m.
Definition size (m : Matrix) : nat := len (storage m).

(** [operator() (size_t i, size_t j)], as an offset from [ptr ()]. *)
Definition at_ (m : Matrix) (i j : nat) : nat := i + j * lda m.

(** [void setIdentity ()] *)
Definition setIdentity (m : Matrix) (h : heap) : option heap :=
  let n := Nat.min (rows m) (cols m) in
  for_loop n (fun i => store (ptr (storage m)) (i + i * lda m) 1) h.

End MatrixVectorHppMatrix.

(** [mvholds m h l b]: the matrix [m] has its [rows () * cols ()] elements
    [b] in the block at [l]. *)
Definition mvholds (m : MatrixVectorHppMatrix.Matrix) (h : heap) (l : loc)
    (b : list Q) : Prop :=
  MatrixVectorHpp.ptr (MatrixVectorHppMatrix.storage m) = Addr l /\
  h !! l = Some b /\
  length b = MatrixVectorHppMatrix.rows m * MatrixVectorHppMatrix.cols m.

(** * Properties *)

(** ** Memory primitives *)

Section memory_facts.
Implicit Types (h : heap) (l : loc) (b : list Q).

Lemma fill_n_whole l n v b h :
  h !! l = Some b -> length b = n ->
  fill_n (Addr l) n v h = Some (<[l := replicate n v]> h).
Proof.
  intros Hl Hn. destruct n as [|n]; simpl.
  - apply nil_length_inv in Hn. subst b. by rewrite insert_id.
  - rewrite Hl. rewrite decide_True by lia.
    rewrite drop_ge by lia. by rewrite app_nil_r.
Qed.

Lemma memcpy_whole d s n bd bs h :
  h !! d = Some bd -> h !! s = Some bs -> length bd = n -> length bs = n ->
  memcpy (Addr d) (Addr s) n h = Some (<[d := bs]> h).
Proof.
  intros Hd Hs Hbd Hbs. destruct n as [|n]; simpl.
  - apply nil_length_inv in Hbd, Hbs. subst. by rewrite insert_id.
  - rewrite Hd, Hs. rewrite decide_True by lia.
    rewrite drop_ge by lia. rewrite take_ge by lia. by rewrite app_nil_r.
Qed.

Lemma store_other p i v h h' l :
  store p i v h = Some h' -> p <> Addr l -> h' !! l = h !! l.
Proof.
  destruct p as [| |l0]; simpl; try discriminate.
  destruct (h !! l0) as [b|] eqn:Hb; [|discriminate].
  case_decide; [|discriminate]. intros [= <-] Hne.
  rewrite lookup_insert_ne; [done|congruence].
Qed.

End memory_facts.

(** ** Allocation and zero fill *)

Section allocation.
Import TensorHpp.
Implicit Types (t : Tensor) (h : heap) (l : loc).

Lemma elements_at t h l b :
  data t = Addr l -> h !! l = Some b -> length b = _size t ->
  elements t h = Some b.
Proof.
  intros Hd Hl Hlen. unfold elements, size, ptr. rewrite Hd. simpl.
  destruct (_size t) as [|n] eqn:Hs.
  - apply nil_length_inv in Hlen. by subst.
  - rewrite Hl. simpl. by rewrite take_ge by lia.
Qed.

Lemma holds_elements t h sh l b : holds t h sh l b -> elements t h = Some b.
Proof. intros (_ & _ & _ & Hd & Hl & Hlen & _). by eapply elements_at. Qed.

Lemma holds_isAlloced t h sh l b : holds t h sh l b -> isAlloced t = true.
Proof.
  intros (_ & _ & _ & Hd & _). unfold isAlloced. rewrite Hd.
  by apply bool_decide_eq_true.
Qed.

(** A fixed-size container is allocated and zero-filled by its default
    constructor. *)
Lemma ctor_default_static ds at_ raw h :
  0 < product ds ->
  exists t h',
    ctor_default ds at_ raw h = Ok (t, h') /\
    holds t h' ds at_ (replicate (product ds) 0%Q) /\
    forall l, l <> at_ -> h' !! l = h !! l.
Proof.
  intros Hpos. unfold ctor_default, alloc, isStaticSized, isAlloced, _ctSize.
  simpl. rewrite bool_decide_eq_true_2 by done.
  erewrite fill_n_whole;
    [|apply lookup_insert_eq|by rewrite length_map, length_seq].
  simpl. eexists _, _. split; [reflexivity|]. split.
  - unfold holds, isStaticSized, _ctSize, _nDims. simpl.
    rewrite bool_decide_eq_true_2 by done.
    rewrite lookup_insert_eq, length_replicate. done.
  - intros l Hl. by rewrite !lookup_insert_ne.
Qed.

(** A successful [alloc] of an unallocated dynamic container installs the
    fresh block, zero-filled. *)
Lemma alloc_dynamic t shp l raw h :
  isAlloced t = false -> isStaticSized t = false ->
  length shp = _nDims t ->
  exists t',
    alloc (Some (l, raw)) shp t h
      = Ok (t', <[l := replicate (product shp) 0%Q]> h) /\
    holds t' (<[l := replicate (product shp) 0%Q]> h) shp l
          (replicate (product shp) 0%Q) /\
    dims t' = dims t /\ self t' = self t.
Proof.
  intros Ha Hs Hlen. unfold alloc. rewrite Ha, Hs. simpl.
  erewrite fill_n_whole;
    [|apply lookup_insert_eq|by rewrite length_map, length_seq].
  simpl. rewrite insert_insert_eq. eexists. split; [reflexivity|].
  split; [|done].
  unfold holds, isStaticSized, _ctSize, _nDims in *. simpl.
  rewrite Hs, lookup_insert_eq, length_replicate. done.
Qed.

End allocation.

Section zero_fill.
Import TensorHpp.



End zero_fill.

Section allocate_again.
Import TensorHpp.

(** C6, as amended.  [Tensor::alloc] on a container that is already
    allocated does nothing: the object and the whole store (buffer, shape,
    length, every element) are unchanged; [alloc] of the inline storage
    [ContiguousStorage<T, size>] is always a no-op.  A fixed-size [Tensor]
    is allocated by each of its constructors, so [alloc] is a no-op on it
    until [free ()] or a move. *)
Theorem alloc_of_allocated_container :
  (forall reply shp t h,
      isAlloced t = true -> alloc reply shp t h = Ok (t, h)) /\
  (forall sizeofT reply n size at_ h,
      MatrixVectorHpp.alloc sizeofT reply n (MatrixVectorHpp.Inline size at_) h
        = Some (true, MatrixVectorHpp.Inline size at_, h)).
Proof.
  split.
  - intros reply shp t h Ha. unfold alloc. by rewrite Ha.
  - done.
Qed.

Lemma alloc_of_allocated_container_witness :
  alloc None [5] (mkTensor [0] 1 (Addr 7) (Addr 7) 2 (Some [2]))
        {[7 := [1%Q; 2%Q]]}
    = Ok (mkTensor [0] 1 (Addr 7) (Addr 7) 2 (Some [2]), {[7 := [1%Q; 2%Q]]}).
Proof.
  destruct alloc_of_allocated_container as (H1 & _).
  apply H1. reflexivity.
Defined.

(** C6, the claim as stated fails.
    - An inline fixed-capacity container for which [alloc] is no no-op:
      [Tensor<double, 2> t; t[0] = 5; t.free (); t.alloc ({});].  After
      [free] the fixed-size tensor is unallocated with length 0; [alloc]
      takes the branch [_ctSize > 0]: it sets [data], the length 2 and the
      shape, and zero-fills the inline buffer, which held 5 and 0.
    - An allocated container for which [alloc] is no no-op: a
      [Vector<0, double>] of MatrixVector.hpp with length 3 holding 1, 2, 3;
      [ContiguousStorage<T, 0>::alloc (5)] has no guard: the length becomes
      5, the buffer is replaced and the elements are lost. *)
Lemma alloc_is_not_always_a_noop :
  (exists t0 h0 h1 t1 t2 h2,
      ctor_default [2] 1 (fun _ => 7%Q) ∅ = Ok (t0, h0) /\
      set_elem t0 0 5%Q h0 = Some h1 /\
      free t0 h1 = Ok (t1, h1) /\
      isStaticSized t1 = true /\ isAlloced t1 = false /\ size t1 = 0 /\
      h1 !! 1 = Some [5%Q; 0%Q] /\
      alloc None [0] t1 h1 = Ok (t2, h2) /\
      isAlloced t2 = true /\ size t2 = 2 /\
      h2 !! 1 = Some [0%Q; 0%Q]) /\
  MatrixVectorHpp.isAlloc (MatrixVectorHpp.Dynamic 3 32 (Addr 5)) = true /\
  MatrixVectorHpp.alloc 8 (Some (6, fun _ => 9%Q)) 5
                        (MatrixVectorHpp.Dynamic 3 32 (Addr 5))
                        {[5 := [1%Q; 2%Q; 3%Q]]}
    = Some (true, MatrixVectorHpp.Dynamic 5 48 (Addr 6),
            {[6 := [9%Q; 9%Q; 9%Q; 9%Q; 9%Q]]}).
Proof.
  split; [|split; reflexivity].
  eexists _, _, _, _, _, _. repeat split; reflexivity.
Qed.

End allocate_again.

Section release.
Import TensorHpp.
Implicit Types (t : Tensor) (h : heap) (l : loc).

(** [free] of an allocated dynamic container releases the block and resets
    [data] and [_size]; the member [dataHolder.heapData] keeps the address
    of the released block. *)
Lemma free_dynamic t h sh l b :
  holds t h sh l b -> isStaticSized t = false ->
  free t h = Ok (mkTensor (dims t) (self t) (Addr l) Null 0
                          (Some (replicate (_nDims t) 0)),
                 delete l h).
Proof.
  intros (_ & _ & _ & _ & Hl & _ & Hm) Hs. rewrite Hs in Hm.
  unfold free. rewrite Hs, Hm. simpl. by rewrite Hl.
Qed.

(** The allocation round trip [alloc (n); free (); alloc (m)] on a dynamic
    container that starts unallocated. *)
Lemma alloc_free_alloc t h shn shm ln rawn lm rawm :
  isAlloced t = false -> isStaticSized t = false ->
  length shn = _nDims t -> length shm = _nDims t ->
  exists t1 h1 t2 h2 t3 h3,
    alloc (Some (ln, rawn)) shn t h = Ok (t1, h1) /\
    free t1 h1 = Ok (t2, h2) /\
    data t2 = Null /\ size t2 = 0 /\
    alloc (Some (lm, rawm)) shm t2 h2 = Ok (t3, h3) /\
    size t3 = product shm /\
    elements t3 h3 = Some (replicate (product shm) 0%Q).
Proof.
  intros Ha Hs Hn Hm.
  destruct (alloc_dynamic t shn ln rawn h Ha Hs Hn) as (t1 & H1 & Hh1 & Hd1 & _).
  assert (isStaticSized t1 = false) as Hs1.
  { unfold isStaticSized, _ctSize in *. by rewrite Hd1. }
  pose proof (free_dynamic _ _ _ _ _ Hh1 Hs1) as H2.
  set (t2 := mkTensor (dims t1) (self t1) (Addr ln) Null 0
                      (Some (replicate (_nDims t1) 0))) in *.
  assert (isStaticSized t2 = false) as Hs2 by done.
  assert (length shm = _nDims t2) as Hm2.
  { unfold _nDims in *. simpl. by rewrite Hd1. }
  destruct (alloc_dynamic t2 shm lm rawm (delete ln (<[ln := replicate (product shn) 0%Q]> h))
              eq_refl Hs2 Hm2) as (t3 & H3 & Hh3 & _).
  eexists _, _, _, _, _, _. repeat split; try eassumption; try done.
  - destruct Hh3 as (_ & _ & Hsz & _). done.
  - by eapply holds_elements.
Qed.

(** The same round trip on a container that starts allocated with
    arbitrary contents: the first [alloc] does nothing. *)
Lemma alloc_free_alloc_from_allocated t h sh l b shn shm reply lm rawm :
  holds t h sh l b -> isStaticSized t = false ->
  length shm = _nDims t ->
  exists t2 h2 t3 h3,
    alloc reply shn t h = Ok (t, h) /\
    free t h = Ok (t2, h2) /\
    data t2 = Null /\ size t2 = 0 /\
    alloc (Some (lm, rawm)) shm t2 h2 = Ok (t3, h3) /\
    size t3 = product shm /\
    elements t3 h3 = Some (replicate (product shm) 0%Q).
Proof.
  intros Hh Hs Hm.
  pose proof (free_dynamic _ _ _ _ _ Hh Hs) as H2.
  set (t2 := mkTensor (dims t) (self t) (Addr l) Null 0
                      (Some (replicate (_nDims t) 0))) in *.
  destruct (alloc_dynamic t2 shm lm rawm (delete l h) eq_refl Hs Hm)
    as (t3 & H3 & Hh3 & _).
  eexists _, _, _, _. repeat split; try eassumption; try done.
  - unfold alloc. by rewrite (holds_isAlloced _ _ _ _ _ Hh).
  - destruct Hh3 as (_ & _ & Hsz & _). done.
  - by eapply holds_elements.
Qed.

(** C7, at the failing input.  [Tensor<double, 0> t ({3}); t.free ();
    t.free ();]: the first [free] resets the length to zero and [data] to
    null but leaves [dataHolder.heapData] at the released block, so the
    second [free] hands a dangling pointer to [std::free]: it is no no-op
    but undefined behaviour. *)
Theorem free_of_freed_container_is_undefined :
  exists t h t1 h1,
    ctor_shape (Some (20, fun _ => 7%Q)) [0] 12 (fun _ => 7%Q) [3] ∅
      = Ok (t, h) /\
    elements t h = Some [0%Q; 0%Q; 0%Q] /\
    free t h = Ok (t1, h1) /\
    data t1 = Null /\ size t1 = 0 /\
    heapData t1 = Addr 20 /\ h1 !! 20 = None /\
    free t1 h1 = Undefined.
Proof. eexists _, _, _, _. repeat split; reflexivity. Qed.

End release.

Section allocation_failure.

(** [Tensor::alloc] of an unallocated dynamic container throws
    [std::bad_alloc] when the allocator returns null; [_shape] and
    [_size] have been written by then. *)
Lemma Tensor_alloc_failure_throws t shp h :
  TensorHpp.isAlloced t = false -> TensorHpp.isStaticSized t = false ->
  TensorHpp.alloc None shp t h
    = Throw BadAlloc
            (TensorHpp.mkTensor (TensorHpp.dims t) (TensorHpp.self t)
               (TensorHpp.heapData t) (TensorHpp.data t) (product shp)
               (Some shp), h).
Proof. intros Ha Hs. unfold TensorHpp.alloc. by rewrite Ha, Hs. Qed.

(** C8, at the failing input.  [Vector<0, double> v; v.alloc (4);] with an
    allocator that returns null: [ContiguousStorage<T, 0>::alloc] returns
    [false] after it has set [_len], and [Vector::alloc] drops that
    result.  No error reaches the caller; the vector reports length 4 and
    [isAlloc ()] while its pointer is null, and the sized constructor goes
    on to fill through the null pointer. *)
Theorem Vector_alloc_failure_is_silent :
  MatrixVectorHpp.alloc 8 None 4 (MatrixVectorHpp.Dynamic 0 0 Null) ∅
    = Some (false, MatrixVectorHpp.Dynamic 4 32 Null, ∅) /\
  MatrixVectorHpp.Vector_alloc 8 None 4 (MatrixVectorHpp.Dynamic 0 0 Null) ∅
    = Some (MatrixVectorHpp.Dynamic 4 32 Null, ∅) /\
  MatrixVectorHpp.size (MatrixVectorHpp.Dynamic 4 32 Null) = 4 /\
  MatrixVectorHpp.isAlloc (MatrixVectorHpp.Dynamic 4 32 Null) = true /\
  MatrixVectorHpp.ptr (MatrixVectorHpp.Dynamic 4 32 Null) = Null /\
  MatrixVectorHpp.storage_len 8 None 0 1 4 ∅ = None.
Proof. repeat split; reflexivity. Qed.

End allocation_failure.

(** ** Assignment between containers *)

Section assignment.
Import TensorHpp.
Implicit Types (t this other : Tensor) (h : heap) (l d s : loc).

Lemma differ_same a : differ a a = false.
Proof. induction a as [|x a IH]; simpl; [done|]. by rewrite decide_True. Qed.

Lemma differ_false a1 : forall a2,
  length a1 = length a2 -> differ a1 a2 = false -> a1 = a2.
Proof.
  induction a1 as [|x a1 IH]; intros [|y a2] Hlen Hd; simpl in *;
    try done.
  case_decide; [|done]. subst. f_equal. apply IH; [lia|done].
Qed.

Lemma checkShape_same a : checkShape a a = None.
Proof.
  unfold checkShape. rewrite decide_False by (intros H; by apply H).
  by rewrite differ_same.
Qed.

Lemma checkShape_differ a1 a2 :
  a1 <> a2 ->
  checkShape a1 a2 = Some (DimensionError (length a1) (length a2)) \/
  checkShape a1 a2 = Some (SizeMismatchError a1 a2).
Proof.
  intros Hne. unfold checkShape. case_decide; [by left|right].
  destruct (differ a1 a2) eqn:Hd; [done|].
  exfalso. apply Hne. apply differ_false; [|done].
  destruct (decide (length a1 = length a2)); [done|contradiction].
Qed.

(** [checkShape] returns exactly on equal shapes. *)
Lemma checkShape_None a1 a2 : checkShape a1 a2 = None <-> a1 = a2.
Proof.
  split; [|intros ->; apply checkShape_same].
  intros Hc. destruct (decide (a1 = a2)) as [|Hne]; [done|].
  destruct (checkShape_differ _ _ Hne) as [H|H]; congruence.
Qed.

(** The copy of [other.size ()] elements between two allocated containers
    of one shape. *)
Lemma copy_from_holds this other h sh d bd s bs :
  holds this h sh d bd -> holds other h sh s bs ->
  copy_from this other h = Ok (this, <[d := bs]> h).
Proof.
  intros (_ & _ & Hsz1 & Hd1 & Hl1 & Hlen1 & _)
         (_ & _ & Hsz2 & Hd2 & Hl2 & Hlen2 & _).
  unfold copy_from, ptr, size. rewrite Hd1, Hd2.
  erewrite memcpy_whole; [done|done|done|congruence|congruence].
Qed.

Lemma holds_insert_self t h sh l b b' :
  holds t h sh l b -> length b' = length b -> holds t (<[l := b']> h) sh l b'.
Proof.
  intros (H1 & H2 & H3 & H4 & H5 & H6 & H7) Hlen.
  repeat split; try done; [apply lookup_insert_eq|congruence].
Qed.

Lemma holds_insert_other t h sh l b l' b' :
  holds t h sh l b -> l <> l' -> holds t (<[l' := b']> h) sh l b.
Proof.
  intros (H1 & H2 & H3 & H4 & H5 & H6 & H7) Hne.
  repeat split; try done. by rewrite lookup_insert_ne.
Qed.

Lemma holds_delete_other t h sh l b l' :
  holds t h sh l b -> l <> l' -> holds t (delete l' h) sh l b.
Proof.
  intros (H1 & H2 & H3 & H4 & H5 & H6 & H7) Hne.
  repeat split; try done. by rewrite lookup_delete_ne.
Qed.

(** Writing an element of one container leaves the elements of a
    container with another buffer as they are. *)
Lemma set_elem_other t t' h sh l b sh' l' b' i v h'' :
  holds t h sh l b -> holds t' h sh' l' b' -> l <> l' ->
  set_elem t' i v h = Some h'' -> elements t h'' = Some b.
Proof.
  intros Ht Ht' Hne Hset.
  destruct Ht as (_ & _ & _ & Hd & Hl & Hlen & _).
  destruct Ht' as (_ & _ & _ & Hd' & _).
  unfold set_elem, ptr in Hset. rewrite Hd' in Hset.
  eapply elements_at; [done| |done].
  erewrite store_other; [done|done|congruence].
Qed.

Lemma assign_allocated reply this other h sh d bd s bs :
  holds this h sh d bd -> holds other h sh s bs ->
  assign reply this other h = Ok (this, <[d := bs]> h).
Proof.
  intros Ht Ho. pose proof (copy_from_holds _ _ _ _ _ _ _ _ Ht Ho) as Hc.
  pose proof (holds_isAlloced _ _ _ _ _ Ht) as Ha.
  destruct Ht as (Hs1 & _). destruct Ho as (Hs2 & _).
  unfold assign, assign_same_dims, assign_other_dims, shape.
  rewrite Ha, Hs1, Hs2. simpl. rewrite checkShape_same.
  by case_decide.
Qed.

Lemma assign_mismatch reply this other h sh1 d bd sh2 :
  holds this h sh1 d bd -> shape other = Some sh2 -> sh1 <> sh2 ->
  exists e,
    assign reply this other h = Throw e (this, h) /\
    (e = DimensionError (length sh1) (length sh2) \/
     e = SizeMismatchError sh1 sh2).
Proof.
  intros Ht Hs2 Hne. pose proof (holds_isAlloced _ _ _ _ _ Ht) as Ha.
  destruct Ht as (Hs1 & _). unfold shape in Hs2.
  unfold assign, assign_same_dims, assign_other_dims, shape.
  rewrite Ha, Hs1, Hs2. simpl.
  destruct (checkShape_differ _ _ Hne) as [Hc|Hc]; rewrite Hc;
    eexists; (split; [by case_decide|]); eauto.
Qed.

Lemma assign_unallocated l raw this other h sh s bs :
  isAlloced this = false -> isStaticSized this = false ->
  dims this = dims other ->
  holds other h sh s bs -> h !! l = None ->
  exists this',
    assign (Some (l, raw)) this other h = Ok (this', <[l := bs]> h) /\
    holds this' (<[l := bs]> h) sh l bs /\
    holds other (<[l := bs]> h) sh s bs.
Proof.
  intros Ha Hst Hdims Ho Hfresh.
  assert (s <> l) as Hsl.
  { destruct Ho as (_ & _ & _ & _ & Hl & _). congruence. }
  assert (length sh = _nDims this) as Hlen.
  { destruct Ho as (_ & Hn & _). unfold _nDims in *. congruence. }
  destruct (alloc_dynamic this sh l raw h Ha Hst Hlen) as (t' & Hal & Hh' & _).
  pose proof (holds_insert_other _ _ _ _ _ l (replicate (product sh) 0%Q) Ho Hsl)
    as Ho'.
  pose proof (copy_from_holds _ _ _ _ _ _ _ _ Hh' Ho') as Hc.
  rewrite insert_insert_eq in Hc.
  exists t'. split; [|split].
  - unfold assign, assign_same_dims, shape. rewrite decide_True by done.
    rewrite Ha. destruct Ho as (Hs2 & _). rewrite Hs2. simpl.
    by rewrite Hal.
  - replace (<[l := bs]> h)
      with (<[l := bs]> (<[l := replicate (product sh) 0%Q]> h))
      by apply insert_insert_eq.
    eapply holds_insert_self; [done|].
    destruct Ho as (_ & _ & Hsz & _ & _ & Hb & _).
    rewrite length_replicate. congruence.
  - by apply holds_insert_other.
Qed.

(** C5, as amended.  For [dest = src] between containers:
    - when the destination is allocated and the realized shapes match, the
      elements of [src] are copied into [dest], and writing an element of
      [src] afterwards does not change [dest];
    - when the destination is allocated and the realized shapes differ,
      the assignment throws a dimension or size mismatch and the
      destination and the store are unchanged;
    - when the destination is unallocated and dynamically sized and the
      source has the same template arguments, the assignment first
      allocates the destination with the shape of [src] and then copies. *)
Theorem assignment_between_containers :
  (forall reply this other h sh d bd s bs,
      holds this h sh d bd -> holds other h sh s bs -> d <> s ->
      exists h',
        assign reply this other h = Ok (this, h') /\
        elements this h' = Some bs /\
        elements other h' = Some bs /\
        forall i v h'',
          set_elem other i v h' = Some h'' -> elements this h'' = Some bs) /\
  (forall reply this other h sh1 d bd sh2,
      holds this h sh1 d bd -> shape other = Some sh2 -> sh1 <> sh2 ->
      exists e,
        assign reply this other h = Throw e (this, h) /\
        (e = DimensionError (length sh1) (length sh2) \/
         e = SizeMismatchError sh1 sh2)) /\
  (forall l raw this other h sh s bs,
      isAlloced this = false -> isStaticSized this = false ->
      dims this = dims other ->
      holds other h sh s bs -> h !! l = None ->
      exists this' h',
        assign (Some (l, raw)) this other h = Ok (this', h') /\
        shape this' = Some sh /\
        size this' = size other /\
        ptr this' = Addr l /\
        elements this' h' = Some bs /\
        elements other h' = Some bs /\
        forall i v h'',
          set_elem other i v h' = Some h'' -> elements this' h'' = Some bs).
Proof.
  split; [|split].
  - intros reply this other h sh d bd s bs Ht Ho Hne.
    exists (<[d := bs]> h). split; [by eapply assign_allocated|].
    assert (length bs = length bd) as Hlen.
    { destruct Ht as (_ & _ & H1 & _ & _ & H2 & _).
      destruct Ho as (_ & _ & H3 & _ & _ & H4 & _). congruence. }
    pose proof (holds_insert_self _ _ _ _ _ bs Ht Hlen) as Ht'.
    assert (s <> d) as Hne' by congruence.
    pose proof (holds_insert_other _ _ _ _ _ d bs Ho Hne') as Ho'.
    split; [by eapply holds_elements|].
    split; [by eapply holds_elements|].
    intros i v h'' Hset. by eapply set_elem_other.
  - intros. by eapply assign_mismatch.
  - intros l raw this other h sh s bs Ha Hst Hdims Ho Hfresh.
    destruct (assign_unallocated l raw this other h sh s bs Ha Hst Hdims Ho Hfresh)
      as (t' & Has & Ht' & Ho').
    exists t', (<[l := bs]> h). split; [done|].
    assert (l <> s) as Hne.
    { destruct Ho as (_ & _ & _ & _ & Hl & _). congruence. }
    destruct Ht' as (Hs1 & Hn1 & Hz1 & Hd1 & Hl1 & Hb1 & Hm1).
    split; [done|]. split.
    { destruct Ho as (_ & _ & Hz2 & _). unfold size. congruence. }
    split; [done|].
    assert (holds t' (<[l := bs]> h) sh l bs) as Ht' by done.
    split; [by eapply holds_elements|].
    split; [by eapply holds_elements|].
    intros i v h'' Hset.
    eapply (set_elem_other t' other); [exact Ht'|exact Ho'|exact Hne|exact Hset].
Qed.

End assignment.

Section assignment_examples.
Import TensorHpp.

Lemma assignment_between_containers_witness :
  (exists h',
      assign None (mkTensor [2] 1 Indet (Addr 1) 2 (Some [2]))
             (mkTensor [2] 2 Indet (Addr 2) 2 (Some [2]))
             {[1 := [5%Q; 6%Q]; 2 := [1%Q; 2%Q]]}
        = Ok (mkTensor [2] 1 Indet (Addr 1) 2 (Some [2]), h') /\
      elements (mkTensor [2] 1 Indet (Addr 1) 2 (Some [2])) h'
        = Some [1%Q; 2%Q]) /\
  (exists e,
      assign None (mkTensor [3; 2] 1 Indet (Addr 1) 6 (Some [3; 2]))
             (mkTensor [2; 3] 2 Indet (Addr 2) 6 (Some [2; 3]))
             {[1 := replicate 6 0%Q; 2 := replicate 6 1%Q]}
        = Throw e (mkTensor [3; 2] 1 Indet (Addr 1) 6 (Some [3; 2]),
                   {[1 := replicate 6 0%Q; 2 := replicate 6 1%Q]})) /\
  (exists this' h',
      assign (Some (7, fun _ => 9%Q)) (mkTensor [0] 1 Indet Null 0 None)
             (mkTensor [0] 2 (Addr 9) (Addr 9) 2 (Some [2]))
             {[9 := [1%Q; 2%Q]]}
        = Ok (this', h') /\
      elements this' h' = Some [1%Q; 2%Q]).
Proof.
  destruct assignment_between_containers as (H1 & H2 & H3).
  split; [|split].
  - destruct (H1 None (mkTensor [2] 1 Indet (Addr 1) 2 (Some [2]))
                 (mkTensor [2] 2 Indet (Addr 2) 2 (Some [2]))
                 {[1 := [5%Q; 6%Q]; 2 := [1%Q; 2%Q]]}
                 [2] 1 [5%Q; 6%Q] 2 [1%Q; 2%Q])
      as (h' & Ha & He & _).
    + unfold holds; cbn; repeat split; reflexivity.
    + unfold holds; cbn; repeat split; reflexivity.
    + lia.
    + by exists h'.
  - destruct (H2 None (mkTensor [3; 2] 1 Indet (Addr 1) 6 (Some [3; 2]))
                 (mkTensor [2; 3] 2 Indet (Addr 2) 6 (Some [2; 3]))
                 {[1 := replicate 6 0%Q; 2 := replicate 6 1%Q]}
                 [3; 2] 1 (replicate 6 0%Q) [2; 3])
      as (e & Ha & _).
    + unfold holds; cbn; repeat split; reflexivity.
    + reflexivity.
    + discriminate.
    + by exists e.
  - destruct (H3 7 (fun _ => 9%Q) (mkTensor [0] 1 Indet Null 0 None)
                 (mkTensor [0] 2 (Addr 9) (Addr 9) 2 (Some [2]))
                 {[9 := [1%Q; 2%Q]]} [2] 9 [1%Q; 2%Q])
      as (t' & h' & Ha & _ & _ & _ & He & _).
    + reflexivity.
    + reflexivity.
    + reflexivity.
    + unfold holds; cbn; repeat split; reflexivity.
    + reflexivity.
    + by exists t', h'.
Defined.

(** C5, the claim as stated fails.
    - On the template [operator=], the one chosen for a source with other
      template arguments, there is no allocating branch.  The destination
      [Tensor<double, 0>] is dynamically sized and unallocated (built with
      shape [{2}] and freed, or default constructed); the source is an
      allocated [Tensor<double, 3>].  The assignment does not allocate and
      does not copy: it throws the size mismatch of [checkShape] on the freed
      destination, and reads the uninitialised [_shape] of the
      default-constructed one.
    - On the non-template [operator=] the allocating branch is taken by
      every unallocated destination, also a fixed-size one: a freed
      [Tensor<double, 2>] has the realized shape [{0}], the source has
      [{2}]; the assignment does not fail but re-establishes the
      destination and copies. *)
Lemma assign_to_unallocated_destination :
  (exists src h0 d1 h1 d2 h2 d3,
      ctor_default [3] 2 (fun _ => 7%Q) ∅ = Ok (src, h0) /\
      ctor_shape (Some (9, fun _ => 7%Q)) [0] 1 (fun _ => 7%Q) [2] h0
        = Ok (d1, h1) /\
      free d1 h1 = Ok (d2, h2) /\
      isAlloced d2 = false /\ isStaticSized d2 = false /\
      assign (Some (8, fun _ => 7%Q)) d2 src h2
        = Throw (SizeMismatchError [0] [3]) (d2, h2) /\
      ctor_default [0] 3 (fun _ => 7%Q) h0 = Ok (d3, h0) /\
      isAlloced d3 = false /\ isStaticSized d3 = false /\
      assign (Some (8, fun _ => 7%Q)) d3 src h0 = Undefined) /\
  (exists src h0 h1 d1 h2 d2 d3 h3,
      ctor_default [2] 2 (fun _ => 7%Q) ∅ = Ok (src, h0) /\
      set_elem src 0 5%Q h0 = Some h1 /\
      ctor_default [2] 1 (fun _ => 7%Q) h1 = Ok (d1, h2) /\
      free d1 h2 = Ok (d2, h2) /\
      isAlloced d2 = false /\
      shape d2 = Some [0] /\ shape src = Some [2] /\
      assign None d2 src h2 = Ok (d3, h3) /\
      isAlloced d3 = true /\ shape d3 = Some [2] /\
      elements d3 h3 = Some [5%Q; 0%Q]).
Proof.
  split.
  - eexists _, _, _, _, _, _, _. repeat split; reflexivity.
  - eexists _, _, _, _, _, _, _, _. repeat split; reflexivity.
Qed.

End assignment_examples.

(** ** Copy and move *)

Section ownership.
Import TensorHpp.
Implicit Types (t this other : Tensor) (h : heap) (l d s : loc).

Lemma holds_agree t h h' sh l b :
  holds t h sh l b -> h' !! l = h !! l -> holds t h' sh l b.
Proof.
  intros (H1 & H2 & H3 & H4 & H5 & H6 & H7) Hag.
  repeat split; try done. congruence.
Qed.

Lemma holds_static t h sh l b :
  holds t h sh l b -> isStaticSized t = true ->
  l = self t /\ sh = dims t /\ length b = _ctSize t /\ 0 < product (dims t).
Proof.
  intros (_ & _ & Hsz & _ & _ & Hlen & Hm) Hs. rewrite Hs in Hm.
  destruct Hm as [-> ->]. repeat split; [unfold _ctSize; congruence|].
  unfold isStaticSized, _ctSize in Hs. by apply bool_decide_eq_true in Hs.
Qed.

Lemma assign_same_dims_allocated reply this other h sh d bd s bs :
  holds this h sh d bd -> holds other h sh s bs ->
  assign_same_dims reply this other h = Ok (this, <[d := bs]> h).
Proof.
  intros Ht Ho. pose proof (copy_from_holds _ _ _ _ _ _ _ _ Ht Ho) as Hc.
  pose proof (holds_isAlloced _ _ _ _ _ Ht) as Ha.
  destruct Ht as (Hs1 & _). destruct Ho as (Hs2 & _).
  unfold assign_same_dims, shape. rewrite Ha, Hs1, Hs2. simpl.
  by rewrite checkShape_same.
Qed.

(** The copy constructor builds an allocated container with a buffer of
    its own that holds the elements of the source. *)
Lemma ctor_copy_holds l raw at_ raw' other h sh s bs :
  holds other h sh s bs -> h !! at_ = None -> h !! l = None ->
  exists t h' d,
    ctor_copy (Some (l, raw)) at_ raw' other h = Ok (t, h') /\
    holds t h' sh d bs /\ holds other h' sh s bs /\ d <> s.
Proof.
  intros Ho Hat Hl.
  assert (s <> at_ /\ s <> l) as [Hsat Hsl].
  { destruct Ho as (_ & _ & _ & _ & Hs & _). split; congruence. }
  assert (shape other = Some sh) as Hsh by (by destruct Ho).
  assert (length sh = length (dims other)) as Hnd by (by destruct Ho as (_ & ? & _)).
  assert (length bs = product sh) as Hbs.
  { destruct Ho as (_ & _ & ? & _ & _ & ? & _). congruence. }
  unfold ctor_copy. rewrite Hsh.
  destruct (isStaticSized other) eqn:Hst.
  - destruct (holds_static _ _ _ _ _ Ho Hst) as (_ & -> & _ & Hpos).
    destruct (ctor_default_static (dims other) at_ raw' h Hpos)
      as (t0 & h1 & Hc & Ht0 & Hag).
    rewrite Hc. simpl.
    assert (holds other h1 (dims other) s bs) as Ho1.
    { eapply holds_agree; [done|]. by apply Hag. }
    unfold alloc. rewrite (holds_isAlloced _ _ _ _ _ Ht0).
    erewrite assign_same_dims_allocated; [|done|done].
    eexists _, _, at_. split; [reflexivity|].
    split; [|split; [|done]].
    + eapply holds_insert_self; [done|]. by rewrite length_replicate.
    + by apply holds_insert_other.
  - unfold ctor_default.
    change (isStaticSized (mkTensor (dims other) at_ Indet Null 0 None))
      with (isStaticSized other).
    rewrite Hst. simpl.
    destruct (alloc_dynamic (mkTensor (dims other) at_ Indet Null 0 None)
                sh l raw h eq_refl Hst Hnd) as (t1 & Hal & Ht1 & _).
    rewrite Hal.
    assert (holds other (<[l := replicate (product sh) 0%Q]> h) sh s bs) as Ho1.
    { by apply holds_insert_other. }
    erewrite assign_same_dims_allocated; [|done|done].
    rewrite insert_insert_eq.
    eexists _, _, l. split; [reflexivity|].
    split; [|split; [|done]].
    + replace (<[l := bs]> h)
        with (<[l := bs]> (<[l := replicate (product sh) 0%Q]> h))
        by apply insert_insert_eq.
      eapply holds_insert_self; [done|]. by rewrite length_replicate.
    + by apply holds_insert_other.
Qed.

(** The moved-from object. *)
Lemma emptied_is_empty other hd :
  size (emptied other hd) = 0 /\ isAlloced (emptied other hd) = false.
Proof. done. Qed.

Lemma ctor_move_holds at_ raw other h sh s bs :
  holds other h sh s bs -> h !! at_ = None ->
  exists t other' h' d,
    ctor_move at_ raw other h = Ok (t, other', h') /\
    holds t h' sh d bs /\
    (isStaticSized other = false ->
     d = s /\ h' = h /\ heapData other' = Null) /\
    (isStaticSized other = true -> d = at_ /\ h' !! s = Some bs) /\
    size other' = 0 /\ isAlloced other' = false.
Proof.
  intros Ho Hat.
  assert (s <> at_) as Hsat.
  { destruct Ho as (_ & _ & _ & _ & Hs & _). congruence. }
  unfold ctor_move. destruct (isStaticSized other) eqn:Hst.
  - destruct (holds_static _ _ _ _ _ Ho Hst) as (-> & -> & Hlen & Hpos).
    destruct Ho as (Hs1 & Hs2 & Hs3 & Hs4 & Hs5 & Hs6 & Hs7).
    erewrite memcpy_whole;
      [|apply lookup_insert_eq|by rewrite lookup_insert_ne
       |by rewrite length_map, length_seq|done].
    simpl. rewrite insert_insert_eq.
    eexists _, _, _, at_. split; [reflexivity|].
    split; [|split; [done|split; [|done]]].
    + unfold holds, isStaticSized, _ctSize, _nDims in *. simpl.
      rewrite Hst, lookup_insert_eq. done.
    + intros _. split; [done|]. by rewrite lookup_insert_ne.
  - eexists _, _, _, s. split; [reflexivity|].
    split; [|split; [done|split; [done|done]]].
    destruct Ho as (Hs1 & Hs2 & Hs3 & Hs4 & Hs5 & Hs6 & Hs7).
    unfold holds, isStaticSized, _ctSize, _nDims in *. simpl.
    rewrite Hst in *. done.
Qed.

Lemma assign_move_holds this other h sh1 d bd sh s bs :
  holds this h sh1 d bd -> holds other h sh s bs ->
  dims this = dims other -> self this <> self other -> d <> s ->
  exists t other' h' d',
    assign_move this other h = Ok (t, other', h') /\
    holds t h' sh d' bs /\
    (isStaticSized other = false ->
     d' = s /\ h' = delete d h /\ heapData other' = Null) /\
    (isStaticSized other = true -> d' = d /\ h' !! s = Some bs) /\
    size other' = 0 /\ isAlloced other' = false.
Proof.
  intros Ht Ho Hdims Hself Hds.
  assert (isStaticSized this = isStaticSized other) as Hsame.
  { unfold isStaticSized, _ctSize. by rewrite Hdims. }
  unfold assign_move. rewrite decide_False by done.
  destruct (isStaticSized other) eqn:Hst.
  - destruct (holds_static _ _ _ _ _ Ho Hst) as (-> & -> & Hlen & Hpos).
    destruct (holds_static _ _ _ _ _ Ht Hsame) as (-> & -> & Hlen1 & _).
    unfold free. rewrite Hsame.
    destruct Ho as (Hs1 & Hs2 & Hs3 & Hs4 & Hs5 & Hs6 & Hs7).
    destruct Ht as (Ht1 & Ht2 & Ht3 & Ht4 & Ht5 & Ht6 & Ht7).
    erewrite memcpy_whole; [|done|done|done|].
    2:{ unfold _ctSize in *. congruence. }
    simpl. eexists _, _, _, (self this). split; [reflexivity|].
    split; [|split; [done|split; [|done]]].
    + unfold holds, isStaticSized, _ctSize, _nDims in *. simpl.
      rewrite Hsame, lookup_insert_eq. rewrite Hdims in *. done.
    + intros _. split; [done|]. by rewrite lookup_insert_ne.
  - erewrite free_dynamic; [|done|done]. rewrite Hsame.
    eexists _, _, _, s. split; [reflexivity|].
    split; [|split; [done|split; [done|done]]].
    destruct Ho as (Hs1 & Hs2 & Hs3 & Hs4 & Hs5 & Hs6 & Hs7).
    unfold holds, isStaticSized, _ctSize, _nDims in *. simpl.
    rewrite Hst in Hs7. rewrite Hs7, Hdims, Hst.
    rewrite lookup_delete_ne by done. done.
Qed.

End ownership.

Section ownership_claim.
Import TensorHpp.

(** C9, where it holds: between allocated containers.  Copy construction
    duplicates the buffer: the copy holds the elements of the original in a
    buffer of its own, and writing an element of either leaves the other
    unchanged.  Move construction, and move assignment into an allocated
    destination (between two distinct objects of one type), hand the heap
    buffer of a dynamic source over to the destination, or copy the inline
    data of a fixed-size source, and leave the source empty: its [size ()]
    is 0, [isAlloced ()] is false and the heap pointer of a dynamic source
    is null. *)
Lemma copy_and_move_ownership :
  (forall l raw at_ raw' other h sh s bs,
      holds other h sh s bs -> h !! at_ = None -> h !! l = None ->
      exists t h',
        ctor_copy (Some (l, raw)) at_ raw' other h = Ok (t, h') /\
        elements t h' = Some bs /\
        elements other h' = Some bs /\
        ptr t <> ptr other /\
        (forall i v h'',
            set_elem other i v h' = Some h'' -> elements t h'' = Some bs) /\
        (forall i v h'',
            set_elem t i v h' = Some h'' -> elements other h'' = Some bs)) /\
  (forall at_ raw other h sh s bs,
      holds other h sh s bs -> h !! at_ = None ->
      exists t other' h',
        ctor_move at_ raw other h = Ok (t, other', h') /\
        elements t h' = Some bs /\
        (isStaticSized other = false ->
         ptr t = ptr other /\ h' = h /\ heapData other' = Null) /\
        (isStaticSized other = true ->
         ptr t = Addr at_ /\ block_of (ptr other) h' = Some bs) /\
        size other' = 0 /\ isAlloced other' = false) /\
  (forall this other h sh1 d bd sh s bs,
      holds this h sh1 d bd -> holds other h sh s bs ->
      dims this = dims other -> self this <> self other -> d <> s ->
      exists t other' h',
        assign_move this other h = Ok (t, other', h') /\
        elements t h' = Some bs /\
        (isStaticSized other = false ->
         ptr t = ptr other /\ h' = delete d h /\ heapData other' = Null) /\
        (isStaticSized other = true ->
         ptr t = ptr this /\ block_of (ptr other) h' = Some bs) /\
        size other' = 0 /\ isAlloced other' = false).
Proof.
  split; [|split].
  - intros l raw at_ raw' other h sh s bs Ho Hat Hl.
    destruct (ctor_copy_holds l raw at_ raw' other h sh s bs Ho Hat Hl)
      as (t & h' & d & Hc & Ht & Ho' & Hne).
    exists t, h'. split; [done|].
    split; [by eapply holds_elements|].
    split; [by eapply holds_elements|].
    split.
    { destruct Ht as (_ & _ & _ & Hd & _). destruct Ho' as (_ & _ & _ & Hd' & _).
      unfold ptr. rewrite Hd, Hd'. congruence. }
    split; intros i v h'' Hset.
    + eapply (set_elem_other t other); [exact Ht|exact Ho'|exact Hne|exact Hset].
    + eapply (set_elem_other other t); [exact Ho'|exact Ht| |exact Hset].
      congruence.
  - intros at_ raw other h sh s bs Ho Hat.
    destruct (ctor_move_holds at_ raw other h sh s bs Ho Hat)
      as (t & other' & h' & d & Hc & Ht & Hdyn & Hsta & Hsz & Hal).
    exists t, other', h'. split; [done|].
    split; [by eapply holds_elements|].
    assert (ptr other = Addr s) as Hp by (by destruct Ho as (_ & _ & _ & ? & _)).
    assert (ptr t = Addr d) as Hpt by (by destruct Ht as (_ & _ & _ & ? & _)).
    split; [|split; [|done]].
    + intros Hst. destruct (Hdyn Hst) as (-> & -> & Hnull). by rewrite Hp.
    + intros Hst. destruct (Hsta Hst) as (-> & Hb). by rewrite Hp.
  - intros this other h sh1 d bd sh s bs Ht Ho Hdims Hself Hds.
    destruct (assign_move_holds this other h sh1 d bd sh s bs Ht Ho Hdims Hself Hds)
      as (t & other' & h' & d' & Hc & Ht' & Hdyn & Hsta & Hsz & Hal).
    exists t, other', h'. split; [done|].
    split; [by eapply holds_elements|].
    assert (ptr other = Addr s) as Hp by (by destruct Ho as (_ & _ & _ & ? & _)).
    assert (ptr this = Addr d) as Hpd by (by destruct Ht as (_ & _ & _ & ? & _)).
    assert (ptr t = Addr d') as Hpt by (by destruct Ht' as (_ & _ & _ & ? & _)).
    split; [|split; [|done]].
    + intros Hst. destruct (Hdyn Hst) as (-> & -> & Hnull). by rewrite Hp.
    + intros Hst. destruct (Hsta Hst) as (-> & Hb). by rewrite Hp, Hpd.
Qed.

Lemma copy_and_move_ownership_witness :
  (exists t h',
      ctor_copy (Some (7, fun _ => 9%Q)) 3 (fun _ => 9%Q)
                (mkTensor [0] 2 (Addr 5) (Addr 5) 2 (Some [2]))
                {[5 := [1%Q; 2%Q]]}
        = Ok (t, h') /\
      elements t h' = Some [1%Q; 2%Q]) /\
  (exists t other' h',
      ctor_move 3 (fun _ => 9%Q)
                (mkTensor [0] 2 (Addr 5) (Addr 5) 2 (Some [2]))
                {[5 := [1%Q; 2%Q]]}
        = Ok (t, other', h') /\
      elements t h' = Some [1%Q; 2%Q] /\
      size other' = 0 /\ isAlloced other' = false) /\
  (exists t other' h',
      assign_move (mkTensor [2] 1 Indet (Addr 1) 2 (Some [2]))
                  (mkTensor [2] 2 Indet (Addr 2) 2 (Some [2]))
                  {[1 := [5%Q; 6%Q]; 2 := [1%Q; 2%Q]]}
        = Ok (t, other', h') /\
      elements t h' = Some [1%Q; 2%Q] /\
      size other' = 0 /\ isAlloced other' = false).
Proof.
  destruct copy_and_move_ownership as (H1 & H2 & H3).
  split; [|split].
  - destruct (H1 7 (fun _ => 9%Q) 3 (fun _ => 9%Q)
                 (mkTensor [0] 2 (Addr 5) (Addr 5) 2 (Some [2]))
                 {[5 := [1%Q; 2%Q]]} [2] 5 [1%Q; 2%Q])
      as (t & h' & Hc & He & _).
    + unfold holds; cbn; repeat split; reflexivity.
    + reflexivity.
    + reflexivity.
    + by exists t, h'.
  - destruct (H2 3 (fun _ => 9%Q)
                 (mkTensor [0] 2 (Addr 5) (Addr 5) 2 (Some [2]))
                 {[5 := [1%Q; 2%Q]]} [2] 5 [1%Q; 2%Q])
      as (t & o' & h' & Hc & He & _ & _ & Hs & Ha).
    + unfold holds; cbn; repeat split; reflexivity.
    + reflexivity.
    + by exists t, o', h'.
  - destruct (H3 (mkTensor [2] 1 Indet (Addr 1) 2 (Some [2]))
                 (mkTensor [2] 2 Indet (Addr 2) 2 (Some [2]))
                 {[1 := [5%Q; 6%Q]; 2 := [1%Q; 2%Q]]}
                 [2] 1 [5%Q; 6%Q] [2] 2 [1%Q; 2%Q])
      as (t & o' & h' & Hc & He & _ & _ & Hs & Ha).
    + unfold holds; cbn; repeat split; reflexivity.
    + unfold holds; cbn; repeat split; reflexivity.
    + reflexivity.
    + cbn; lia.
    + lia.
    + by exists t, o', h'.
Defined.

(** C9, at the failing input.
    [Tensor<double, 0, 0> t; t = Tensor<double, 0, 0> (s1);] with
    [s1 = {2, 2}], the opening of the repository's test
    [test_free_and_reuse]: the default constructor of a dynamic container
    leaves [dataHolder.heapData] uninitialised, and move assignment starts
    with [free ()], which hands that pointer to [std::free]: the behaviour
    is undefined, and no buffer is handed over.  The test goes on with
    [t.free (); t = Tensor<double, 0, 0> (s2);], [s2 = {3, 1}]: after
    [free ()] the destination's [heapData] still points to the released
    block (the defect of C7), and the move assignment releases it a second
    time. *)
Theorem move_assign_into_unallocated_is_undefined :
  (exists t tmp h,
      ctor_default [0; 0] 1 (fun _ => 7%Q) ∅ = Ok (t, ∅) /\
      isAlloced t = false /\ heapData t = Indet /\
      ctor_shape (Some (20, fun _ => 7%Q)) [0; 0] 2 (fun _ => 7%Q) [2; 2] ∅
        = Ok (tmp, h) /\
      elements tmp h = Some [0%Q; 0%Q; 0%Q; 0%Q] /\
      assign_move t tmp h = Undefined) /\
  (exists t h t1 h1 tmp h2,
      ctor_shape (Some (20, fun _ => 7%Q)) [0; 0] 1 (fun _ => 7%Q) [2; 2] ∅
        = Ok (t, h) /\
      free t h = Ok (t1, h1) /\
      isAlloced t1 = false /\ heapData t1 = Addr 20 /\ h1 !! 20 = None /\
      ctor_shape (Some (21, fun _ => 7%Q)) [0; 0] 2 (fun _ => 7%Q) [3; 1] h1
        = Ok (tmp, h2) /\
      elements tmp h2 = Some [0%Q; 0%Q; 0%Q] /\
      assign_move t1 tmp h2 = Undefined).
Proof.
  split.
  - eexists _, _, _. repeat split; reflexivity.
  - eexists _, _, _, _, _, _. repeat split; reflexivity.
Qed.

End ownership_claim.

(** ** Arithmetic: the operators at concrete inputs *)

Section operators_Tensor.
Import TensorHpp.
Local Open Scope Q_scope.

(** C2, at the failing input.  For [Vector<2, double> a = {1, 2}] the
    expression [5.0 - a] resolves to the by-value operator
    [operator- (const T& b, const Vector<sz, T>& a)], which copies [a] and
    runs [c -= b]: its value is [a[i] - 5 = {-4, -3}], the same as
    [a - 5.0], and not [5 - a[i] = {4, 3}]; assigning it to a destination
    moves these elements in.  Likewise [5.0 / a] is [a[i] / 5 = {1/5, 2/5}]
    and not [{5, 5/2}].  The descriptor route ([STOP] tagged SubLeft or
    DivLeft, taken for a plain [Tensor] operand) gives [{4, 3}] and
    [{5, 5/2}]. *)
Theorem scalar_minus_Vector_is_reversed :
  let a := mkTensor [2%nat] 10%nat Indet (Addr 10%nat) 2 (Some [2%nat]) in
  let h : heap := {[10%nat := [1; 2]]} in
  let dest := mkTensor [2%nat] 12%nat Indet (Addr 12%nat) 2 (Some [2%nat]) in
  elements_after (scalar_minus_Vector Double None 11%nat (fun _ => 7) 5 a h)
    = Some [-4; -3] /\
  elements_after (Vector_minus_scalar Double None 11%nat (fun _ => 7) a 5 h)
    = Some [-4; -3] /\
  (exists c h1 dest' c' h2,
      scalar_minus_Vector Double None 11%nat (fun _ => 7) 5 a
                          (<[12%nat := [0; 0]]> h) = Ok (c, h1) /\
      assign_move dest c h1 = Ok (dest', c', h2) /\
      elements dest' h2 = Some [-4; -3]) /\
  elements_after (scalar_over_Vector None 11%nat (fun _ => 7) 5 a h)
    = Some [1 # 5; 2 # 5] /\
  option_map elements_after
    (compound_STOP Double None Assign dest (scalar_minus 5 a)
                   (<[12%nat := [0; 0]]> h))
    = Some (Some [4; 3]) /\
  option_map elements_after
    (compound_STOP Double None Assign dest (scalar_over 5 a)
                   (<[12%nat := [0; 0]]> h))
    = Some (Some [5; 5 # 2]).
Proof. repeat split; try reflexivity. eexists _, _, _, _, _. repeat split; reflexivity. Qed.

(** C3, at the failing input.  For an element type other than [double]
    and [float], [dest -= other] and [dest -= scalar] run the generic
    branch, which calls [add]: with [dest = {5, 7}], [other = {1, 2}] the
    result is [{6, 9}], not [{4, 5}], and [dest -= 3] gives [{8, 10}], not
    [{2, 4}].  The [double] and [float] branches subtract. *)
Theorem generic_sub_assign_adds :
  let dest := mkTensor [2%nat] 12%nat Indet (Addr 12%nat) 2 (Some [2%nat]) in
  let other := mkTensor [2%nat] 10%nat Indet (Addr 10%nat) 2 (Some [2%nat]) in
  let h : heap := {[10%nat := [1; 2]; 12%nat := [5; 7]]} in
  elements_after (sub_assign Generic dest other h) = Some [6; 9] /\
  elements_after (sub_assign_scalar Generic dest 3 h) = Some [8; 10] /\
  elements_after (sub_assign Double dest other h) = Some [4; 5] /\
  elements_after (sub_assign_scalar Double dest 3 h) = Some [2; 4] /\
  elements_after (sub_assign Float dest other h) = Some [4; 5] /\
  elements_after (sub_assign_scalar Float dest 3 h) = Some [2; 4].
Proof. repeat split; reflexivity. Qed.

(** Concrete scenario B: with every element of [b] preset to 1 and every
    element of [a] equal to 2, [b += a * 4.0] gives 9 at every index,
    through the accelerated and through the generic kernel. *)
Lemma scenario_B :
  let a := mkTensor [2%nat; 2%nat] 10%nat Indet (Addr 10%nat) 4
                    (Some [2%nat; 2%nat]) in
  let b := mkTensor [2%nat; 2%nat] 12%nat Indet (Addr 12%nat) 4
                    (Some [2%nat; 2%nat]) in
  let h : heap := {[10%nat := [2; 2; 2; 2]; 12%nat := [1; 1; 1; 1]]} in
  option_map elements_after
    (compound_STOP Double None Add b (times_scalar a 4) h)
    = Some (Some [9; 9; 9; 9]) /\
  option_map elements_after
    (compound_STOP Generic None Add b (times_scalar a 4) h)
    = Some (Some [9; 9; 9; 9]).
Proof. split; reflexivity. Qed.

(** Concrete scenario A: the descriptor [STOP {a, 3.0, Mul}] with
    [a[i] = 2] assigned into [b] gives 6 at every index. *)
Lemma scenario_A :
  let a := mkTensor [4%nat] 10%nat Indet (Addr 10%nat) 4 (Some [4%nat]) in
  let b := mkTensor [4%nat] 12%nat Indet (Addr 12%nat) 4 (Some [4%nat]) in
  let h : heap := {[10%nat := [2; 2; 2; 2]; 12%nat := [0; 0; 0; 0]]} in
  option_map elements_after
    (compound_STOP Double None Assign b (times_scalar a 3) h)
    = Some (Some [6; 6; 6; 6]).
Proof. reflexivity. Qed.

End operators_Tensor.

Section operators_Vector.
Import MatrixVectorHpp.
Local Open Scope Q_scope.

(** C4, at the failing input.  In MatrixVector.hpp
    [Vector::operator+= (const Vector<sa, T>&)] calls [add] without
    [_LINALG_SELFVEC_SIZECHECK]: with a destination of size 2 and a source
    of size 3 no error is raised and the destination is overwritten; with
    a destination of size 3 and a source of size 2 the loop reads past the
    end of the source.  [operator-=] on the same operands does throw the
    size error, the store untouched. *)
Theorem Vector_add_assign_has_no_size_check :
  let small := Dynamic 2 16 (Addr 1%nat) in
  let large := Dynamic 3 32 (Addr 2%nat) in
  let h : heap := {[1%nat := [1; 2]; 2%nat := [10; 20; 30]]} in
  size small <> size large /\
  add_assign small large h
    = Ok ({[1%nat := [11; 22]; 2%nat := [10; 20; 30]]} : heap) /\
  add_assign large small h = Undefined /\
  sub_assign small large h = Throw LinalgSizeError h /\
  sub_assign large small h = Throw LinalgSizeError h.
Proof. repeat split; try reflexivity. cbn. lia. Qed.

(** C1, at the failing input.  For an element type other than [double]
    and [float], [dest *= (a - b)] on vectors selects the generic
    [VVOPImpl<T, sa, sb, Sub, Mul>], whose body uses [exp.rhs] where the
    other kernels use [exp.rhs[i]] and cannot be instantiated: there is no
    fused result.  The materialized computation gives
    [dest[i] * (a[i] - b[i]) = 2 * (5 - 3) = 4], and so does the [double]
    specialisation of the same kernel. *)
Theorem generic_VVOP_Sub_Mul_has_no_kernel :
  let dest := Dynamic 1 16 (Addr 1%nat) in
  let a := Dynamic 1 16 (Addr 2%nat) in
  let b := Dynamic 1 16 (Addr 3%nat) in
  let h : heap := {[1%nat := [2]; 2%nat := [5]; 3%nat := [3]]} in
  make_VVOP Sub a b = inr (mkVVOP a b Sub) /\
  compound_VVOP Generic Mul dest (mkVVOP a b Sub) h = None /\
  option_map (elements_after dest)
    (compound_VVOP Double Mul dest (mkVVOP a b Sub) h) = Some (Some [4]) /\
  option_map (elements_after dest)
    (compound_VVOP Float Mul dest (mkVVOP a b Sub) h) = Some (Some [4]).
Proof. repeat split; reflexivity. Qed.

End operators_Vector.

(** ** The loops of the kernels *)

Section loops.
Implicit Types (h : heap) (d v : loc) (b : list Q).

Lemma for_from_snoc body : forall n i h,
  for_from i (S n) body h
  = match for_from i n body h with
    | Some h' => body (i + n) h'
    | None => None
    end.
Proof.
  induction n as [|n IH]; intros i h.
  - simpl. rewrite Nat.add_0_r. by destruct (body i h).
  - change (for_from i (S (S n)) body h)
      with (match body i h with
            | Some h' => for_from (S i) (S n) body h'
            | None => None
            end).
    destruct (body i h) as [h1|] eqn:Hb.
    + rewrite IH. simpl. rewrite Hb.
      replace (i + S n) with (S (i + n)) by lia. done.
    + simpl. by rewrite Hb.
Qed.

Lemma for_loop_zip d (f : Q -> Q -> Q) body h bd ys : forall n,
  (forall i b x y,
      length b = length bd -> b !! i = Some x -> ys !! i = Some y ->
      body i (<[d := b]> h) = Some (<[d := <[i := f x y]> b]> h)) ->
  n <= length bd -> n <= length ys ->
  for_loop n body (<[d := bd]> h)
  = Some (<[d := zip_with f (take n bd) (take n ys) ++ drop n bd]> h).
Proof.
  intros n Hbody. unfold for_loop. induction n as [|n IH]; intros Hn Hy.
  - simpl. by rewrite drop_0.
  - rewrite for_from_snoc, IH by lia. simpl.
    destruct (lookup_lt_is_Some_2 bd n) as [x Hx]; [lia|].
    destruct (lookup_lt_is_Some_2 ys n) as [y Hy']; [lia|].
    assert (length (zip_with f (take n bd) (take n ys)) = n) as Hlen.
    { rewrite length_zip_with, !length_take. lia. }
    erewrite Hbody; [| |..].
    2:{ rewrite length_app, Hlen, length_drop. lia. }
    2:{ rewrite lookup_app_r by lia. rewrite Hlen, Nat.sub_diag.
        rewrite lookup_drop, Nat.add_0_r. exact Hx. }
    2:{ exact Hy'. }
    f_equal. f_equal.
    rewrite (take_S_r bd n x Hx), (take_S_r ys n y Hy').
    rewrite zip_with_app by (rewrite !length_take; lia).
    rewrite insert_app_r_alt by lia. rewrite Hlen, Nat.sub_diag.
    rewrite (drop_S bd x n Hx). simpl. by rewrite <- app_assoc.
Qed.

(** A loop over the whole destination block. *)
Lemma for_loop_whole d (f : Q -> Q -> Q) body h bd ys n :
  h !! d = Some bd -> length bd = n -> length ys = n ->
  (forall i b x y,
      length b = length bd -> b !! i = Some x -> ys !! i = Some y ->
      body i (<[d := b]> h) = Some (<[d := <[i := f x y]> b]> h)) ->
  for_loop n body h = Some (<[d := zip_with f bd ys]> h).
Proof.
  intros Hd Hn Hy Hbody.
  rewrite <- (insert_id h d bd Hd) at 1.
  erewrite for_loop_zip; [|exact Hbody|lia|lia].
  rewrite !take_ge, drop_ge by lia. by rewrite app_nil_r.
Qed.

Lemma store_insert d i x b h :
  i < length b ->
  store (Addr d) i x (<[d := b]> h) = Some (<[d := <[i := x]> b]> h).
Proof.
  intros Hi. unfold store. rewrite lookup_insert_eq.
  rewrite decide_True by done. by rewrite insert_insert_eq.
Qed.

Lemma elementwise_spec f n d v h bd bv :
  h !! d = Some bd -> h !! v = Some bv -> d <> v ->
  length bd = n -> length bv = n ->
  elementwise f n (Addr d) (Addr v) h = Some (<[d := zip_with f bd bv]> h).
Proof.
  intros Hd Hv Hne Hn Hm. unfold elementwise.
  eapply for_loop_whole; [done|done|done|].
  intros i b x y Hlen Hx Hy. unfold load.
  rewrite lookup_insert_eq, Hx. rewrite lookup_insert_ne by done.
  rewrite Hv, Hy. apply store_insert. by eapply lookup_lt_Some.
Qed.

Lemma elementwise_scalar_spec f n d s h bd :
  h !! d = Some bd -> length bd = n ->
  elementwise_scalar f n (Addr d) s h
  = Some (<[d := zip_with f bd (replicate n s)]> h).
Proof.
  intros Hd Hn. unfold elementwise_scalar.
  eapply for_loop_whole; [done|done|by rewrite length_replicate|].
  intros i b x y Hlen Hx Hy. unfold load.
  rewrite lookup_insert_eq, Hx.
  apply lookup_replicate in Hy as [-> _].
  apply store_insert. by eapply lookup_lt_Some.
Qed.

Lemma cblas_axpy_buffer_spec n alpha d v h bd bv :
  h !! d = Some bd -> h !! v = Some bv -> d <> v ->
  length bd = n -> length bv = n ->
  cblas_axpy n alpha (Buffer (Addr v)) 1 (Addr d) 1 h
  = Some (<[d := zip_with (fun y x => alpha * x + y)%Q bd bv]> h).
Proof.
  intros Hd Hv Hne Hn Hm. unfold cblas_axpy.
  eapply for_loop_whole; [done|done|done|].
  intros i b x y Hlen Hx Hy. rewrite Nat.mul_1_r. unfold read_source, load.
  rewrite lookup_insert_eq, Hx. rewrite lookup_insert_ne by done.
  rewrite Hv, Hy. apply store_insert. by eapply lookup_lt_Some.
Qed.

Lemma cblas_axpy_local_spec n c d h bd :
  h !! d = Some bd -> length bd = n ->
  cblas_axpy n 1 (LocalArray [c]) 0 (Addr d) 1 h
  = Some (<[d := zip_with (fun y x => 1 * x + y)%Q bd (replicate n c)]> h).
Proof.
  intros Hd Hn. unfold cblas_axpy.
  eapply for_loop_whole; [done|done|by rewrite length_replicate|].
  intros i b x y Hlen Hx Hy. rewrite Nat.mul_1_r, Nat.mul_0_r.
  unfold read_source, load. change ([c] !! 0) with (Some c).
  rewrite lookup_insert_eq, Hx.
  apply lookup_replicate in Hy as [-> _].
  apply store_insert. by eapply lookup_lt_Some.
Qed.


End loops.

(** Lists *)
Lemma zip_with_zip_with_same (F G : Q -> Q -> Q) (a : list Q) : forall b : list Q,
  zip_with G (zip_with F a b) b = zip_with (fun x v => G (F x v) v) a b.
Proof. induction a as [|x a IH]; intros [|y b]; simpl; [done..|]. by rewrite IH. Qed.

Lemma zip_with_replicate_r (F : Q -> Q -> Q) (a : list Q) s : forall (b : list Q) n,
  length a = n -> length b = n ->
  zip_with F a (replicate n s) = zip_with (fun x _ => F x s) a b.
Proof.
  induction a as [|x a IH]; intros [|y b] [|n] Ha Hb; simpl in *; try done.
  f_equal. apply IH; lia.
Qed.

Lemma zip_with_snd (a : list Q) : forall b : list Q,
  length a = length b -> zip_with (fun _ v => v) a b = b.
Proof.
  induction a as [|x a IH]; intros [|y b] Hlen; simpl in *; try done.
  f_equal. apply IH. lia.
Qed.

Lemma Forall2_zip_with_same (F G : Q -> Q -> Q) (a : list Q) : forall b : list Q,
  (forall x v, F x v == G x v) ->
  Forall2 Qeq (zip_with F a b) (zip_with G a b).
Proof.
  induction a as [|x a IH]; intros [|y b] H; simpl; constructor; auto.
Qed.


Section routines.
Import TensorHpp.
Local Open Scope Q_scope.

Lemma holds_sizes dest h sh d bd a v bv :
  holds dest h sh d bd -> holds a h sh v bv ->
  ptr dest = Addr d /\ ptr a = Addr v /\ h !! d = Some bd /\ h !! v = Some bv /\
  length bd = size dest /\ length bv = size dest /\ size a = size dest.
Proof.
  intros (_ & _ & Hz1 & Hd1 & Hl1 & Hb1 & _) (_ & _ & Hz2 & Hd2 & Hl2 & Hb2 & _).
  unfold ptr, size. repeat split; congruence.
Qed.

Lemma updates_with_vec (f : Q -> Q -> Q) :
  updates (with_vec (fun a b => elementwise f (size a) (ptr a) (ptr b)))
          (fun _ x v => f x v).
Proof.
  intros dest exp h sh d bd v bv Hd Hv Hne. unfold with_vec.
  destruct (holds_sizes _ _ _ _ _ _ _ _ Hd Hv) as (-> & -> & ? & ? & ? & ? & ?).
  by apply elementwise_spec.
Qed.

Lemma updates_with_scalar (f : Q -> Q -> Q) :
  updates (with_scalar (fun a s => elementwise_scalar f (size a) (ptr a) s))
          (fun s x _ => f x s).
Proof.
  intros dest exp h sh d bd v bv Hd Hv Hne. unfold with_scalar.
  destruct (holds_sizes _ _ _ _ _ _ _ _ Hd Hv) as (-> & _ & ? & ? & ? & ? & ?).
  erewrite elementwise_scalar_spec; [|done|done].
  do 2 f_equal. apply zip_with_replicate_r; congruence.
Qed.

Lemma updates_with_const (f : Q -> Q -> Q) c :
  updates (with_const (fun a s => elementwise_scalar f (size a) (ptr a) s) c)
          (fun _ x _ => f x c).
Proof.
  intros dest exp h sh d bd v bv Hd Hv Hne. unfold with_const.
  destruct (holds_sizes _ _ _ _ _ _ _ _ Hd Hv) as (-> & _ & ? & ? & ? & ? & ?).
  erewrite elementwise_scalar_spec; [|done|done].
  do 2 f_equal. apply zip_with_replicate_r; congruence.
Qed.

Lemma updates_loop f : updates (loop f) f.
Proof.
  intros dest exp h sh d bd v bv Hd Hv Hne. unfold loop.
  destruct (holds_sizes _ _ _ _ _ _ _ _ Hd Hv) as (-> & -> & ? & ? & ? & ? & ->).
  by apply elementwise_spec.
Qed.

Lemma updates_axpy_vec n alpha :
  n = vec_size \/ n = dest_size ->
  updates (axpy_vec n alpha) (fun _ x v => alpha * v + x).
Proof.
  intros Hn dest exp h sh d bd v bv Hd Hv Hne. unfold axpy_vec.
  destruct (holds_sizes _ _ _ _ _ _ _ _ Hd Hv) as (-> & -> & ? & ? & ? & ? & Hs).
  assert (n dest exp = size dest) as ->.
  { destruct Hn as [-> | ->]; unfold vec_size, dest_size; congruence. }
  by apply cblas_axpy_buffer_spec.
Qed.

Lemma updates_axpy_scalar c :
  updates (axpy_scalar c) (fun s x _ => 1 * c s + x).
Proof.
  intros dest exp h sh d bd v bv Hd Hv Hne. unfold axpy_scalar.
  destruct (holds_sizes _ _ _ _ _ _ _ _ Hd Hv) as (-> & _ & ? & ? & ? & ? & ->).
  erewrite cblas_axpy_local_spec; [|done|done].
  do 2 f_equal. apply zip_with_replicate_r; congruence.
Qed.

Lemma updates_fill : updates (with_scalar fill) (fun s _ _ => s).
Proof.
  intros dest exp h sh d bd v bv Hd Hv Hne.
  unfold with_scalar, fill, setConstant.
  destruct (holds_sizes _ _ _ _ _ _ _ _ Hd Hv) as (-> & _ & ? & ? & ? & ? & ?).
  erewrite fill_n_whole; [|done|done]. do 2 f_equal.
  rewrite <- (zip_with_replicate_r (fun _ s => s) bd (scalar exp) bv (size dest))
    by congruence.
  match goal with H : length bd = size dest |- _ => revert H end.
  generalize (size dest). clear.
  induction bd as [|x bd IH]; intros [|n] Hn; simpl in *; try done.
  f_equal. apply IH. lia.
Qed.

(** Kernels made of routines. *)
Lemma one_spec f F dest exp h sh d bd v bv :
  updates f F ->
  holds dest h sh d bd -> holds (vec exp) h sh v bv -> d <> v ->
  one f dest exp h = Ok (dest, <[d := zip_with (F (scalar exp)) bd bv]> h).
Proof. intros Hf Hd Hv Hne. unfold one, pass. by erewrite Hf. Qed.

Lemma two_spec f g F G dest exp h sh d bd v bv :
  updates f F -> updates g G ->
  holds dest h sh d bd -> holds (vec exp) h sh v bv -> d <> v ->
  two f g dest exp h
  = Ok (dest, <[d := zip_with (fun x y => G (scalar exp) (F (scalar exp) x y) y)
                              bd bv]> h).
Proof.
  intros Hf Hg Hd Hv Hne. unfold two, pass. erewrite Hf; [|done..]. simpl.
  erewrite Hg; [| | |done].
  - simpl. by rewrite insert_insert_eq, zip_with_zip_with_same.
  - eapply holds_insert_self; [done|].
    destruct (holds_sizes _ _ _ _ _ _ _ _ Hd Hv) as (_ & _ & _ & _ & ? & ? & _).
    rewrite length_zip_with. lia.
  - apply holds_insert_other; [done|congruence].
Qed.

End routines.

Section fusion.
Import TensorHpp.
Local Open Scope Q_scope.

Lemma zip_with_diag (F : Q -> Q -> Q) (a : list Q) : forall b : list Q,
  length a = length b ->
  zip_with F b b = zip_with (fun _ y => F y y) a b.
Proof.
  induction a as [|x a IH]; intros [|y b] Hlen; simpl in *; try done.
  f_equal. apply IH. lia.
Qed.

Lemma zip_with_map_r (F : Q -> Q -> Q) (g : Q -> Q) (a : list Q) :
  forall b : list Q,
  zip_with F a (map g b) = zip_with (fun x y => F x (g y)) a b.
Proof. induction a as [|x a IH]; intros [|y b]; simpl; [done..|]. by rewrite IH. Qed.

Lemma after_copy1_spec reply f F dest exp h sh d bd v bv :
  updates f F ->
  holds dest h sh d bd -> holds (vec exp) h sh v bv -> d <> v ->
  after_copy reply [f] dest exp h
  = Ok (dest, <[d := zip_with (fun _ y => F (scalar exp) y y) bd bv]> h).
Proof.
  intros Hf Hd Hv Hne. unfold after_copy. simpl.
  erewrite assign_allocated; [|done|done]. simpl. unfold pass.
  destruct (holds_sizes _ _ _ _ _ _ _ _ Hd Hv) as (_ & _ & _ & _ & Hb & Hb' & _).
  erewrite Hf; [| | |done].
  - simpl. rewrite insert_insert_eq. do 3 f_equal.
    apply zip_with_diag. congruence.
  - eapply holds_insert_self; [done|congruence].
  - apply holds_insert_other; [done|congruence].
Qed.

Lemma after_copy2_spec reply f g F G dest exp h sh d bd v bv :
  updates f F -> updates g G ->
  holds dest h sh d bd -> holds (vec exp) h sh v bv -> d <> v ->
  after_copy reply [f; g] dest exp h
  = Ok (dest,
        <[d := zip_with (fun _ y => G (scalar exp) (F (scalar exp) y y) y)
                        bd bv]> h).
Proof.
  intros Hf Hg Hd Hv Hne. unfold after_copy. simpl.
  erewrite assign_allocated; [|done|done]. simpl. unfold pass.
  destruct (holds_sizes _ _ _ _ _ _ _ _ Hd Hv) as (_ & _ & _ & _ & Hb & Hb' & _).
  assert (holds dest (<[d := bv]> h) sh d bv) as Hd1.
  { eapply holds_insert_self; [done|congruence]. }
  assert (holds (vec exp) (<[d := bv]> h) sh v bv) as Hv1.
  { apply holds_insert_other; [done|congruence]. }
  erewrite Hf; [|done..]. simpl.
  erewrite Hg; [| | |done].
  - simpl. rewrite !insert_insert_eq. do 3 f_equal.
    rewrite zip_with_zip_with_same.
    apply (zip_with_diag (fun x y => G (scalar exp) (F (scalar exp) x y) y)).
    congruence.
  - eapply holds_insert_self; [done|]. rewrite length_zip_with. lia.
  - apply holds_insert_other; [done|congruence].
Qed.

Lemma updates_add : updates (with_vec add) (fun _ x y => x + y).
Proof. apply (updates_with_vec Qplus). Qed.
Lemma updates_sub : updates (with_vec sub) (fun _ x y => x - y).
Proof. apply (updates_with_vec Qminus). Qed.
Lemma updates_mul : updates (with_vec mul) (fun _ x y => x * y).
Proof. apply (updates_with_vec Qmult). Qed.
Lemma updates_div : updates (with_vec div) (fun _ x y => x / y).
Proof. apply (updates_with_vec Qdiv). Qed.
Lemma updates_add_scalar : updates (with_scalar add_scalar) (fun s x _ => x + s).
Proof. apply (updates_with_scalar Qplus). Qed.
Lemma updates_sub_scalar : updates (with_scalar sub_scalar) (fun s x _ => x - s).
Proof. apply (updates_with_scalar Qminus). Qed.
Lemma updates_mul_scalar : updates (with_scalar mul_scalar) (fun s x _ => x * s).
Proof. apply (updates_with_scalar Qmult). Qed.
Lemma updates_div_scalar : updates (with_scalar div_scalar) (fun s x _ => x / s).
Proof. apply (updates_with_scalar Qdiv). Qed.
Lemma updates_mul_const c :
  updates (with_const mul_scalar c) (fun _ x _ => x * c).
Proof. apply (updates_with_const Qmult). Qed.
Lemma updates_axpy_vec_size alpha :
  updates (axpy_vec vec_size alpha) (fun _ x y => alpha * y + x).
Proof. apply updates_axpy_vec. by left. Qed.
Lemma updates_axpy_dest_size alpha :
  updates (axpy_vec dest_size alpha) (fun _ x y => alpha * y + x).
Proof. apply updates_axpy_vec. by right. Qed.

Create HintDb routines.
#[local] Hint Resolve updates_add updates_sub updates_mul updates_div
  updates_add_scalar updates_sub_scalar updates_mul_scalar updates_div_scalar
  updates_mul_const updates_axpy_vec_size updates_axpy_dest_size
  updates_axpy_scalar updates_fill : routines.
#[local] Hint Extern 1 (updates (loop _) _) => apply updates_loop : routines.

Ltac solve_Q :=
  cbv zeta; unfold fma, id, Qdiv;
  rewrite ?Qinv_mult_distr, ?Qinv_involutive; ring.

Lemma kernel_pointwise ty reply o destop k dest exp h sh d bd v bv :
  STOPImpl ty reply o destop = Some k ->
  holds dest h sh d bd -> holds (vec exp) h sh v bv -> d <> v ->
  exists K,
    k dest exp h = Ok (dest, <[d := zip_with K bd bv]> h) /\
    forall x y, K x y == combine destop x (source_value o y (scalar exp)).
Proof.
  intros Hk Hd Hv Hne.
  destruct ty, o, destop; simpl in Hk; try discriminate;
    injection Hk as <-;
    (eexists; split;
     [ first [ eapply two_spec | eapply one_spec
             | eapply after_copy2_spec | eapply after_copy1_spec ];
       eauto with routines
     | intros x y; simpl; solve_Q ]).
Qed.

(** The kernels as expressions over [Q]: each kernel of the table leaves in
    [dest], at every index, a rational equal to the one of the two-pass
    evaluation, and leaves the operand as it was.  This is algebra on the
    expressions the kernels are made of; it says what the code computes
    where the elements behave as rationals do, which the theorem after it
    delimits. *)
Lemma STOP_kernels_over_Q ty reply destop dest exp h sh d bd v bv r0 :
  compound_STOP ty reply destop dest exp h = Some r0 ->
  holds dest h sh d bd -> holds (vec exp) h sh v bv -> d <> v ->
  exists h' r,
    r0 = Ok (dest, h') /\
    elements dest h' = Some r /\
    Forall2 Qeq r (two_pass (op exp) destop (scalar exp) bd bv) /\
    elements (vec exp) h' = Some bv.
Proof.
  intros Hc Hd Hv Hne. unfold compound_STOP in Hc.
  destruct (STOPImpl ty reply (op exp) destop) as [k|] eqn:Hk; [|discriminate].
  injection Hc as <-.
  destruct (kernel_pointwise _ _ _ _ _ _ _ _ _ _ _ _ _ Hk Hd Hv Hne)
    as (K & Hrun & HK).
  destruct (holds_sizes _ _ _ _ _ _ _ _ Hd Hv) as (_ & _ & _ & _ & Hb & Hb' & _).
  exists (<[d := zip_with K bd bv]> h), (zip_with K bd bv).
  split; [|split; [|split]].
  - unfold checked, shape. destruct Hd as (-> & _). destruct Hv as (-> & _).
    simpl. by rewrite checkShape_same.
  - eapply holds_elements. eapply holds_insert_self; [done|].
    rewrite length_zip_with. lia.
  - unfold two_pass, materialize. rewrite zip_with_map_r.
    by apply Forall2_zip_with_same.
  - eapply holds_elements. apply holds_insert_other; [done|congruence].
Qed.


(** Which kernels exist: [double] has one for each of the six source tags
    and five destination tags, [float] for all of these but (SubLeft,
    Assign), the generic type for the four compound destinations only. *)
Lemma STOPImpl_defined ty reply o destop :
  is_Some (STOPImpl ty reply o destop) <->
  o <> Assign /\ destop <> SubLeft /\ destop <> DivLeft /\
  (ty = Generic -> destop <> Assign) /\
  (ty = Float -> o = SubLeft -> destop <> Assign).
Proof.
  split.
  - intros [k Hk].
    destruct ty, o, destop; simpl in Hk; try discriminate;
      repeat split; discriminate.
  - intros (Ho & H1 & H2 & Hg & Hf).
    destruct ty, o, destop; simpl; try done;
      solve [ eexists; reflexivity | exfalso; by apply Hg
            | exfalso; by apply Hf ].
Qed.

(** Every combining operator of Tensor.hpp runs [checkShape] first: on
    operands of different realized shapes it throws, the destination and the
    store untouched, whatever routine follows. *)
Lemma checked_mismatch this a h k s1 s2 :
  shape this = Some s1 -> shape a = Some s2 -> s1 <> s2 ->
  exists e,
    checked this a h k = Throw e (this, h) /\
    (e = DimensionError (length s1) (length s2) \/
     e = SizeMismatchError s1 s2).
Proof.
  intros H1 H2 Hne. unfold checked. rewrite H1, H2. simpl.
  destruct (checkShape_differ _ _ Hne) as [Hc|Hc]; rewrite Hc; eauto.
Qed.

Lemma Tensor_add_assign_mismatch ty this a h s1 s2 :
  shape this = Some s1 -> shape a = Some s2 -> s1 <> s2 ->
  exists e, add_assign ty this a h = Throw e (this, h).
Proof.
  intros H1 H2 Hne. unfold add_assign.
  destruct (checked_mismatch this a h
              (match ty with
               | Generic => pass this (add this a h)
               | _ => pass this (cblas_axpy (size this) 1 (Buffer (ptr a))
                                            (stride a) (ptr this) (stride this) h)
               end) s1 s2 H1 H2 Hne) as (e & He & _).
  by exists e.
Qed.

Lemma Tensor_compound_STOP_mismatch ty reply destop this exp h s1 s2 r0 :
  compound_STOP ty reply destop this exp h = Some r0 ->
  shape this = Some s1 -> shape (vec exp) = Some s2 -> s1 <> s2 ->
  exists e, r0 = Throw e (this, h).
Proof.
  intros Hc H1 H2 Hne. unfold compound_STOP in Hc.
  destruct (STOPImpl ty reply (op exp) destop) as [k|]; [|discriminate].
  injection Hc as <-.
  destruct (checked_mismatch this (vec exp) h (k this exp h) s1 s2 H1 H2 Hne)
    as (e & He & _).
  by exists e.
Qed.

(** The generic branch of [operator-=] is the generic branch of
    [operator+=], for every input. *)
Lemma generic_sub_assign_is_add_assign this a s h :
  sub_assign Generic this a h = add_assign Generic this a h /\
  sub_assign_scalar Generic this s h = add_assign_scalar Generic this s h.
Proof. split; reflexivity. Qed.

End fusion.

(** ** Compound assignment with a plain operand *)

Section plain_operands.
Import TensorHpp.
Implicit Types (h : heap) (t dest a : Tensor).

Lemma checked_same this a h sh k :
  shape this = Some sh -> shape a = Some sh -> checked this a h k = k.
Proof.
  intros H1 H2. unfold checked. rewrite H1, H2. simpl.
  by rewrite checkShape_same.
Qed.

Lemma zip_with_replicate_map (F : Q -> Q -> Q) (s : Q) : forall (a : list Q) n,
  length a = n -> zip_with F a (replicate n s) = map (fun x => F x s) a.
Proof.
  induction a as [|x a IH]; intros [|n] Hn; simpl in *; try done.
  f_equal. apply IH. lia.
Qed.

Lemma Forall2_Qeq_map (F G : Q -> Q) (a : list Q) :
  (forall x, F x == G x) -> Forall2 Qeq (map F a) (map G a).
Proof.
  intros HFG. induction a as [|x a IH]; simpl; constructor; auto.
Qed.

(** X1.  [dest += a], [dest -= a], [dest *= a], [dest /= a] on allocated
    containers of one shape with distinct buffers combine the buffers
    element by element and touch nothing else.  Subtraction is stated for the
    accelerated element types [double] and [float], and so is division, for
    divisors that are not zero. *)
Theorem Tensor_compound_assign_container ty dest a h sh d bd v bv :
  holds dest h sh d bd -> holds a h sh v bv -> d <> v ->
  (exists r, add_assign ty dest a h = Ok (dest, <[d := r]> h) /\
             Forall2 Qeq r (zip_with Qplus bd bv)) /\
  (ty <> Generic ->
   exists r, sub_assign ty dest a h = Ok (dest, <[d := r]> h) /\
             Forall2 Qeq r (zip_with Qminus bd bv)) /\
  mul_assign dest a h = Ok (dest, <[d := zip_with Qmult bd bv]> h) /\
  (ty <> Generic -> nonzero bv ->
   div_assign dest a h = Ok (dest, <[d := zip_with Qdiv bd bv]> h)).
Proof.
  intros Hd Ha Hne.
  destruct (holds_sizes _ _ _ _ _ _ _ _ Hd Ha)
    as (Hpd & Hpa & Hld & Hlv & Hbd & Hbv & Hsz).
  assert (shape dest = Some sh) as Hs1 by (by destruct Hd).
  assert (shape a = Some sh) as Hs2 by (by destruct Ha).
  assert (forall alpha,
    cblas_axpy (size dest) alpha (Buffer (ptr a)) (stride a) (ptr dest)
               (stride dest) h
    = Some (<[d := zip_with (fun y x => alpha * x + y)%Q bd bv]> h)) as Haxpy.
  { intros alpha. rewrite Hpd, Hpa. unfold stride.
    by apply cblas_axpy_buffer_spec. }
  split; [|split; [|split]].
  - unfold add_assign. rewrite (checked_same _ _ _ sh) by done.
    destruct ty.
    + unfold add. rewrite Hpd, Hpa.
      erewrite elementwise_spec by done. simpl. eexists. split; [done|].
      apply Forall2_zip_with_same. intros. reflexivity.
    + rewrite Haxpy. simpl. eexists. split; [done|].
      apply Forall2_zip_with_same. intros. ring.
    + rewrite Haxpy. simpl. eexists. split; [done|].
      apply Forall2_zip_with_same. intros. ring.
  - intros Hty. unfold sub_assign. rewrite (checked_same _ _ _ sh) by done.
    destruct ty; [done| |].
    + rewrite Haxpy. simpl. eexists. split; [done|].
      apply Forall2_zip_with_same. intros. ring.
    + rewrite Haxpy. simpl. eexists. split; [done|].
      apply Forall2_zip_with_same. intros. ring.
  - unfold mul_assign. rewrite (checked_same _ _ _ sh) by done.
    unfold mul. rewrite Hpd, Hpa. by erewrite elementwise_spec.
  - intros _ _. unfold div_assign. rewrite (checked_same _ _ _ sh) by done.
    unfold div. rewrite Hpd, Hpa. by erewrite elementwise_spec.
Qed.

(** X2.  [dest += s], [dest -= s], [dest *= s], [dest /= s] for a scalar [s]
    apply the operation with [s] to every element of an allocated container.
    Subtraction is stated for the accelerated element types [double] and
    [float], and so is division, for a scalar that is not zero. *)
Theorem Tensor_compound_assign_scalar ty dest s h sh d bd :
  holds dest h sh d bd ->
  (exists r, add_assign_scalar ty dest s h = Ok (dest, <[d := r]> h) /\
             Forall2 Qeq r (map (fun x => x + s)%Q bd)) /\
  (ty <> Generic ->
   exists r, sub_assign_scalar ty dest s h = Ok (dest, <[d := r]> h) /\
             Forall2 Qeq r (map (fun x => x - s)%Q bd)) /\
  mul_assign_scalar dest s h = Ok (dest, <[d := map (fun x => x * s)%Q bd]> h) /\
  (ty <> Generic -> ~ s == 0 ->
   div_assign_scalar dest s h
   = Ok (dest, <[d := map (fun x => x / s)%Q bd]> h)).
Proof.
  intros Hd.
  destruct (holds_sizes _ _ _ _ _ _ _ _ Hd Hd)
    as (Hpd & _ & Hld & _ & Hbd & _ & _).
  assert (forall f, elementwise_scalar f (size dest) (ptr dest) s h
                    = Some (<[d := map (fun x => f x s) bd]> h)) as Hel.
  { intros f. rewrite Hpd. erewrite elementwise_scalar_spec by done.
    by rewrite zip_with_replicate_map. }
  assert (forall alpha,
    cblas_axpy (size dest) alpha (LocalArray [s]) 0 (ptr dest) (stride dest) h
    = Some (<[d := map (fun y => alpha * s + y)%Q bd]> h)) as Haxpy.
  { intros alpha. rewrite Hpd. unfold stride, cblas_axpy.
    erewrite (for_loop_whole d (fun y x => alpha * x + y)%Q _ h bd
                (replicate (size dest) s)); [| done | done | |].
    - by rewrite zip_with_replicate_map.
    - by rewrite length_replicate.
    - intros i b x y Hb Hx Hy.
      apply lookup_replicate in Hy as [-> Hi].
      rewrite Nat.mul_0_r, Nat.mul_1_r.
      unfold read_source, load. change ([s] !! 0) with (Some s).
      rewrite lookup_insert_eq, Hx.
      apply store_insert. by eapply lookup_lt_Some. }
  split; [|split; [|split]].
  - unfold add_assign_scalar. destruct ty.
    + unfold add_scalar. rewrite Hel. simpl. eexists. split; [done|].
      apply Forall2_Qeq_map. intros. reflexivity.
    + rewrite Haxpy. simpl. eexists. split; [done|].
      apply Forall2_Qeq_map. intros. ring.
    + rewrite Haxpy. simpl. eexists. split; [done|].
      apply Forall2_Qeq_map. intros. ring.
  - intros Hty. unfold sub_assign_scalar. destruct ty; [done| |].
    + rewrite Haxpy. simpl. eexists. split; [done|].
      apply Forall2_Qeq_map. intros. ring.
    + rewrite Haxpy. simpl. eexists. split; [done|].
      apply Forall2_Qeq_map. intros. ring.
  - unfold mul_assign_scalar, mul_scalar. by rewrite Hel.
  - intros _ _. unfold div_assign_scalar, div_scalar. by rewrite Hel.
Qed.

(** The accelerated additions and subtractions, with the value the BLAS
    routine leaves in each cell. *)
Lemma axpy_assign_blas alpha dest a h sh d bd v bv :
  holds dest h sh d bd -> holds a h sh v bv -> d <> v ->
  checked dest a h
    (pass dest (cblas_axpy (size dest) alpha (Buffer (ptr a)) (stride a)
                           (ptr dest) (stride dest) h))
  = Ok (dest, <[d := zip_with (fun y x => alpha * x + y)%Q bd bv]> h).
Proof.
  intros Hd Ha Hne.
  destruct (holds_sizes _ _ _ _ _ _ _ _ Hd Ha)
    as (Hpd & Hpa & Hld & Hlv & Hbd & Hbv & Hsz).
  rewrite (checked_same _ _ _ sh) by (by destruct Hd, Ha).
  rewrite Hpd, Hpa. unfold stride.
  by erewrite cblas_axpy_buffer_spec.
Qed.

Lemma add_assign_blas ty dest a h sh d bd v bv :
  ty <> Generic ->
  holds dest h sh d bd -> holds a h sh v bv -> d <> v ->
  add_assign ty dest a h
  = Ok (dest, <[d := zip_with (fun y x => 1 * x + y)%Q bd bv]> h).
Proof.
  intros Hty Hd Ha Hne. unfold add_assign.
  destruct ty; [done| |]; by eapply axpy_assign_blas.
Qed.

Lemma sub_assign_blas ty dest a h sh d bd v bv :
  ty <> Generic ->
  holds dest h sh d bd -> holds a h sh v bv -> d <> v ->
  sub_assign ty dest a h
  = Ok (dest, <[d := zip_with (fun y x => -1 * x + y)%Q bd bv]> h).
Proof.
  intros Hty Hd Ha Hne. unfold sub_assign.
  destruct ty; [done| |]; by eapply axpy_assign_blas.
Qed.

Lemma mul_assign_holds dest a h sh d bd v bv :
  holds dest h sh d bd -> holds a h sh v bv -> d <> v ->
  mul_assign dest a h = Ok (dest, <[d := zip_with Qmult bd bv]> h).
Proof.
  intros Hd Ha Hne.
  destruct (holds_sizes _ _ _ _ _ _ _ _ Hd Ha)
    as (Hpd & Hpa & Hld & Hlv & Hbd & Hbv & Hsz).
  unfold mul_assign. rewrite (checked_same _ _ _ sh) by (by destruct Hd, Ha).
  unfold mul. rewrite Hpd, Hpa. by erewrite elementwise_spec.
Qed.

Lemma div_assign_holds dest a h sh d bd v bv :
  holds dest h sh d bd -> holds a h sh v bv -> d <> v ->
  div_assign dest a h = Ok (dest, <[d := zip_with Qdiv bd bv]> h).
Proof.
  intros Hd Ha Hne.
  destruct (holds_sizes _ _ _ _ _ _ _ _ Hd Ha)
    as (Hpd & Hpa & Hld & Hlv & Hbd & Hbv & Hsz).
  unfold div_assign. rewrite (checked_same _ _ _ sh) by (by destruct Hd, Ha).
  unfold div. rewrite Hpd, Hpa. by erewrite elementwise_spec.
Qed.

Lemma add_assign_holds ty dest a h sh d bd v bv :
  holds dest h sh d bd -> holds a h sh v bv -> d <> v ->
  exists r, add_assign ty dest a h = Ok (dest, <[d := r]> h) /\
            length r = length bd /\
            Forall2 Qeq r (zip_with Qplus bd bv).
Proof.
  intros Hd Ha Hne.
  destruct (holds_sizes _ _ _ _ _ _ _ _ Hd Ha)
    as (Hpd & Hpa & Hld & Hlv & Hbd & Hbv & Hsz).
  assert (ty = Generic \/ ty <> Generic) as [->|Hty]
    by (destruct ty; auto; right; discriminate).
  - unfold add_assign. rewrite (checked_same _ _ _ sh) by (by destruct Hd, Ha).
    unfold add. rewrite Hpd, Hpa.
    erewrite elementwise_spec by done. simpl. eexists. split; [done|].
    split; [rewrite length_zip_with; lia|].
    apply Forall2_zip_with_same. intros. reflexivity.
  - erewrite add_assign_blas by done. eexists. split; [done|].
    split; [rewrite length_zip_with; lia|].
    apply Forall2_zip_with_same. intros. ring.
Qed.

Lemma scalar_assign_holds (f : Q -> Q -> Q) dest s h sh d bd :
  holds dest h sh d bd ->
  elementwise_scalar f (size dest) (ptr dest) s h
  = Some (<[d := map (fun x => f x s) bd]> h).
Proof.
  intros Hd.
  destruct (holds_sizes _ _ _ _ _ _ _ _ Hd Hd)
    as (Hpd & _ & Hld & _ & Hbd & _ & _).
  rewrite Hpd. erewrite elementwise_scalar_spec by done.
  by rewrite zip_with_replicate_map.
Qed.

Lemma div_assign_scalar_holds dest s h sh d bd :
  holds dest h sh d bd ->
  div_assign_scalar dest s h = Ok (dest, <[d := map (fun x => x / s)%Q bd]> h).
Proof.
  intros Hd. unfold div_assign_scalar, div_scalar.
  by erewrite scalar_assign_holds.
Qed.

(** X3.  Every combining operator of Tensor.hpp that takes a container or a
    descriptor compares the realized shapes before its kernel: on a
    difference it throws the dimension or size error of [checkShape] and
    neither the destination nor the store has changed. *)
Theorem Tensor_operators_check_shape_first ty reply destop this exp h s1 s2 :
  shape this = Some s1 -> shape (vec exp) = Some s2 -> s1 <> s2 ->
  let failed r :=
    exists e, r = Throw e (this, h) /\
              (e = DimensionError (length s1) (length s2) \/
               e = SizeMismatchError s1 s2) in
  failed (add_assign ty this (vec exp) h) /\
  failed (sub_assign ty this (vec exp) h) /\
  failed (mul_assign this (vec exp) h) /\
  failed (div_assign this (vec exp) h) /\
  (forall r0, compound_STOP ty reply destop this exp h = Some r0 -> failed r0).
Proof.
  intros H1 H2 Hne failed. unfold failed.
  repeat split; try by eapply checked_mismatch.
  intros r0 Hc. unfold compound_STOP in Hc.
  destruct (STOPImpl ty reply (op exp) destop); [|discriminate].
  injection Hc as <-. by eapply checked_mismatch.
Qed.

(** The copy constructor builds its object in a block that was not in the
    store, and changes nothing else. *)
Lemma ctor_copy_fresh l raw at_ raw' other h sh s bs :
  holds other h sh s bs -> h !! at_ = None -> h !! l = None ->
  exists t d,
    ctor_copy (Some (l, raw)) at_ raw' other h = Ok (t, <[d := bs]> h) /\
    holds t (<[d := bs]> h) sh d bs /\ h !! d = None /\
    dims t = dims other /\ self t = at_.
Proof.
  intros Ho Hat Hl.
  assert (shape other = Some sh) as Hsh by (by destruct Ho).
  assert (length sh = length (dims other)) as Hnd by (by destruct Ho as (_ & ? & _)).
  assert (length bs = product sh) as Hbs.
  { destruct Ho as (_ & _ & ? & _ & _ & ? & _). congruence. }
  assert (s <> at_ /\ s <> l) as [Hsat Hsl].
  { destruct Ho as (_ & _ & _ & _ & Hs & _). split; congruence. }
  unfold ctor_copy. rewrite Hsh.
  destruct (isStaticSized other) eqn:Hst.
  - destruct (holds_static _ _ _ _ _ Ho Hst) as (_ & -> & Hct & Hpos).
    unfold ctor_default.
    change (isStaticSized (mkTensor (dims other) at_ Indet Null 0 None))
      with (isStaticSized other).
    rewrite Hst. unfold alloc at 1.
    change (isStaticSized (mkTensor (dims other) at_ Indet Null 0 None))
      with (isStaticSized other).
    rewrite Hst.
    replace (isAlloced (mkTensor (dims other) at_ Indet Null 0 None))
      with false by reflexivity.
    cbn [data _size self dims heapData].
    erewrite fill_n_whole;
      [|apply lookup_insert_eq|by rewrite length_map, length_seq].
    cbn [defined]. rewrite insert_insert_eq.
    set (t := mkTensor (dims other) at_ Indet (Addr at_) (_ctSize _)
                       (Some (dims other))).
    assert (holds t (<[at_ := replicate (product (dims other)) 0%Q]> h)
                  (dims other) at_ (replicate (product (dims other)) 0%Q)) as Ht.
    { unfold holds, t, isStaticSized, _ctSize, _nDims. simpl.
      rewrite bool_decide_eq_true_2 by done.
      rewrite lookup_insert_eq, length_replicate. done. }
    unfold alloc. rewrite (holds_isAlloced _ _ _ _ _ Ht). cbn [defined].
    erewrite assign_same_dims_allocated;
      [|done|by apply holds_insert_other].
    rewrite insert_insert_eq. exists t, at_.
    split; [done|]. split; [|done].
    replace (<[at_ := bs]> h)
      with (<[at_ := bs]> (<[at_ := replicate (product (dims other)) 0%Q]> h))
      by apply insert_insert_eq.
    eapply holds_insert_self; [done|]. by rewrite length_replicate.
  - unfold ctor_default.
    change (isStaticSized (mkTensor (dims other) at_ Indet Null 0 None))
      with (isStaticSized other).
    rewrite Hst. cbn [defined].
    destruct (alloc_dynamic (mkTensor (dims other) at_ Indet Null 0 None)
                sh l raw h eq_refl Hst Hnd) as (t1 & Hal & Ht1 & Hd1 & Hs1).
    rewrite Hal.
    erewrite assign_same_dims_allocated;
      [|done|by apply holds_insert_other].
    rewrite insert_insert_eq. exists t1, l.
    split; [done|]. split; [|done].
    replace (<[l := bs]> h)
      with (<[l := bs]> (<[l := replicate (product sh) 0%Q]> h))
      by apply insert_insert_eq.
    eapply holds_insert_self; [done|]. by rewrite length_replicate.
Qed.

Lemma holds_fresh t h sh l b d b' :
  holds t h sh l b -> h !! d = None -> holds t (<[d := b']> h) sh l b.
Proof.
  intros Ht Hd. apply holds_insert_other; [done|].
  destruct Ht as (_ & _ & _ & _ & Hl & _). congruence.
Qed.

Lemma holds_lookup t h sh l b : holds t h sh l b -> h !! l = Some b.
Proof. by intros (_ & _ & _ & _ & Hl & _). Qed.

Lemma holds_length t h sh l b : holds t h sh l b -> length b = product sh.
Proof. intros (_ & _ & Hz & _ & _ & Hb & _). congruence. Qed.

End plain_operands.

Section by_value.
Import TensorHpp TensorHppVector.

(** X5.  [a + b], [a - b], [a * b] and [a / b] on vectors of one shape return a
    new vector, in a block that was not in the store, holding the
    elementwise results; the operands (which may be one and the same
    vector) and everything else in the store are unchanged.  Subtraction is
    stated for the accelerated element types [double] and [float], and so is
    division, for divisors that are not zero. *)
Theorem Vector_by_value_operators ty l raw at_ raw' a b h sh va ba vb bb :
  holds a h sh va ba -> holds b h sh vb bb ->
  h !! at_ = None -> h !! l = None ->
  let returns r0 F :=
    exists c d r,
      r0 = Ok (c, <[d := r]> h) /\ h !! d = None /\
      holds c (<[d := r]> h) sh d r /\
      Forall2 Qeq r (zip_with F ba bb) in
  returns (Vector_plus_Vector ty (Some (l, raw)) at_ raw' a b h) Qplus /\
  (ty <> Generic ->
   returns (Vector_minus_Vector ty (Some (l, raw)) at_ raw' a b h) Qminus) /\
  returns (Vector_times_Vector (Some (l, raw)) at_ raw' a b h) Qmult /\
  (ty <> Generic -> nonzero bb ->
   returns (Vector_over_Vector (Some (l, raw)) at_ raw' a b h) Qdiv).
Proof.
  intros Ha Hb Hat Hl returns. unfold returns.
  destruct (ctor_copy_fresh l raw at_ raw' a h sh va ba Ha Hat Hl)
    as (c & d & Hc & Hch & Hd & _).
  pose proof (holds_fresh _ _ _ _ _ d ba Hb Hd) as Hb'.
  assert (d <> vb) as Hne.
  { apply holds_lookup in Hb. congruence. }
  assert (length ba = length bb) as Hlen.
  { apply holds_length in Ha, Hb. congruence. }
  assert (forall r : list Q, length r = length ba ->
            holds c (<[d := r]> h) sh d r) as Hres.
  { intros r Hr. replace (<[d := r]> h) with (<[d := r]> (<[d := ba]> h))
      by apply insert_insert_eq.
    by eapply holds_insert_self. }
  unfold Vector_plus_Vector, Vector_minus_Vector, Vector_times_Vector,
    Vector_over_Vector, Vector_op. rewrite Hc. cbn [and_then fst snd].
  split; [|split; [|split]].
  - destruct (add_assign_holds ty _ _ _ _ _ _ _ _ Hch Hb' Hne)
      as (r & -> & Hr & Heq).
    rewrite insert_insert_eq. exists c, d, r. auto.
  - intros Hty. erewrite sub_assign_blas by done.
    rewrite insert_insert_eq. eexists c, d, _.
    split; [done|]. split; [done|]. split.
    + apply Hres. rewrite length_zip_with. lia.
    + apply Forall2_zip_with_same. intros. ring.
  - erewrite mul_assign_holds by done.
    rewrite insert_insert_eq. eexists c, d, _.
    split; [done|]. split; [done|]. split.
    + apply Hres. rewrite length_zip_with. lia.
    + apply Forall2_zip_with_same. intros. reflexivity.
  - intros _ _. erewrite div_assign_holds by done.
    rewrite insert_insert_eq. eexists c, d, _.
    split; [done|]. split; [done|]. split.
    + apply Hres. rewrite length_zip_with. lia.
    + apply Forall2_zip_with_same. intros. reflexivity.
Qed.

End by_value.

Section fills.
Import TensorHpp.

(** X6.  [setConstant (val)] (and [setZero], [setOne]) overwrites exactly the
    [size ()] elements of an allocated container and nothing else; on a
    container of length 0, allocated or not, it writes nothing. *)
Theorem setConstant_fills val t h :
  (forall sh l b,
      holds t h sh l b ->
      setConstant val t h = Some (<[l := replicate (size t) val]> h) /\
      holds t (<[l := replicate (size t) val]> h) sh l
            (replicate (size t) val)) /\
  (size t = 0 -> setConstant val t h = Some h).
Proof.
  split.
  - intros sh l b Ht.
    destruct (holds_sizes _ _ _ _ _ _ _ _ Ht Ht) as (Hp & _ & Hl & _ & Hb & _).
    split.
    + unfold setConstant. rewrite Hp. by eapply fill_n_whole.
    + eapply holds_insert_self; [done|]. by rewrite length_replicate.
  - intros Hz. unfold setConstant. by rewrite Hz.
Qed.


End fills.

Section operator_examples.
Import TensorHpp TensorHppVector.


Lemma Tensor_compound_assign_container_witness :
  (exists r,
     add_assign Double (mkTensor [2] 1 Indet (Addr 1) 2 (Some [2]))
                (mkTensor [2] 2 Indet (Addr 2) 2 (Some [2]))
                {[1 := [5%Q; 7%Q]; 2 := [1%Q; 2%Q]]}
     = Ok (mkTensor [2] 1 Indet (Addr 1) 2 (Some [2]),
           <[1 := r]> {[1 := [5%Q; 7%Q]; 2 := [1%Q; 2%Q]]}) /\
     Forall2 Qeq r (zip_with Qplus [5%Q; 7%Q] [1%Q; 2%Q])) /\
  div_assign (mkTensor [2] 1 Indet (Addr 1) 2 (Some [2]))
             (mkTensor [2] 2 Indet (Addr 2) 2 (Some [2]))
             {[1 := [5%Q; 7%Q]; 2 := [1%Q; 2%Q]]}
  = Ok (mkTensor [2] 1 Indet (Addr 1) 2 (Some [2]),
        <[1 := zip_with Qdiv [5%Q; 7%Q] [1%Q; 2%Q]]>
          {[1 := [5%Q; 7%Q]; 2 := [1%Q; 2%Q]]}).
Proof.
  destruct (Tensor_compound_assign_container Double
              (mkTensor [2] 1 Indet (Addr 1) 2 (Some [2]))
              (mkTensor [2] 2 Indet (Addr 2) 2 (Some [2]))
              {[1 := [5%Q; 7%Q]; 2 := [1%Q; 2%Q]]}
              [2] 1 [5%Q; 7%Q] 2 [1%Q; 2%Q])
    as ((r & Hr & Hq) & _ & _ & Hdiv).
  - unfold holds; cbn; repeat split; reflexivity.
  - unfold holds; cbn; repeat split; reflexivity.
  - lia.
  - split; [exists r; split; [exact Hr|exact Hq]|].
    apply Hdiv; [discriminate|]. repeat constructor; discriminate.
Defined.

Lemma Tensor_compound_assign_scalar_witness :
  div_assign_scalar (mkTensor [2] 1 Indet (Addr 1) 2 (Some [2])) 2%Q
                    {[1 := [5%Q; 7%Q]]}
  = Ok (mkTensor [2] 1 Indet (Addr 1) 2 (Some [2]),
        <[1 := map (fun x => x / 2)%Q [5%Q; 7%Q]]> {[1 := [5%Q; 7%Q]]}).
Proof.
  destruct (Tensor_compound_assign_scalar Double
              (mkTensor [2] 1 Indet (Addr 1) 2 (Some [2])) 2%Q
              {[1 := [5%Q; 7%Q]]} [2] 1 [5%Q; 7%Q])
    as (_ & _ & _ & Hd).
  - unfold holds; cbn; repeat split; reflexivity.
  - apply Hd; [discriminate|]. intros Hz. discriminate Hz.
Defined.

Lemma Tensor_operators_check_shape_first_witness :
  exists e,
    mul_assign (mkTensor [3; 2] 1 Indet (Addr 1) 6 (Some [3; 2]))
               (mkTensor [2; 3] 2 Indet (Addr 2) 6 (Some [2; 3]))
               {[1 := replicate 6 0%Q; 2 := replicate 6 1%Q]}
    = Throw e (mkTensor [3; 2] 1 Indet (Addr 1) 6 (Some [3; 2]),
               {[1 := replicate 6 0%Q; 2 := replicate 6 1%Q]}).
Proof.
  destruct (Tensor_operators_check_shape_first Generic None Add
              (mkTensor [3; 2] 1 Indet (Addr 1) 6 (Some [3; 2]))
              (times_scalar (mkTensor [2; 3] 2 Indet (Addr 2) 6 (Some [2; 3]))
                            1%Q)
              {[1 := replicate 6 0%Q; 2 := replicate 6 1%Q]}
              [3; 2] [2; 3])
    as (_ & _ & (e & He & _) & _).
  - reflexivity.
  - reflexivity.
  - discriminate.
  - exists e. exact He.
Defined.

Lemma Vector_by_value_operators_witness :
  exists c d r,
    Vector_times_Vector (Some (7, fun _ => 9%Q)) 3 (fun _ => 9%Q)
      (mkTensor [2] 1 Indet (Addr 1) 2 (Some [2]))
      (mkTensor [2] 1 Indet (Addr 1) 2 (Some [2]))
      {[1 := [5%Q; 7%Q]]}
    = Ok (c, <[d := r]> {[1 := [5%Q; 7%Q]]}) /\
    Forall2 Qeq r (zip_with Qmult [5%Q; 7%Q] [5%Q; 7%Q]).
Proof.
  destruct (Vector_by_value_operators Generic 7 (fun _ => 9%Q) 3
              (fun _ => 9%Q)
              (mkTensor [2] 1 Indet (Addr 1) 2 (Some [2]))
              (mkTensor [2] 1 Indet (Addr 1) 2 (Some [2]))
              {[1 := [5%Q; 7%Q]]} [2] 1 [5%Q; 7%Q] 1 [5%Q; 7%Q])
    as (_ & _ & (c & d & r & Hr & _ & _ & Hq) & _).
  - unfold holds; cbn; repeat split; reflexivity.
  - unfold holds; cbn; repeat split; reflexivity.
  - reflexivity.
  - reflexivity.
  - exists c, d, r. split; [exact Hr|exact Hq].
Defined.

Lemma setConstant_fills_witness :
  setConstant 3%Q (mkTensor [0] 1 (Addr 7) (Addr 7) 2 (Some [2]))
              {[7 := [1%Q; 2%Q]]}
  = Some (<[7 := replicate 2 3%Q]> {[7 := [1%Q; 2%Q]]}).
Proof.
  destruct (setConstant_fills 3%Q (mkTensor [0] 1 (Addr 7) (Addr 7) 2 (Some [2]))
              {[7 := [1%Q; 2%Q]]}) as (H1 & _).
  destruct (H1 [2] 7 [1%Q; 2%Q]) as (Hf & _).
  - unfold holds; cbn; repeat split; reflexivity.
  - exact Hf.
Defined.


End operator_examples.

(** ** Indexing *)

Section indexing.
Import TensorHpp TensorHppMatrix.

Lemma idx_from_shift : forall iidx shp offset stride,
  idx_from iidx shp offset stride = offset + stride * idx_from iidx shp 0 1.
Proof.
  induction iidx as [|i iidx IH]; intros [|s shp] offset stride;
    cbn [idx_from]; try lia.
  rewrite (IH shp (offset + i * stride) (stride * s)).
  rewrite (IH shp (0 + i * 1) (1 * s)). nia.
Qed.

Lemma idx_from_cons i iidx s shp :
  idx_from (i :: iidx) (s :: shp) 0 1 = i + s * idx_from iidx shp 0 1.
Proof. cbn [idx_from]. rewrite idx_from_shift. lia. Qed.

Lemma idx_from_bound iidx shp :
  Forall2 lt iidx shp -> idx_from iidx shp 0 1 < product shp.
Proof.
  induction 1 as [|i s iidx shp Hi _ IH].
  - simpl. lia.
  - rewrite idx_from_cons. unfold product in *. simpl. nia.
Qed.

Lemma idx_from_inj iidx jidx shp :
  Forall2 lt iidx shp -> Forall2 lt jidx shp ->
  idx_from iidx shp 0 1 = idx_from jidx shp 0 1 -> iidx = jidx.
Proof.
  intros Hi. revert jidx.
  induction Hi as [|i s iidx shp Hi _ IH]; intros jidx Hj Heq.
  - by inversion Hj.
  - inversion Hj as [|j s' jidx' shp' Hjs Hj']; subst.
    rewrite !idx_from_cons in Heq.
    set (X := idx_from iidx shp 0 1) in *.
    set (Y := idx_from jidx' shp 0 1) in *.
    assert (X = Y) as Hx.
    { destruct (Nat.lt_trichotomy X Y) as [?|[?|?]];
        [exfalso; nia|done|exfalso; nia]. }
    assert (i = j) as -> by nia.
    f_equal. by apply IH.
Qed.

Lemma idx_from_column_major : forall iidx shp,
  idx_from iidx shp 0 1 = column_major shp iidx.
Proof.
  induction iidx as [|i iidx IH]; intros [|s shp]; try reflexivity.
  rewrite idx_from_cons, IH. reflexivity.
Qed.

(** X8.  [idx] is the column-major offset
    [i0 + s0 * (i1 + s1 * (i2 + ...))] of the multi-index in the realized
    shape [{s0, s1, ...}]: for a multi-index within the shape it is below
    [size ()], [operator()] reads the element of the buffer there, and two
    such multi-indices with one offset are equal. *)
Theorem Tensor_idx_column_major t h sh l b iidx jidx :
  holds t h sh l b -> Forall2 lt iidx sh -> Forall2 lt jidx sh ->
  idx t iidx = Some (column_major sh iidx) /\
  column_major sh iidx < size t /\
  (exists x, b !! column_major sh iidx = Some x /\
             at_idx t iidx h = Some x) /\
  (column_major sh iidx = column_major sh jidx -> iidx = jidx).
Proof.
  intros Ht Hi Hj.
  destruct (holds_sizes _ _ _ _ _ _ _ _ Ht Ht) as (Hp & _ & Hl & _ & Hb & _).
  assert (shape t = Some sh) as Hs by (by destruct Ht).
  assert (size t = product sh) as Hz by (by destruct Ht as (_ & _ & ? & _)).
  pose proof (idx_from_bound _ _ Hi) as Hlt.
  rewrite idx_from_column_major in Hlt.
  destruct (lookup_lt_is_Some_2 b (column_major sh iidx)) as [x Hx]; [lia|].
  unfold at_idx, idx. rewrite Hs, Hp. simpl.
  rewrite idx_from_column_major, Hl.
  split; [done|]. split; [lia|]. split; [by exists x|].
  rewrite <- !idx_from_column_major. by apply idx_from_inj.
Qed.

End indexing.

(** ** Loops that write through an index map *)

Section writing_loops.
Import TensorHpp TensorHppMatrix.
Implicit Types (h : heap) (b : list Q).

Lemma for_loop_invariant (P : nat -> heap -> Prop) body n h :
  P 0 h ->
  (forall i h', i < n -> P i h' ->
     exists h'', body i h' = Some h'' /\ P (S i) h'') ->
  exists h', for_loop n body h = Some h' /\ P n h'.
Proof.
  intros H0 Hstep. unfold for_loop. induction n as [|n IH].
  - by exists h.
  - destruct IH as (h' & Hrun & HP); [intros; apply Hstep; [lia|done]|].
    rewrite for_from_snoc, Hrun. simpl. apply Hstep; [lia|done].
Qed.

Lemma writes_S k vals n b :
  writes k vals (S n) b = <[k n := nth n vals 0%Q]> (writes k vals n b).
Proof. unfold writes. by rewrite seq_S, foldl_app. Qed.

Lemma writes_length k vals n b : length (writes k vals n b) = length b.
Proof.
  induction n as [|n IH]; [done|]. by rewrite writes_S, length_insert.
Qed.

Lemma writes_lookup_other k vals n b p :
  (forall i, i < n -> k i <> p) -> writes k vals n b !! p = b !! p.
Proof.
  induction n as [|n IH]; intros Hk; [done|].
  rewrite writes_S, list_lookup_insert_ne by (apply Hk; lia).
  apply IH. intros i Hi. apply Hk. lia.
Qed.

Lemma writes_lookup k vals n b i :
  i < n -> k i < length b -> (forall j, j < n -> k j = k i -> j = i) ->
  writes k vals n b !! k i = Some (nth i vals 0%Q).
Proof.
  induction n as [|n IH]; intros Hi Hb Hinj; [lia|].
  rewrite writes_S. destruct (decide (i = n)) as [->|Hne].
  - apply list_lookup_insert_eq. by rewrite writes_length.
  - rewrite list_lookup_insert_ne.
    + apply IH; [lia|done|]. intros j Hj. apply Hinj. lia.
    + intros Heq. apply Hne. symmetry. apply Hinj; [lia|done].
Qed.

Lemma nth_lookup_Q (l : list Q) i : i < length l -> l !! i = Some (nth i l 0%Q).
Proof.
  revert i. induction l as [|x l IH]; intros [|i] Hi; simpl in *;
    [lia|lia|done|]. apply IH. lia.
Qed.

(** Writing [vals[i]] to cell [i] for every [i] leaves [vals]. *)
Lemma writes_id vals n b :
  length b = n -> length vals = n -> writes id vals n b = vals.
Proof.
  intros Hb Hv. apply list_eq. intros i.
  destruct (decide (i < n)) as [Hi|Hi].
  - change i with (id i) at 1.
    rewrite writes_lookup; [|done|unfold id; lia|unfold id; auto].
    symmetry. apply nth_lookup_Q. lia.
  - rewrite !lookup_ge_None_2; [done|lia|rewrite writes_length; lia].
Qed.

Lemma filled_spec x n k value h lx bx vals :
  ptr x = Addr lx -> h !! lx = Some bx ->
  (forall i, i < n -> k i < length bx) ->
  (forall i b', i < n -> length b' = length bx ->
     value i (<[lx := b']> h) = Some (nth i vals 0%Q)) ->
  filled x n k value h = Ok (x, <[lx := writes k vals n bx]> h).
Proof.
  intros Hp Hl Hk Hval. unfold filled.
  edestruct (for_loop_invariant
               (fun i h' => h' = <[lx := writes k vals i bx]> h))
    as (h' & -> & ->); [| |reflexivity].
  - unfold writes. simpl. by rewrite insert_id.
  - intros i h' Hi ->. rewrite Hval by (by rewrite ?writes_length).
    unfold set_elem. rewrite Hp.
    rewrite store_insert by (rewrite writes_length; by apply Hk).
    eexists. split; [reflexivity|]. by rewrite writes_S.
Qed.

(** The sized constructors. *)
Lemma ctor_shape_dynamic l raw ds at_ raw' sz h :
  product ds = 0 -> length sz = length ds ->
  exists t,
    ctor_shape (Some (l, raw)) ds at_ raw' sz h
      = Ok (t, <[l := replicate (product sz) 0%Q]> h) /\
    holds t (<[l := replicate (product sz) 0%Q]> h) sz l
          (replicate (product sz) 0%Q) /\
    dims t = ds /\ self t = at_.
Proof.
  intros Hz Hlen. unfold ctor_shape.
  assert (isStaticSized (mkTensor ds at_ Indet Null 0 None) = false) as Hs.
  { unfold isStaticSized, _ctSize. simpl. rewrite Hz.
    apply bool_decide_eq_false. lia. }
  rewrite Hs.
  destruct (alloc_dynamic (mkTensor ds at_ Indet Null 0 None) sz l raw h
              eq_refl Hs Hlen) as (t & Ha & Ht & Hd & Hself).
  by exists t.
Qed.

Lemma ctor_shape_static reply ds at_ raw sz h :
  0 < product ds ->
  exists t,
    ctor_shape reply ds at_ raw sz h
      = Ok (t, <[at_ := replicate (product ds) 0%Q]> h) /\
    holds t (<[at_ := replicate (product ds) 0%Q]> h) ds at_
          (replicate (product ds) 0%Q) /\
    dims t = ds /\ self t = at_.
Proof.
  intros Hpos. unfold ctor_shape, alloc, isStaticSized, isAlloced, _ctSize.
  simpl. rewrite bool_decide_eq_true_2 by done.
  erewrite fill_n_whole;
    [|apply lookup_insert_eq|by rewrite length_map, length_seq].
  simpl. rewrite insert_insert_eq. eexists. split; [reflexivity|].
  split; [|done].
  unfold holds, isStaticSized, _ctSize, _nDims. simpl.
  rewrite bool_decide_eq_true_2 by done.
  rewrite lookup_insert_eq, length_replicate. done.
Qed.

(** [Vector<sz, T> x (n)] where the vector is dynamic or its fixed size is
    [n]. *)
Lemma Vector_ctor_size_holds l raw sz at_ raw' n h :
  sz = 0 \/ sz = n -> h !! at_ = None -> h !! l = None ->
  exists x d,
    Vector_ctor_size (Some (l, raw)) sz at_ raw' n h
      = Ok (x, <[d := replicate n 0%Q]> h) /\
    holds x (<[d := replicate n 0%Q]> h) [n] d (replicate n 0%Q) /\
    h !! d = None /\ dims x = [sz].
Proof.
  intros Hsz Hat Hl. unfold Vector_ctor_size.
  destruct sz as [|sz'].
  - destruct (ctor_shape_dynamic l raw [0] at_ raw' [n] h eq_refl eq_refl)
      as (t & Hc & Ht & Hd & _).
    replace (product [n]) with n in * by (simpl; lia).
    by exists t, l.
  - destruct Hsz as [|Hsz]; [done|]. rewrite Hsz.
    destruct (ctor_shape_static (Some (l, raw)) [n] at_ raw' [n] h)
      as (t & Hc & Ht & Hd & _); [simpl; lia|].
    replace (product [n]) with n in * by (simpl; lia).
    by exists t, at_.
Qed.

End writing_loops.

(** ** The class [Matrix] *)

Section matrices.
Import TensorHpp TensorHppMatrix.
Implicit Types (h : heap) (b : list Q) (m : Matrix).

Lemma product_2 r c : product [r; c] = r * c.
Proof. unfold product. simpl. lia. Qed.

Lemma product_1 n : product [n] = n.
Proof. unfold product. simpl. lia. Qed.

Lemma Matrix_ctor_holds l raw rw cl at_ raw' r c h :
  rw * cl = 0 \/ (rw = r /\ cl = c) ->
  h !! at_ = None -> h !! l = None ->
  exists m d,
    Matrix_ctor (Some (l, raw)) rw cl at_ raw' r c h
      = Ok (m, <[d := replicate (r * c) 0%Q]> h) /\
    mholds m (<[d := replicate (r * c) 0%Q]> h) r c d
           (replicate (r * c) 0%Q) /\
    h !! d = None /\ dims (base m) = [rw; cl] /\ (d = at_ \/ d = l).
Proof.
  intros Hsz Hat Hl. unfold Matrix_ctor.
  destruct (decide (rw * cl = 0)) as [Hz|Hnz].
  - destruct (ctor_shape_dynamic l raw [rw; cl] at_ raw' [r; c] h)
      as (t & Hc & Ht & Hd & _); [by rewrite product_2|done|].
    rewrite product_2 in *. rewrite Hc. simpl.
    eexists _, l. split; [reflexivity|]. split; [by split|auto].
  - destruct Hsz as [|[-> ->]]; [done|].
    destruct (ctor_shape_static (Some (l, raw)) [r; c] at_ raw' [r; c] h)
      as (t & Hc & Ht & Hd & _); [rewrite product_2; lia|].
    rewrite product_2 in *. rewrite Hc. simpl.
    eexists _, at_. split; [reflexivity|]. split; [by split|auto].
Qed.


Lemma mholds_lookup m h r c l b i j :
  mholds m h r c l b -> i < r -> j < c ->
  i + r * j < length b /\
  Matrix_at m i j h = Some (nth (i + r * j) b 0%Q).
Proof.
  intros (Ht & Hr & Hc) Hi Hj.
  destruct (holds_sizes _ _ _ _ _ _ _ _ Ht Ht) as (Hp & _ & Hl & _ & Hb & _).
  assert (length b = r * c) as Hlen.
  { apply holds_length in Ht. by rewrite product_2 in Ht. }
  assert (i + r * j < length b) as Hlt by nia.
  split; [done|]. unfold Matrix_at, load. rewrite Hp, Hl, Hr.
  by apply nth_lookup_Q.
Qed.

(** X10.  [Matrix::operator() (i, j)] addresses the element that the base class
    finds at the multi-index [{i, j}]: the offset [i + rows () * j], which is
    below [size ()]; different positions of the matrix have different
    offsets. *)
Theorem Matrix_idx_agrees m h r c l b i j i' j' :
  mholds m h r c l b -> i < r -> j < c -> i' < r -> j' < c ->
  idx (base m) [i; j] = Some (Matrix_idx m i j) /\
  Matrix_idx m i j < size (base m) /\
  Matrix_at m i j h = at_idx (base m) [i; j] h /\
  is_Some (Matrix_at m i j h) /\
  (Matrix_idx m i j = Matrix_idx m i' j' -> i = i' /\ j = j').
Proof.
  intros Hm Hi Hj Hi' Hj'.
  destruct (mholds_lookup _ _ _ _ _ _ _ _ Hm Hi Hj) as (Hlt & Hat).
  destruct Hm as (Ht & Hr & Hc).
  destruct (holds_sizes _ _ _ _ _ _ _ _ Ht Ht) as (Hp & _ & Hl & _ & Hb & _).
  assert (shape (base m) = Some [r; c]) as Hs by (by destruct Ht).
  assert (idx (base m) [i; j] = Some (Matrix_idx m i j)) as Hidx.
  { unfold idx, Matrix_idx. rewrite Hs, Hr. simpl. f_equal. lia. }
  split; [done|]. split; [unfold Matrix_idx; rewrite Hr; lia|].
  split; [unfold at_idx; by rewrite Hidx|].
  split; [by rewrite Hat|].
  unfold Matrix_idx. rewrite Hr. intros Heq.
  assert (j = j') as ->.
  { destruct (Nat.lt_trichotomy j j') as [?|[?|?]];
      [exfalso; nia|done|exfalso; nia]. }
  split; [nia|done].
Qed.

Lemma holds_vector v h n lv b :
  holds v h [n] lv b ->
  exists sz, dims v = [sz] /\ (sz = 0 \/ sz = n) /\ size v = n /\ length b = n.
Proof.
  intros Hv.
  pose proof (holds_length _ _ _ _ _ Hv) as Hb. rewrite product_1 in Hb.
  destruct Hv as (_ & Hn & Hz & _ & _ & _ & Hst).
  unfold _nDims in Hn. destruct (dims v) as [|sz [|]] eqn:Hd; try done.
  exists sz. rewrite product_1 in Hz. repeat split; try done.
  unfold isStaticSized, _ctSize in Hst. rewrite Hd, product_1 in Hst.
  case_bool_decide.
  - destruct Hst as [_ [= ->]]. by right.
  - left. lia.
Qed.

Lemma mholds_insert_other m h r c l b l' b' :
  mholds m h r c l b -> l <> l' -> mholds m (<[l' := b']> h) r c l b.
Proof. intros (Ht & ? & ?) Hne. split; [by apply holds_insert_other|done]. Qed.


Lemma nth_map_seq (f : nat -> Q) n i :
  i < n -> nth i (map f (seq 0 n)) 0%Q = f i.
Proof.
  intros Hi.
  assert (map f (seq 0 n) !! i = Some (f i)) as Hl.
  { change (map f (seq 0 n)) with (f <$> seq 0 n).
    rewrite list_lookup_fmap, lookup_seq_lt by done. done. }
  rewrite nth_lookup_Q in Hl by (by rewrite length_map, length_seq).
  congruence.
Qed.

(** X12.  [col (j)] and [row (i)] return a new vector with the elements of the
    column and of the row, read at the offsets [i + rows () * j]; the matrix
    and the rest of the store are unchanged.  The result type
    [Vector<rw, T>] of [col] (and [Vector<cl, T>] of [row]) has to be dynamic
    or of the matching fixed size. *)
Theorem Matrix_col_row l raw at_ raw' m h r c lm b rw cl :
  mholds m h r c lm b -> dims (base m) = [rw; cl] ->
  h !! at_ = None -> h !! l = None ->
  (forall j, j < c -> rw = 0 \/ rw = r ->
     exists x d vals,
       col (Some (l, raw)) at_ raw' m j h = Ok (x, <[d := vals]> h) /\
       h !! d = None /\ holds x (<[d := vals]> h) [r] d vals /\
       vals = map (fun i => nth (i + r * j) b 0%Q) (seq 0 r)) /\
  (forall i, i < r -> cl = 0 \/ cl = c ->
     exists x d vals,
       row (Some (l, raw)) at_ raw' m i h = Ok (x, <[d := vals]> h) /\
       h !! d = None /\ holds x (<[d := vals]> h) [c] d vals /\
       vals = map (fun j => nth (i + r * j) b 0%Q) (seq 0 c)).
Proof.
  intros Hm Hdims Hat Hl.
  assert (h !! lm = Some b) as Hlm.
  { destruct Hm as (Ht & _). by eapply holds_lookup. }
  pose proof Hm as (_ & Hr & Hc).
  assert (forall sz n (cell : nat -> nat) (value : nat -> heap -> option Q),
    sz = 0 \/ sz = n ->
    (forall i h', i < n -> mholds m h' r c lm b ->
       value i h' = Some (nth (cell i) b 0%Q)) ->
    exists x d vals,
      and_then (Vector_ctor_size (Some (l, raw)) sz at_ raw' n h)
        (fun st => filled (fst st) n id value (snd st))
      = Ok (x, <[d := vals]> h) /\
      h !! d = None /\ holds x (<[d := vals]> h) [n] d vals /\
      vals = map (fun i => nth (cell i) b 0%Q) (seq 0 n)) as Hgen.
  { intros sz n cell value Hsz Hval.
    destruct (Vector_ctor_size_holds l raw sz at_ raw' n h Hsz Hat Hl)
      as (x & d & Hcx & Hx & Hd & _).
    assert (lm <> d) as Hne by congruence.
    set (vals := map (fun i => nth (cell i) b 0%Q) (seq 0 n)).
    assert (length vals = n) as Hlen
      by (unfold vals; by rewrite length_map, length_seq).
    exists x, d, vals. rewrite Hcx. cbn [and_then fst snd].
    erewrite (filled_spec _ _ _ _ _ d (replicate n 0%Q) vals).
    - rewrite writes_id by (by rewrite ?length_replicate).
      rewrite insert_insert_eq. split; [done|]. split; [done|].
      split; [|done].
      replace (<[d := vals]> h)
        with (<[d := vals]> (<[d := replicate n 0%Q]> h))
        by apply insert_insert_eq.
      eapply holds_insert_self; [done|]. by rewrite length_replicate.
    - by destruct Hx as (_ & _ & _ & ? & _).
    - apply lookup_insert_eq.
    - intros i Hi. by rewrite length_replicate.
    - intros i b' Hi _. rewrite Hval; [|done|].
      + unfold vals. by rewrite nth_map_seq.
      + apply mholds_insert_other; [|done].
        by apply mholds_insert_other. }
  split.
  - intros j Hj Hrw. unfold col. rewrite Hdims. cbn [hd]. rewrite Hr.
    apply (Hgen rw r (fun i => i + r * j)); [done|].
    intros i h' Hi Hm'.
    by destruct (mholds_lookup _ _ _ _ _ _ i j Hm' Hi Hj) as (_ & ->).
  - intros i Hi Hcl. unfold row. rewrite Hdims. cbn [hd tl]. rewrite Hc.
    apply (Hgen cl c (fun j => i + r * j)); [done|].
    intros j h' Hj Hm'.
    by destruct (mholds_lookup _ _ _ _ _ _ i j Hm' Hi Hj) as (_ & ->).
Qed.

(** X13.  [asRowMatrix] returns a new matrix of shape [{1, size ()}] with the
    elements of the vector, which is unchanged. *)
Theorem asRowMatrix_copies l raw at_ raw' v h n lv b :
  holds v h [n] lv b -> h !! at_ = None -> h !! l = None ->
  exists m d,
    asRowMatrix (Some (l, raw)) at_ raw' v h = Ok (m, <[d := b]> h) /\
    h !! d = None /\ mholds m (<[d := b]> h) 1 n d b /\
    holds v (<[d := b]> h) [n] lv b.
Proof.
  intros Hv Hat Hl.
  destruct (holds_vector _ _ _ _ _ Hv) as (sz & Hdims & Hsz & Hsize & Hb).
  pose proof (holds_lookup _ _ _ _ _ Hv) as Hlv.
  assert (ptr v = Addr lv) as Hpv by (by destruct Hv as (_ & _ & _ & ? & _)).
  destruct (Matrix_ctor_holds l raw 1 sz at_ raw' 1 n h)
    as (m0 & d & Hc & Hm0 & Hd & _ & _); [|done|done|].
  { destruct Hsz as [Hz|Hz]; rewrite Hz; auto. }
  rewrite Nat.mul_1_l in *.
  assert (d <> lv) as Hdv by congruence.
  pose proof Hm0 as (Ht0 & Hr0 & Hc0).
  exists (mkMatrix (base m0) (_rows m0) (_cols m0)), d.
  unfold asRowMatrix. rewrite Hdims. cbn [hd]. rewrite Hsize, Hc.
  replace (ptr (base m0)) with (Addr d)
    by (by destruct Ht0 as (_ & _ & _ & ? & _)).
  rewrite Hpv.
  erewrite (memcpy_whole d lv n (replicate n 0%Q) b);
    [|apply lookup_insert_eq|by rewrite lookup_insert_ne
     |by rewrite length_replicate|done].
  simpl. rewrite insert_insert_eq.
  split; [done|]. split; [done|]. split.
  - split; [|done]. simpl.
    replace (<[d := b]> h) with (<[d := b]> (<[d := replicate n 0%Q]> h))
      by apply insert_insert_eq.
    eapply holds_insert_self; [done|]. by rewrite length_replicate.
  - apply holds_insert_other; [done|congruence].
Qed.

(** X14.  The initializer-list constructor of a fixed-size vector copies [sz]
    elements from the list whatever the length of the list is: a list of
    [sz] elements or more gives its first [sz] elements, a shorter list is
    read past its end. *)
Theorem Vector_ctor_list_elements sz at_ raw arr h :
  0 < sz ->
  (sz <= length arr ->
   exists x,
     Vector_ctor_list sz at_ raw arr h
       = Some (Ok (x, <[at_ := take sz arr]> h)) /\
     holds x (<[at_ := take sz arr]> h) [sz] at_ (take sz arr)) /\
  (length arr < sz -> Vector_ctor_list sz at_ raw arr h = Some Undefined).
Proof.
  intros Hpos.
  destruct (ctor_shape_static None [sz] at_ raw [length arr] h)
    as (t & Hc & Ht & _); [by rewrite product_1|].
  rewrite product_1 in *.
  assert (ptr t = Addr at_) as Hp by (by destruct Ht as (_ & _ & _ & ? & _)).
  unfold Vector_ctor_list. destruct sz as [|sz']; [lia|].
  rewrite Hc. cbn [and_then fst snd]. rewrite Hp.
  unfold memcpy_from. rewrite lookup_insert_eq, length_replicate.
  split; intros Hlen.
  - rewrite decide_True by (split; lia).
    rewrite drop_ge by (rewrite length_replicate; lia).
    rewrite app_nil_r, insert_insert_eq. simpl.
    eexists. split; [reflexivity|].
    replace (<[at_ := take (S sz') arr]> h)
      with (<[at_ := take (S sz') arr]>
              (<[at_ := replicate (S sz') 0%Q]> h))
      by apply insert_insert_eq.
    eapply holds_insert_self; [done|].
    rewrite length_take, length_replicate. lia.
  - rewrite decide_False by lia. done.
Qed.

(** X15.  The constructor from a matrix with other template arguments takes over
    the shape and [rows ()], [cols ()] of its argument, but none of its
    elements: the new (dynamic) matrix is zero. *)
Theorem Matrix_ctor_convert_is_zero l raw rw cl at_ raw' other h r c lo bo :
  mholds other h r c lo bo -> rw * cl = 0 ->
  exists m,
    Matrix_ctor_convert (Some (l, raw)) rw cl at_ raw' other h
      = Ok (m, <[l := replicate (r * c) 0%Q]> h) /\
    mholds m (<[l := replicate (r * c) 0%Q]> h) r c l
           (replicate (r * c) 0%Q).
Proof.
  intros (Ho & Hr & Hc) Hz. unfold Matrix_ctor_convert.
  replace (shape (base other)) with (Some [r; c]) by (by destruct Ho).
  cbn [defined].
  destruct (ctor_shape_dynamic l raw [rw; cl] at_ raw' [r; c] h)
    as (t & Hct & Ht & _); [by rewrite product_2|done|].
  rewrite product_2 in *. rewrite Hct. simpl.
  eexists. split; [reflexivity|]. by split.
Qed.

End matrices.

Section matrix_examples.
Import TensorHpp TensorHppMatrix.

Lemma Tensor_idx_column_major_witness :
  idx (mkTensor [2; 3] 1 Indet (Addr 1) 6 (Some [2; 3])) [1; 1] = Some 3 /\
  exists x,
    [1%Q; 2%Q; 3%Q; 4%Q; 5%Q; 6%Q] !! 3 = Some x /\
    at_idx (mkTensor [2; 3] 1 Indet (Addr 1) 6 (Some [2; 3])) [1; 1]
           {[1 := [1%Q; 2%Q; 3%Q; 4%Q; 5%Q; 6%Q]]} = Some x.
Proof.
  destruct (Tensor_idx_column_major
              (mkTensor [2; 3] 1 Indet (Addr 1) 6 (Some [2; 3]))
              {[1 := [1%Q; 2%Q; 3%Q; 4%Q; 5%Q; 6%Q]]} [2; 3] 1
              [1%Q; 2%Q; 3%Q; 4%Q; 5%Q; 6%Q] [1; 1] [0; 0])
    as (Hi & _ & Hx & _).
  - unfold holds; cbn; repeat split; reflexivity.
  - repeat constructor.
  - repeat constructor.
  - split; [exact Hi|exact Hx].
Defined.


Lemma Matrix_idx_agrees_witness :
  idx (mkTensor [2; 2] 1 Indet (Addr 1) 4 (Some [2; 2])) [1; 1]
  = Some (Matrix_idx
            (mkMatrix (mkTensor [2; 2] 1 Indet (Addr 1) 4 (Some [2; 2])) 2 2)
            1 1).
Proof.
  destruct (Matrix_idx_agrees
              (mkMatrix (mkTensor [2; 2] 1 Indet (Addr 1) 4 (Some [2; 2])) 2 2)
              {[1 := [1%Q; 2%Q; 3%Q; 4%Q]]} 2 2 1 [1%Q; 2%Q; 3%Q; 4%Q]
              1 1 0 0) as (Hidx & _).
  - unfold mholds, holds; cbn; repeat split; reflexivity.
  - lia.
  - lia.
  - lia.
  - lia.
  - exact Hidx.
Defined.


Lemma Matrix_col_row_witness :
  exists x h',
    col (Some (7, fun _ => 9%Q)) 3 (fun _ => 9%Q)
        (mkMatrix (mkTensor [2; 2] 1 Indet (Addr 1) 4 (Some [2; 2])) 2 2) 1
        {[1 := [1%Q; 2%Q; 3%Q; 4%Q]]}
    = Ok (x, h') /\
    elements x h' = Some [3%Q; 4%Q].
Proof.
  destruct (Matrix_col_row 7 (fun _ => 9%Q) 3 (fun _ => 9%Q)
              (mkMatrix (mkTensor [2; 2] 1 Indet (Addr 1) 4 (Some [2; 2])) 2 2)
              {[1 := [1%Q; 2%Q; 3%Q; 4%Q]]} 2 2 1 [1%Q; 2%Q; 3%Q; 4%Q] 2 2)
    as (Hcol & _).
  - unfold mholds, holds; cbn; repeat split; reflexivity.
  - reflexivity.
  - reflexivity.
  - reflexivity.
  - destruct (Hcol 1) as (x & d & vals & Hc & _ & Hx & Hvals).
    + lia.
    + right. reflexivity.
    + exists x, (<[d := vals]> {[1 := [1%Q; 2%Q; 3%Q; 4%Q]]}).
      split; [exact Hc|].
      rewrite (holds_elements _ _ _ _ _ Hx). rewrite Hvals. reflexivity.
Defined.

Lemma asRowMatrix_copies_witness :
  exists m d,
    asRowMatrix (Some (7, fun _ => 9%Q)) 3 (fun _ => 9%Q)
      (mkTensor [0] 1 (Addr 5) (Addr 5) 2 (Some [2])) {[5 := [5%Q; 7%Q]]}
    = Ok (m, <[d := [5%Q; 7%Q]]> {[5 := [5%Q; 7%Q]]}) /\
    rows m = 1 /\ cols m = 2.
Proof.
  destruct (asRowMatrix_copies 7 (fun _ => 9%Q) 3 (fun _ => 9%Q)
              (mkTensor [0] 1 (Addr 5) (Addr 5) 2 (Some [2]))
              {[5 := [5%Q; 7%Q]]} 2 5 [5%Q; 7%Q])
    as (m & d & Hc & _ & (_ & Hr & Hcl) & _).
  - unfold holds; cbn; repeat split; reflexivity.
  - reflexivity.
  - reflexivity.
  - exists m, d. split; [exact Hc|]. split; [exact Hr|exact Hcl].
Defined.

Lemma Vector_ctor_list_elements_witness :
  (exists x,
     Vector_ctor_list 2 1 (fun _ => 9%Q) [5%Q; 7%Q; 8%Q] ∅
     = Some (Ok (x, <[1 := [5%Q; 7%Q]]> ∅))) /\
  Vector_ctor_list 2 1 (fun _ => 9%Q) [5%Q] ∅ = Some Undefined.
Proof.
  split.
  - destruct (Vector_ctor_list_elements 2 1 (fun _ => 9%Q) [5%Q; 7%Q; 8%Q] ∅)
      as (Hlong & _).
    + lia.
    + destruct Hlong as (x & Hc & _).
      * simpl. lia.
      * exists x. exact Hc.
  - destruct (Vector_ctor_list_elements 2 1 (fun _ => 9%Q) [5%Q] ∅)
      as (_ & Hshort).
    + lia.
    + apply Hshort. simpl. lia.
Defined.

Lemma Matrix_ctor_convert_is_zero_witness :
  exists m,
    Matrix_ctor_convert (Some (7, fun _ => 9%Q)) 0 0 3 (fun _ => 9%Q)
      (mkMatrix (mkTensor [2; 2] 1 Indet (Addr 1) 4 (Some [2; 2])) 2 2)
      {[1 := [1%Q; 2%Q; 3%Q; 4%Q]]}
    = Ok (m, <[7 := replicate (2 * 2) 0%Q]> {[1 := [1%Q; 2%Q; 3%Q; 4%Q]]}).
Proof.
  destruct (Matrix_ctor_convert_is_zero 7 (fun _ => 9%Q) 0 0 3 (fun _ => 9%Q)
              (mkMatrix (mkTensor [2; 2] 1 Indet (Addr 1) 4 (Some [2; 2])) 2 2)
              {[1 := [1%Q; 2%Q; 3%Q; 4%Q]]} 2 2 1 [1%Q; 2%Q; 3%Q; 4%Q])
    as (m & Hc & _).
  - unfold mholds, holds; cbn; repeat split; reflexivity.
  - reflexivity.
  - exists m. exact Hc.
Defined.

End matrix_examples.

(** ** Norms and products of TensorMath.hpp *)

Section accumulation.
Import TensorHpp TensorMath.
Implicit Types (h : heap) (b : list Q).

Lemma accumulate_from_spec {A : Type} (f : A -> Q -> A) l b h :
  h !! l = Some b ->
  forall n i acc, i + n = length b ->
    accumulate_from i n f acc (Addr l) h = Some (foldl f acc (drop i b)).
Proof.
  intros Hl. induction n as [|n IH]; intros i acc Hn; simpl.
  - by rewrite drop_ge by lia.
  - rewrite Hl. destruct (lookup_lt_is_Some_2 b i) as [x Hx]; [lia|].
    rewrite Hx, IH by lia.
    by rewrite (drop_S _ _ _ Hx).
Qed.

Lemma accumulate_spec {A : Type} (f : A -> Q -> A) init x h sh l b :
  holds x h sh l b -> accumulate f init x h = Some (foldl f init b).
Proof.
  intros Hx.
  destruct (holds_sizes _ _ _ _ _ _ _ _ Hx Hx) as (Hp & _ & Hl & _ & Hb & _).
  unfold accumulate. rewrite Hp.
  by rewrite (accumulate_from_spec f l b h Hl (size x) 0 init) by lia.
Qed.

Lemma dot_from_spec l1 l2 b1 b2 h :
  h !! l1 = Some b1 -> h !! l2 = Some b2 -> length b1 <= length b2 ->
  forall n i sum, i + n = length b1 ->
    dot_from i n sum (Addr l1) (Addr l2) h
    = Some (foldl (fun s p => s + fst p * snd p)%Q sum
                  (zip (drop i b1) (drop i b2))).
Proof.
  intros H1 H2 Hle. induction n as [|n IH]; intros i sum Hn; simpl.
  - by rewrite (drop_ge b1) by lia.
  - rewrite H1, H2.
    destruct (lookup_lt_is_Some_2 b1 i) as [x Hx]; [lia|].
    destruct (lookup_lt_is_Some_2 b2 i) as [y Hy]; [lia|].
    rewrite Hx, Hy, IH by lia.
    by rewrite (drop_S _ _ _ Hx), (drop_S _ _ _ Hy).
Qed.

Lemma dot_from_short l1 l2 b1 b2 h :
  h !! l1 = Some b1 -> h !! l2 = Some b2 -> length b2 < length b1 ->
  forall n i sum, i + n = length b1 -> i <= length b2 ->
    dot_from i n sum (Addr l1) (Addr l2) h = None.
Proof.
  intros H1 H2 Hlt. induction n as [|n IH]; intros i sum Hn Hi; simpl.
  - lia.
  - rewrite H1, H2.
    destruct (lookup_lt_is_Some_2 b1 i) as [x Hx]; [lia|]. rewrite Hx.
    destruct (decide (i < length b2)) as [Hi2|Hi2].
    + destruct (lookup_lt_is_Some_2 b2 i) as [y Hy]; [lia|].
      rewrite Hy. apply IH; lia.
    + by rewrite (lookup_ge_None_2 b2 i) by lia.
Qed.

(** Two accumulations over related lists keep a relation between their
    accumulators. *)
Lemma foldl_rel2 {A B X Y : Type} (R : A -> B -> Prop) (P : X -> Y -> Prop)
    (f : A -> X -> A) (g : B -> Y -> B) :
  (forall u w x y, R u w -> P x y -> R (f u x) (g w y)) ->
  forall l1 l2, Forall2 P l1 l2 ->
  forall u w, R u w -> R (foldl f u l1) (foldl g w l2).
Proof.
  intros Hstep l1 l2 HP. induction HP as [|x y l1 l2 Hxy _ IH]; intros u w HR.
  - done.
  - simpl. apply IH. by apply Hstep.
Qed.

Lemma Forall2_diag {X : Type} (l : list X) : Forall2 eq l l.
Proof. induction l; constructor; auto. Qed.

End accumulation.

Section norms.
Import TensorHpp TensorMath.
Implicit Types (h : heap) (b : list Q).
Local Open Scope Q_scope.

Lemma std_max_cases a c :
  a <= std_max a c /\ c <= std_max a c /\
  (std_max a c = a \/ std_max a c = c).
Proof. unfold std_max. destruct (Qlt_le_dec a c); repeat split; auto; lra. Qed.

Lemma Qabs_square x : Qabs x * Qabs x == x * x.
Proof.
  rewrite <- Qabs_Qmult. apply Qabs_pos. nra.
Qed.

Lemma normInf_fold b : forall m,
  0 <= m ->
  let r := foldl (fun mmax xi => std_max mmax (Qabs xi)) m b in
  m <= r /\ Forall (fun xi => Qabs xi <= r) b /\
  (r = m \/ Exists (fun xi => r = Qabs xi) b).
Proof.
  induction b as [|x b IH]; intros m Hm; simpl.
  - split; [lra|]. split; [constructor|by left].
  - destruct (std_max_cases m (Qabs x)) as (Hl & Hr & Hc).
    destruct (IH (std_max m (Qabs x))) as (Hle & Hall & Hex); [lra|].
    split; [lra|]. split.
    + constructor; [lra|done].
    + destruct Hex as [->|Hex]; [|by right; constructor].
      destruct Hc as [->| ->]; [by left|right; by constructor].
Qed.

Lemma sumsq_zero b : forall s,
  0 <= s ->
  let r := foldl (fun sumsq xi => sumsq + xi * xi) s b in
  0 <= r /\ (r == 0 <-> s == 0 /\ Forall (fun xi => xi == 0) b).
Proof.
  induction b as [|x b IH]; intros s Hs; simpl.
  - split; [done|]. split; [by intros ?; split|by intros [? _]].
  - assert (0 <= x * x) as Hxx by nra.
    destruct (IH (s + x * x)) as (Hr & Hiff); [lra|].
    split; [done|]. rewrite Hiff. split.
    + intros [Hz Hall]. split; [lra|]. constructor; [|done]. nra.
    + intros [Hz Hall]. inversion Hall as [|? ? Hx Hb]; subst.
      split; [|done]. rewrite Hx. lra.
Qed.

Lemma count_nonzero b : forall c : nat,
  foldl (fun nonZero xi => if Qeq_dec xi 0 then nonZero else S nonZero) c b
  = (c + length (filter (fun xi => ~ xi == 0) b))%nat.
Proof.
  induction b as [|x b IH]; intros c; simpl; [lia|].
  rewrite IH, filter_cons. destruct (Qeq_dec x 0) as [Hx|Hx].
  - rewrite decide_False by (intros H; by apply H). done.
  - rewrite decide_True by done. simpl. lia.
Qed.

Lemma normNegInf_fold b : forall m,
  let r := foldl (fun mmin xi => std_min mmin (Qabs xi)) m b in
  r <= m /\ Forall (fun xi => r <= Qabs xi) b /\
  (r = m \/ Exists (fun xi => r = Qabs xi) b).
Proof.
  induction b as [|x b IH]; intros m; simpl.
  - split; [lra|]. split; [constructor|by left].
  - destruct (IH (std_min m (Qabs x))) as (Hle & Hall & Hex).
    assert (std_min m (Qabs x) <= m /\ std_min m (Qabs x) <= Qabs x /\
            (std_min m (Qabs x) = m \/ std_min m (Qabs x) = Qabs x))
      as (Hl & Hr & Hc).
    { unfold std_min. destruct (Qlt_le_dec (Qabs x) m); repeat split; auto; lra. }
    split; [lra|]. split.
    + constructor; [lra|done].
    + destruct Hex as [->|Hex]; [|by right; constructor].
      destruct Hc as [->| ->]; [by left|right; by constructor].
Qed.

Lemma filter_nonzero_nil b :
  Forall (fun xi => xi == 0) b <-> filter (fun xi => ~ xi == 0) b = [].
Proof.
  split.
  - intros Hall. induction Hall as [|xi b' Hxi _ IH]; [done|].
    rewrite filter_cons, decide_False by (intros H; by apply H). done.
  - intros Hnil. apply Forall_forall. intros xi Hin.
    destruct (Qeq_dec xi 0) as [|Hne]; [done|].
    assert (xi ∈ filter (fun xi => ~ xi == 0) b) as Habs
      by (apply list_elem_of_filter; split; done).
    rewrite Hnil in Habs. by apply not_elem_of_nil in Habs.
Qed.

(** X16.  The norms of an allocated vector: [normInf] bounds the absolute value of
    every element and is 0 or the absolute value of one of them;
    [normNegInf] is below the absolute value of every element and is
    [std::numeric_limits<T>::max ()] or the absolute value of one of them;
    and [normInf <= norm1], [normInf^2 <= norm2Sq <= norm1^2]. *)
Theorem norm_inequalities maxval x h n l b :
  holds x h [n] l b ->
  exists n1 n2 ninf nneg,
    norm1 x h = Some n1 /\ norm2Sq x h = Some n2 /\
    normInf x h = Some ninf /\ normNegInf maxval x h = Some nneg /\
    Forall (fun xi => Qabs xi <= ninf) b /\
    (ninf = 0 \/ Exists (fun xi => ninf = Qabs xi) b) /\
    Forall (fun xi => nneg <= Qabs xi) b /\
    (nneg = maxval \/ Exists (fun xi => nneg = Qabs xi) b) /\
    0 <= ninf /\ ninf <= n1 /\ ninf * ninf <= n2 /\ n2 <= n1 * n1.
Proof.
  intros Hx. unfold norm1, norm2Sq, normInf, normNegInf.
  rewrite !(accumulate_spec _ _ _ _ _ _ _ Hx).
  eexists _, _, _, _.
  split; [done|]. split; [done|]. split; [done|]. split; [done|].
  destruct (normInf_fold b 0) as (Hle & Hall & Hex); [lra|].
  destruct (normNegInf_fold b maxval) as (_ & Hall' & Hex').
  split; [done|]. split; [done|]. split; [done|]. split; [done|].
  split; [done|].
  split; [|split].
  - eapply (foldl_rel2 (fun m a => 0 <= m /\ m <= a) eq);
      [|apply Forall2_diag|lra].
    intros m a xi ? [H0 Hm] <-.
    pose proof (Qabs_nonneg xi).
    destruct (std_max_cases m (Qabs xi)) as (_ & _ & [-> | ->]); lra.
  - eapply (foldl_rel2 (fun m s => 0 <= m /\ m * m <= s) eq);
      [|apply Forall2_diag|lra].
    intros m s xi ? [H0 Hm] <-.
    pose proof (Qabs_nonneg xi). pose proof (Qabs_square xi).
    destruct (std_max_cases m (Qabs xi)) as (_ & _ & [-> | ->]);
      split; try lra; nra.
  - eapply (foldl_rel2 (fun s a => 0 <= a /\ s <= a * a) eq);
      [|apply Forall2_diag|lra].
    intros s a xi ? [H0 Hs] <-.
    pose proof (Qabs_nonneg xi). pose proof (Qabs_square xi).
    split; [lra|]. nra.
Qed.

(** X17.  [norm0] is the number of elements that are not zero: it is at most
    [size ()], and it is 0 exactly when every element is zero, in which case
    [norm2Sq] is 0 as well. *)
Theorem norm0_counts x h n l b :
  holds x h [n] l b ->
  norm0 x h
    = Some (inject_Z (Z.of_nat (length (filter (fun xi => ~ xi == 0) b)))) /\
  (length (filter (fun xi => ~ xi == 0) b) <= n)%nat /\
  (length (filter (fun xi => ~ xi == 0) b) = 0%nat
   <-> Forall (fun xi => xi == 0) b) /\
  (Forall (fun xi => xi == 0) b ->
   exists n2, norm2Sq x h = Some n2 /\ n2 == 0).
Proof.
  intros Hx. unfold norm0, norm2Sq.
  rewrite !(accumulate_spec _ _ _ _ _ _ _ Hx).
  rewrite count_nonzero. simpl.
  destruct (holds_vector _ _ _ _ _ Hx) as (_ & _ & _ & _ & Hb).
  destruct (sumsq_zero b 0) as (_ & Hiff); [lra|].
  assert (foldl (fun sumsq xi => sumsq + xi * xi) 0 b == 0
          <-> Forall (fun xi => xi == 0) b) as Hz.
  { rewrite Hiff. split; [by intros [_ ?]|by split]. }
  split; [done|]. split.
  { rewrite <- Hb. apply length_filter. }
  split.
  { rewrite length_zero_iff_nil. symmetry. apply filter_nonzero_nil. }
  intros Hall. eexists. split; [done|]. by apply Hz.
Qed.

End norms.

Section products.
Import TensorHpp TensorMath.
Implicit Types (h : heap) (b : list Q).
Local Open Scope Q_scope.

Lemma dot_holds x1 x2 h n1 n2 l1 l2 b1 b2 :
  holds x1 h [n1] l1 b1 -> holds x2 h [n2] l2 b2 -> (n1 <= n2)%nat ->
  dot x1 x2 h
  = Some (foldl (fun s p => s + fst p * snd p) 0 (zip b1 b2)).
Proof.
  intros H1 H2 Hle.
  destruct (holds_vector _ _ _ _ _ H1) as (_ & _ & _ & Hs1 & Hb1).
  destruct (holds_vector _ _ _ _ _ H2) as (_ & _ & _ & Hs2 & Hb2).
  unfold dot.
  replace (ptr x1) with (Addr l1) by (by destruct H1 as (_ & _ & _ & ? & _)).
  replace (ptr x2) with (Addr l2) by (by destruct H2 as (_ & _ & _ & ? & _)).
  by rewrite (dot_from_spec l1 l2 b1 b2 h) by
    (eauto using holds_lookup; lia).
Qed.

Lemma zip_swap b1 : forall b2,
  Forall2 (fun p q : Q * Q => fst p = snd q /\ snd p = fst q)
          (zip b1 b2) (zip b2 b1).
Proof.
  induction b1 as [|x b1 IH]; intros [|y b2]; simpl; constructor; auto.
Qed.

Lemma dot_diag b : forall s,
  foldl (fun s p => s + fst p * snd p) s (zip b b)
  = foldl (fun sumsq xi => sumsq + xi * xi) s b.
Proof. induction b as [|x b IH]; intros s; simpl; [done|]. by rewrite IH. Qed.

(** X18.  [dot] has no size check: it runs over the length of its first
    argument.  With a second argument at least as long it returns the sum
    of the products of the leading elements; with a shorter one it reads
    past the end of its buffer.  On vectors of one length it is symmetric,
    and [dot (x, x)] is [norm2Sq (x)]. *)
Theorem dot_of_vectors x1 x2 h n1 n2 l1 l2 b1 b2 :
  holds x1 h [n1] l1 b1 -> holds x2 h [n2] l2 b2 ->
  ((n1 <= n2)%nat ->
   dot x1 x2 h
   = Some (foldl (fun s p => s + fst p * snd p) 0 (zip b1 b2))) /\
  ((n2 < n1)%nat -> dot x1 x2 h = None) /\
  (n1 = n2 ->
   exists d d', dot x1 x2 h = Some d /\ dot x2 x1 h = Some d' /\ d == d') /\
  dot x1 x1 h = norm2Sq x1 h.
Proof.
  intros H1 H2.
  destruct (holds_vector _ _ _ _ _ H1) as (_ & _ & _ & Hs1 & Hb1).
  destruct (holds_vector _ _ _ _ _ H2) as (_ & _ & _ & Hs2 & Hb2).
  split; [|split; [|split]].
  - intros Hle. by eapply dot_holds.
  - intros Hlt. unfold dot.
    replace (ptr x1) with (Addr l1) by (by destruct H1 as (_ & _ & _ & ? & _)).
    replace (ptr x2) with (Addr l2) by (by destruct H2 as (_ & _ & _ & ? & _)).
    apply (dot_from_short l1 l2 b1 b2 h);
      eauto using holds_lookup; lia.
  - intros Heq.
    rewrite (dot_holds _ _ _ _ _ _ _ _ _ H1 H2) by lia.
    rewrite (dot_holds _ _ _ _ _ _ _ _ _ H2 H1) by lia.
    eexists _, _. split; [done|]. split; [done|].
    eapply (foldl_rel2 Qeq (fun p q : Q * Q => fst p = snd q /\ snd p = fst q));
      [|apply zip_swap|reflexivity].
    intros u w [p1 p2] [q1 q2] Huw [Hp Hq]. simpl in *. subst. rewrite Huw. ring.
  - rewrite (dot_holds _ _ _ _ _ _ _ _ _ H1 H1) by lia.
    unfold norm2Sq. rewrite (accumulate_spec _ _ _ _ _ _ _ H1).
    by rewrite dot_diag.
Qed.

Lemma holds_3 v h l b :
  holds v h [3%nat] l b -> exists a0 a1 a2, b = [a0; a1; a2].
Proof.
  intros Hv. destruct (holds_vector _ _ _ _ _ Hv) as (_ & _ & _ & _ & Hb).
  destruct b as [|a0 [|a1 [|a2 [|]]]]; try done. by exists a0, a1, a2.
Qed.

Lemma holds_2 v h l b :
  holds v h [2%nat] l b -> exists a0 a1, b = [a0; a1].
Proof.
  intros Hv. destruct (holds_vector _ _ _ _ _ Hv) as (_ & _ & _ & _ & Hb).
  destruct b as [|a0 [|a1 [|]]]; try done. by exists a0, a1.
Qed.

Lemma crossTo_holds x v1 v2 h lx bx l1 l2 a0 a1 a2 e0 e1 e2 :
  holds x h [3%nat] lx bx ->
  holds v1 h [3%nat] l1 [a0; a1; a2] -> holds v2 h [3%nat] l2 [e0; e1; e2] ->
  lx <> l1 -> lx <> l2 ->
  crossTo x v1 v2 h
  = Some (<[lx := [a1 * e2 - a2 * e1; a2 * e0 - a0 * e2;
                   a0 * e1 - a1 * e0]]> h).
Proof.
  intros Hx H1 H2 Hn1 Hn2.
  destruct (holds_3 _ _ _ _ Hx) as (x0 & x1 & x2 & ->).
  pose proof (holds_lookup _ _ _ _ _ Hx) as Hlx.
  pose proof (holds_lookup _ _ _ _ _ H1) as Hl1.
  pose proof (holds_lookup _ _ _ _ _ H2) as Hl2.
  unfold crossTo, cross_component, get_elem, set_elem, load, store.
  replace (ptr x) with (Addr lx) by (by destruct Hx as (_ & _ & _ & ? & _)).
  replace (ptr v1) with (Addr l1) by (by destruct H1 as (_ & _ & _ & ? & _)).
  replace (ptr v2) with (Addr l2) by (by destruct H2 as (_ & _ & _ & ? & _)).
  rewrite Hl1, Hl2, Hlx. simpl.
  rewrite !lookup_insert_eq, !lookup_insert_ne, Hl1, Hl2 by done. simpl.
  rewrite !lookup_insert_eq, !lookup_insert_ne, Hl1, Hl2 by done. simpl.
  by rewrite !insert_insert_eq.
Qed.

Lemma cross_holds at_ raw v1 v2 h l1 l2 a0 a1 a2 e0 e1 e2 :
  holds v1 h [3%nat] l1 [a0; a1; a2] -> holds v2 h [3%nat] l2 [e0; e1; e2] ->
  h !! at_ = None ->
  exists x,
    cross at_ raw v1 v2 h
    = Ok (x, <[at_ := [a1 * e2 - a2 * e1; a2 * e0 - a0 * e2;
                       a0 * e1 - a1 * e0]]> h) /\
    holds x (<[at_ := [a1 * e2 - a2 * e1; a2 * e0 - a0 * e2;
                       a0 * e1 - a1 * e0]]> h) [3%nat] at_
          [a1 * e2 - a2 * e1; a2 * e0 - a0 * e2; a0 * e1 - a1 * e0] /\
    dims x = [3%nat] /\ self x = at_.
Proof.
  intros H1 H2 Hat.
  assert (at_ <> l1) as Hn1 by (apply holds_lookup in H1; congruence).
  assert (at_ <> l2) as Hn2 by (apply holds_lookup in H2; congruence).
  destruct (ctor_shape_static None [3%nat] at_ raw [0%nat] h)
    as (x & Hc & Hx & Hd & Hs); [simpl; lia|].
  rewrite product_1 in *.
  assert (ctor_default [3%nat] at_ raw h
          = Ok (x, <[at_ := replicate 3 0]> h)) as Hdef by exact Hc.
  exists x. unfold cross. rewrite Hdef. cbn [and_then fst snd].
  erewrite crossTo_holds;
    [|done|by apply holds_insert_other|by apply holds_insert_other
     |done|done].
  simpl. rewrite insert_insert_eq. split; [done|]. split; [|done].
  match goal with |- holds _ (<[_ := ?c]> _) _ _ _ =>
    replace (<[at_ := c]> h) with (<[at_ := c]> (<[at_ := replicate 3 0]> h))
      by apply insert_insert_eq
  end.
  by eapply holds_insert_self.
Qed.

(** X19.  For [v1 = {a0, a1, a2}] and [v2 = {e0, e1, e2}], [cross] returns a
    new [Vector3], in the block of the local, holding
    [{a1 e2 - a2 e1, a2 e0 - a0 e2, a0 e1 - a1 e0}]; exchanging the
    arguments negates every component, and [crossTo] into a third vector
    stores the same three numbers.  The arguments may be one and the same
    vector. *)
Theorem cross_product at_ raw v1 v2 h l1 l2 a0 a1 a2 e0 e1 e2 :
  holds v1 h [3%nat] l1 [a0; a1; a2] -> holds v2 h [3%nat] l2 [e0; e1; e2] ->
  h !! at_ = None ->
  let c := [a1 * e2 - a2 * e1; a2 * e0 - a0 * e2; a0 * e1 - a1 * e0] in
  exists x,
    cross at_ raw v1 v2 h = Ok (x, <[at_ := c]> h) /\
    holds x (<[at_ := c]> h) [3%nat] at_ c /\
    (exists x' c',
       cross at_ raw v2 v1 h = Ok (x', <[at_ := c']> h) /\
       Forall2 (fun p q => q == - p) c c') /\
    (forall y ly yb,
       holds y h [3%nat] ly yb -> ly <> l1 -> ly <> l2 ->
       crossTo y v1 v2 h = Some (<[ly := c]> h)).
Proof.
  intros H1 H2 Hat c.
  assert (at_ <> l1) as Hn1 by (apply holds_lookup in H1; congruence).
  assert (at_ <> l2) as Hn2 by (apply holds_lookup in H2; congruence).
  destruct (ctor_default_static [3%nat] at_ raw h) as (x & h0 & Hc & Hx & Hfr);
    [simpl; lia|].
  assert (forall u w lu lw (bu bw : list Q),
    holds u h [3%nat] lu bu -> holds w h [3%nat] lw bw ->
    holds u h0 [3%nat] lu bu /\ holds w h0 [3%nat] lw bw) as Hframe.
  { intros u w lu lw bu bw Hu Hw.
    split; (eapply holds_agree; [done|]); apply Hfr;
      [apply holds_lookup in Hu|apply holds_lookup in Hw]; congruence. }
  assert (forall l, h0 !! l = (<[at_ := replicate 3 0]> h) !! l) as Hh0.
  { intros l. destruct (decide (l = at_)) as [->|Hne].
    - rewrite lookup_insert_eq. by apply holds_lookup in Hx.
    - rewrite lookup_insert_ne by done. by apply Hfr. }
  apply map_eq in Hh0. subst h0.
  assert (forall (u w : Tensor) lu lw u0 u1 u2 w0 w1 w2,
    holds u h [3%nat] lu [u0; u1; u2] -> holds w h [3%nat] lw [w0; w1; w2] ->
    cross at_ raw u w h
    = Ok (x, <[at_ := [u1 * w2 - u2 * w1; u2 * w0 - u0 * w2;
                       u0 * w1 - u1 * w0]]> h)) as Hcross.
  { intros u w lu lw u0 u1 u2 w0 w1 w2 Hu Hw.
    destruct (Hframe u w _ _ _ _ Hu Hw) as (Hu' & Hw').
    unfold cross. rewrite Hc. cbn [and_then fst snd].
    erewrite crossTo_holds; [|done|done|done| |].
    - simpl. by rewrite insert_insert_eq.
    - apply holds_lookup in Hu. congruence.
    - apply holds_lookup in Hw. congruence. }
  assert (holds x (<[at_ := c]> h) [3%nat] at_ c) as Hxc.
  { replace (<[at_ := c]> h) with (<[at_ := c]> (<[at_ := replicate 3 0]> h))
      by apply insert_insert_eq.
    by eapply holds_insert_self. }
  exists x. split; [by eapply Hcross|]. split; [done|]. split.
  - eexists x, _. split; [by eapply Hcross|].
    unfold c. repeat constructor; ring.
  - intros y ly yb Hy Hy1 Hy2. by eapply crossTo_holds.
Qed.

(** X20.  [crossSign] answers 1 or -1, and 1 exactly when
    [v2[0] * v1[1] - v2[1] * v1[0]] is positive; it is -1 in both orders of
    the arguments exactly when that determinant is 0. *)
Theorem crossSign_values v1 v2 h l1 l2 b1 b2 :
  holds v1 h [2%nat] l1 b1 -> holds v2 h [2%nat] l2 b2 ->
  exists s s' a0 a1 c0 c1,
    b1 = [a0; a1] /\ b2 = [c0; c1] /\
    crossSign v1 v2 h = Some s /\ crossSign v2 v1 h = Some s' /\
    (s = 1%Z \/ s = (-1)%Z) /\
    (s = 1%Z <-> 0 < c0 * a1 - c1 * a0) /\
    (s = 1%Z -> s' = (-1)%Z) /\
    (s = (-1)%Z /\ s' = (-1)%Z <-> c0 * a1 - c1 * a0 == 0).
Proof.
  intros H1 H2.
  destruct (holds_2 _ _ _ _ H1) as (a0 & a1 & ->).
  destruct (holds_2 _ _ _ _ H2) as (c0 & c1 & ->).
  pose proof (holds_lookup _ _ _ _ _ H1) as Hl1.
  pose proof (holds_lookup _ _ _ _ _ H2) as Hl2.
  unfold crossSign, get_elem, load.
  replace (ptr v1) with (Addr l1) by (by destruct H1 as (_ & _ & _ & ? & _)).
  replace (ptr v2) with (Addr l2) by (by destruct H2 as (_ & _ & _ & ? & _)).
  rewrite Hl1, Hl2. simpl.
  eexists _, _, a0, a1, c0, c1.
  split; [done|]. split; [done|]. split; [done|]. split; [done|].
  destruct (Qlt_le_dec 0 (c0 * a1 - c1 * a0)) as [Hp|Hp];
    destruct (Qlt_le_dec 0 (a0 * c1 - a1 * c0)) as [Hq|Hq].
  - exfalso. lra.
  - split; [by left|]. split; [by split|]. split; [done|].
    split; [intros [[=] _]|intros Hz; exfalso; lra].
  - split; [by right|].
    split; [split; [discriminate|intros; exfalso; lra]|].
    split; [discriminate|].
    split; [intros [_ [=]]|intros Hz; exfalso; lra].
  - split; [by right|].
    split; [split; [discriminate|intros; exfalso; lra]|].
    split; [discriminate|].
    split; [intros _; lra|done].
Qed.

End products.

Section math_examples.
Import TensorHpp TensorMath.
Local Open Scope Q_scope.

Lemma norm_inequalities_witness :
  exists n1 n2 ninf,
    norm1 (mkTensor [2%nat] 1%nat Indet (Addr 1%nat) 2 (Some [2%nat]))
          {[1%nat := [3; -4]]} = Some n1 /\
    norm2Sq (mkTensor [2%nat] 1%nat Indet (Addr 1%nat) 2 (Some [2%nat]))
            {[1%nat := [3; -4]]} = Some n2 /\
    normInf (mkTensor [2%nat] 1%nat Indet (Addr 1%nat) 2 (Some [2%nat]))
            {[1%nat := [3; -4]]} = Some ninf /\
    ninf <= n1 /\ ninf * ninf <= n2 /\ n2 <= n1 * n1.
Proof.
  destruct (norm_inequalities 1000
              (mkTensor [2%nat] 1%nat Indet (Addr 1%nat) 2 (Some [2%nat]))
              {[1%nat := [3; -4]]} 2 1%nat [3; -4])
    as (n1 & n2 & ninf & nneg & H1 & H2 & H3 & _ & _ & _ & _ & _ & _
        & Ha & Hb & Hc).
  - unfold holds; cbn; repeat split; reflexivity.
  - exists n1, n2, ninf. split; [exact H1|]. split; [exact H2|].
    split; [exact H3|]. split; [exact Ha|]. split; [exact Hb|exact Hc].
Defined.

Lemma norm0_counts_witness :
  norm0 (mkTensor [3%nat] 1%nat Indet (Addr 1%nat) 3 (Some [3%nat]))
        {[1%nat := [3; 0; -4]]}
  = Some (inject_Z (Z.of_nat
            (length (filter (fun xi => ~ xi == 0) [3; 0; -4])))).
Proof.
  destruct (norm0_counts
              (mkTensor [3%nat] 1%nat Indet (Addr 1%nat) 3 (Some [3%nat]))
              {[1%nat := [3; 0; -4]]} 3 1%nat [3; 0; -4])
    as (H0 & _).
  - unfold holds; cbn; repeat split; reflexivity.
  - exact H0.
Defined.

Lemma dot_of_vectors_witness :
  dot (mkTensor [3%nat] 1%nat Indet (Addr 1%nat) 3 (Some [3%nat]))
      (mkTensor [2%nat] 2%nat Indet (Addr 2%nat) 2 (Some [2%nat]))
      {[1%nat := [1; 2; 3]; 2%nat := [4; 5]]} = None /\
  is_Some (dot (mkTensor [2%nat] 2%nat Indet (Addr 2%nat) 2 (Some [2%nat]))
               (mkTensor [3%nat] 1%nat Indet (Addr 1%nat) 3 (Some [3%nat]))
               {[1%nat := [1; 2; 3]; 2%nat := [4; 5]]}).
Proof.
  split.
  - destruct (dot_of_vectors
                (mkTensor [3%nat] 1%nat Indet (Addr 1%nat) 3 (Some [3%nat]))
                (mkTensor [2%nat] 2%nat Indet (Addr 2%nat) 2 (Some [2%nat]))
                {[1%nat := [1; 2; 3]; 2%nat := [4; 5]]}
                3 2 1%nat 2%nat [1; 2; 3] [4; 5]) as (_ & Hshort & _).
    + unfold holds; cbn; repeat split; reflexivity.
    + unfold holds; cbn; repeat split; reflexivity.
    + apply Hshort. lia.
  - destruct (dot_of_vectors
                (mkTensor [2%nat] 2%nat Indet (Addr 2%nat) 2 (Some [2%nat]))
                (mkTensor [3%nat] 1%nat Indet (Addr 1%nat) 3 (Some [3%nat]))
                {[1%nat := [1; 2; 3]; 2%nat := [4; 5]]}
                2 3 2%nat 1%nat [4; 5] [1; 2; 3]) as (Hlong & _).
    + unfold holds; cbn; repeat split; reflexivity.
    + unfold holds; cbn; repeat split; reflexivity.
    + rewrite Hlong by lia. eexists. reflexivity.
Defined.

Lemma cross_product_witness :
  exists x,
    cross 3%nat (fun _ => 9)
          (mkTensor [3%nat] 1%nat Indet (Addr 1%nat) 3 (Some [3%nat]))
          (mkTensor [3%nat] 2%nat Indet (Addr 2%nat) 3 (Some [3%nat]))
          {[1%nat := [2; 3; 4]; 2%nat := [5; 6; 7]]}
    = Ok (x, <[3%nat := [-3; 6; -3]]>
               {[1%nat := [2; 3; 4]; 2%nat := [5; 6; 7]]}).
Proof.
  destruct (cross_product 3%nat (fun _ => 9)
              (mkTensor [3%nat] 1%nat Indet (Addr 1%nat) 3 (Some [3%nat]))
              (mkTensor [3%nat] 2%nat Indet (Addr 2%nat) 3 (Some [3%nat]))
              {[1%nat := [2; 3; 4]; 2%nat := [5; 6; 7]]}
              1%nat 2%nat 2 3 4 5 6 7)
    as (x & Hc & _).
  - unfold holds; cbn; repeat split; reflexivity.
  - unfold holds; cbn; repeat split; reflexivity.
  - reflexivity.
  - exists x. exact Hc.
Defined.

Lemma crossSign_values_witness :
  exists s,
    crossSign (mkTensor [2%nat] 1%nat Indet (Addr 1%nat) 2 (Some [2%nat]))
              (mkTensor [2%nat] 2%nat Indet (Addr 2%nat) 2 (Some [2%nat]))
              {[1%nat := [1; 2]; 2%nat := [2; 4]]} = Some s /\
    (s = 1%Z \/ s = (-1)%Z).
Proof.
  destruct (crossSign_values
              (mkTensor [2%nat] 1%nat Indet (Addr 1%nat) 2 (Some [2%nat]))
              (mkTensor [2%nat] 2%nat Indet (Addr 2%nat) 2 (Some [2%nat]))
              {[1%nat := [1; 2]; 2%nat := [2; 4]]}
              1%nat 2%nat [1; 2] [2; 4])
    as (s & s' & a0 & a1 & c0 & c1 & _ & _ & Hs & _ & Hv & _).
  - unfold holds; cbn; repeat split; reflexivity.
  - unfold holds; cbn; repeat split; reflexivity.
  - exists s. split; [exact Hs|exact Hv].
Defined.

End math_examples.

(** ** Edges, triangles and curves *)

Section topology.
Import Geometry.

(** X21.  [ordered ()] is a canonical form of an edge up to direction: two edges
    are topologically equivalent exactly when their ordered forms are equal
    by [operator==]; ordering is idempotent and ignores a flip; an ordered
    edge satisfies [isOrdered ()] unless it is a loop.  [operator<] compares
    the two end points independently: two edges are each below the other
    exactly when one end point is smaller and the other is larger. *)
Theorem Edge_ordered_canonical e f :
  isTopologicallyEquivalent e f = Edge_eq (ordered e) (ordered f) /\
  ordered (ordered e) = ordered e /\
  ordered (flip e) = ordered e /\
  (isOrdered (ordered e) = true <-> u e <> v e) /\
  Edge_lt e e = false /\
  (Edge_lt e f = true /\ Edge_lt f e = true <->
   (u e < u f /\ v f < v e)%N \/ (u f < u e /\ v e < v f)%N).
Proof.
  destruct e as [eu ev], f as [fu fv].
  unfold isTopologicallyEquivalent, Edge_eq, Edge_lt, ordered, flip, isOrdered.
  simpl. repeat split.
  - apply Bool.eq_iff_eq_true.
    rewrite !orb_true_iff, !andb_true_iff, !N.eqb_eq. lia.
  - f_equal; lia.
  - f_equal; lia.
  - rewrite N.ltb_lt. lia.
  - rewrite N.ltb_lt. lia.
  - rewrite orb_false_iff, !N.ltb_ge. lia.
  - rewrite !orb_true_iff, !N.ltb_lt. lia.
  - rewrite !orb_true_iff, !N.ltb_lt. lia.
  - rewrite !orb_true_iff, !N.ltb_lt. lia.
Qed.

(** X22.  [reverseOrientation ()] exchanges the first two vertices: applied twice
    it gives the triangle back, every edge of the reversed triangle is the
    flip of an edge of the triangle, and the ordered edge list is the same
    up to the order of its entries. *)
Theorem Triangle_reverseOrientation t :
  reverseOrientation (reverseOrientation t) = t /\
  edgeList (reverseOrientation t)
  = match edgeList t with
    | [e0; e1; e2] => [flip e0; flip e2; flip e1]
    | _ => []
    end /\
  orderedEdgeList (reverseOrientation t) ≡ₚ orderedEdgeList t.
Proof.
  destruct t as [a b c]. split; [done|]. split; [done|].
  unfold orderedEdgeList, reverseOrientation, ordered. simpl.
  rewrite (N.min_comm b a), (N.max_comm b a).
  rewrite (N.min_comm a c), (N.max_comm a c).
  rewrite (N.min_comm c b), (N.max_comm c b).
  apply perm_skip, perm_swap.
Qed.

End topology.

Section closed_curves.
Import Geometry.
Local Open Scope Z_scope.

Lemma bump_lookup k' d (m : gmap N Z) k :
  default 0 (bump k' d m !! k)
  = if decide (k = k') then (default 0 (m !! k) + d) mod 256
    else default 0 (m !! k).
Proof.
  unfold bump. case_decide as Hk.
  - subst. by rewrite lookup_insert_eq.
  - by rewrite lookup_insert_ne.
Qed.

Lemma leaving_cons k e edges :
  leaving k (e :: edges)
  = ((if decide (u e = k) then 1 else 0) + leaving k edges)%nat.
Proof. unfold leaving. rewrite filter_cons. by case_decide. Qed.

Lemma entering_cons k e edges :
  entering k (e :: edges)
  = ((if decide (v e = k) then 1 else 0) + entering k edges)%nat.
Proof. unfold entering. rewrite filter_cons. by case_decide. Qed.

Lemma signSums_fold edges : forall (m : gmap N Z) (c : N -> Z),
  (forall k, default 0 (m !! k) = c k mod 256) ->
  forall k,
    default 0
      (foldl (fun signSum edge => bump (v edge) (-1) (bump (u edge) 1 signSum))
             m edges !! k)
    = (c k + Z.of_nat (leaving k edges) - Z.of_nat (entering k edges)) mod 256.
Proof.
  induction edges as [|e edges IH]; intros m c Hm k; simpl.
  - rewrite Hm. f_equal. unfold leaving, entering. simpl. lia.
  - rewrite (IH _ (fun k => c k + (if decide (u e = k) then 1 else 0)
                              - (if decide (v e = k) then 1 else 0))).
    + rewrite leaving_cons, entering_cons. f_equal.
      repeat case_decide; lia.
    + intros k'. rewrite !bump_lookup, Hm.
      repeat case_decide; try congruence.
      all: rewrite ?Zplus_mod_idemp_l, <- ?Z.add_assoc, ?Zplus_mod_idemp_l.
      all: f_equal; lia.
Qed.

Lemma signSums_spec edges k :
  default 0 (signSums edges !! k)
  = (Z.of_nat (leaving k edges) - Z.of_nat (entering k edges)) mod 256.
Proof.
  unfold signSums. rewrite (signSums_fold edges ∅ (fun _ => 0)); [done|].
  intros k'. by rewrite lookup_empty.
Qed.

(** X23.  [isClosed ()] answers whether, at every vertex, the number of edges
    that leave it and the number that enter it agree modulo 256 (the
    counters are bytes); in particular it is true when the two numbers are
    equal at every vertex. *)
Theorem isClosed_balance edges :
  (isClosed edges = true <->
   forall k,
     (Z.of_nat (leaving k edges) - Z.of_nat (entering k edges)) mod 256 = 0) /\
  ((forall k, leaving k edges = entering k edges) -> isClosed edges = true).
Proof.
  assert (isClosed edges = true <->
          forall k, default 0 (signSums edges !! k) = 0) as Hiff.
  { unfold isClosed. rewrite forallb_forall. split.
    - intros Hall k. destruct (signSums edges !! k) as [x|] eqn:Hk; [|done].
      simpl. apply Z.eqb_eq.
      apply (Hall (k, x)). apply list_elem_of_In.
      by apply elem_of_map_to_list.
    - intros Hall [k x] Hin. simpl. apply Z.eqb_eq.
      apply list_elem_of_In, elem_of_map_to_list in Hin.
      specialize (Hall k). by rewrite Hin in Hall. }
  assert (isClosed edges = true <->
          forall k,
            (Z.of_nat (leaving k edges) - Z.of_nat (entering k edges))
              mod 256 = 0) as Hbal.
  { rewrite Hiff. split; intros H k; specialize (H k);
      by rewrite signSums_spec in *. }
  split; [done|]. intros Heq. apply Hbal. intros k. rewrite Heq.
  by rewrite Z.sub_diag.
Qed.

Lemma isClosed_balance_witness :
  isClosed [mkEdge 1 2; mkEdge 2 3; mkEdge 3 1] = true.
Proof.
  destruct (isClosed_balance [mkEdge 1 2; mkEdge 2 3; mkEdge 3 1])
    as (_ & Hbal).
  apply Hbal. intros k. unfold leaving, entering.
  rewrite !filter_cons, !filter_nil. simpl.
  repeat case_decide; subst; try reflexivity; try discriminate.
Defined.

End closed_curves.

(** ** Points and the operations on them *)

Section points.
Import TensorHpp TensorHppVector TensorMath Geometry GeometryOps.
Implicit Types (h : heap) (p t : Tensor).
Local Open Scope Q_scope.

(** The copy constructor of a fixed-size container needs no allocator. *)
Lemma ctor_copy_static reply at_ raw other h sh s bs :
  holds other h sh s bs -> isStaticSized other = true -> h !! at_ = None ->
  exists t,
    ctor_copy reply at_ raw other h = Ok (t, <[at_ := bs]> h) /\
    holds t (<[at_ := bs]> h) sh at_ bs /\
    dims t = dims other /\ self t = at_.
Proof.
  intros Ho Hst Hat.
  assert (shape other = Some sh) as Hsh by (by destruct Ho).
  assert (s <> at_) as Hsat by (apply holds_lookup in Ho; congruence).
  destruct (holds_static _ _ _ _ _ Ho Hst) as (_ & -> & Hct & Hpos).
  unfold ctor_copy. rewrite Hsh.
  destruct (ctor_shape_static None (dims other) at_ raw
              (replicate (length (dims other)) 0%nat) h Hpos)
    as (t & Hc & Ht & Hd & Hself).
  assert (ctor_default (dims other) at_ raw h
          = Ok (t, <[at_ := replicate (product (dims other)) 0]> h)) as Hdef.
  { unfold ctor_default. unfold ctor_shape in Hc.
    change (isStaticSized (mkTensor (dims other) at_ Indet Null 0%nat None))
      with (isStaticSized other) in *.
    by rewrite Hst in *. }
  rewrite Hdef. cbn [defined].
  unfold alloc. rewrite (holds_isAlloced _ _ _ _ _ Ht).
  erewrite assign_same_dims_allocated; [|done|by apply holds_insert_other].
  rewrite insert_insert_eq. exists t. split; [done|]. split; [|done].
  replace (<[at_ := bs]> h)
    with (<[at_ := bs]> (<[at_ := replicate (product (dims other)) 0]> h))
    by apply insert_insert_eq.
  eapply holds_insert_self; [done|]. by rewrite length_replicate.
Qed.

Lemma V3_static p h x y z : is_Vector3 p h x y z -> isStaticSized p = true.
Proof.
  intros (Hd & _). unfold isStaticSized, _ctSize. rewrite Hd.
  apply bool_decide_eq_true. simpl. lia.
Qed.

Lemma V3_lookup p h x y z : is_Vector3 p h x y z -> h !! self p = Some [x; y; z].
Proof. intros (_ & Hp). by eapply holds_lookup. Qed.

Lemma V3_frame p h x y z l (b : list Q) :
  is_Vector3 p h x y z -> self p <> l -> is_Vector3 p (<[l := b]> h) x y z.
Proof. intros (Hd & Hp) Hne. split; [done|]. by apply holds_insert_other. Qed.

Lemma V3_update p h x y z x' y' z' :
  is_Vector3 p h x y z -> is_Vector3 p (<[self p := [x'; y'; z']]> h) x' y' z'.
Proof. intros (Hd & Hp). split; [done|]. by eapply holds_insert_self. Qed.

Lemma V3_copy reply at_ raw p h x y z :
  is_Vector3 p h x y z -> h !! at_ = None ->
  exists t,
    ctor_copy reply at_ raw p h = Ok (t, <[at_ := [x; y; z]]> h) /\
    is_Vector3 t (<[at_ := [x; y; z]]> h) x y z /\ self t = at_.
Proof.
  intros Hp Hat.
  destruct (ctor_copy_static reply at_ raw p h [3%nat] (self p) [x; y; z])
    as (t & Hc & Ht & Hd & Hs); [by destruct Hp|by eapply V3_static|done|].
  exists t. split; [done|]. split; [|done]. split.
  - rewrite Hd. by destruct Hp.
  - by rewrite Hs.
Qed.

Lemma V3_add t p h x y z a b c :
  is_Vector3 t h x y z -> is_Vector3 p h a b c -> self t <> self p ->
  add_assign Double t p h
  = Ok (t, <[self t := [1 * a + x; 1 * b + y; 1 * c + z]]> h).
Proof.
  intros (_ & Ht) (_ & Hp) Hne.
  by rewrite (add_assign_blas Double t p h [3%nat] (self t) [x; y; z]
                (self p) [a; b; c]).
Qed.

Lemma V3_sub t p h x y z a b c :
  is_Vector3 t h x y z -> is_Vector3 p h a b c -> self t <> self p ->
  sub_assign Double t p h
  = Ok (t, <[self t := [-1 * a + x; -1 * b + y; -1 * c + z]]> h).
Proof.
  intros (_ & Ht) (_ & Hp) Hne.
  by rewrite (sub_assign_blas Double t p h [3%nat] (self t) [x; y; z]
                (self p) [a; b; c]).
Qed.

Lemma V3_fresh p h x y z l :
  is_Vector3 p h x y z -> h !! l = None -> self p <> l.
Proof. intros Hp Hl. apply V3_lookup in Hp. congruence. Qed.

Lemma V3_over_scalar at_ raw t s h x y z :
  is_Vector3 t h x y z -> h !! at_ = None ->
  exists c,
    Vector_over_scalar None at_ raw t s h
    = Ok (c, <[at_ := [x / s; y / s; z / s]]> h) /\
    is_Vector3 c (<[at_ := [x / s; y / s; z / s]]> h) (x / s) (y / s) (z / s) /\
    self c = at_.
Proof.
  intros Ht Hat.
  destruct (V3_copy None at_ raw t h x y z Ht Hat) as (c & Hc & (Hd & Hh) & Hs).
  exists c. unfold Vector_over_scalar, Vector_op. rewrite Hc.
  cbn [and_then fst snd].
  erewrite div_assign_scalar_holds by done.
  simpl. split; [by rewrite Hs, insert_insert_eq|]. split; [|done].
  replace (<[at_ := [x / s; y / s; z / s]]> h)
    with (<[self c := [x / s; y / s; z / s]]> (<[at_ := [x; y; z]]> h))
    by (rewrite Hs; apply insert_insert_eq).
  apply V3_update with x y z. by split.
Qed.

Lemma V3_minus at_ raw t p h x y z a b c :
  is_Vector3 t h x y z -> is_Vector3 p h a b c -> h !! at_ = None ->
  exists d,
    Vector_minus_Vector Double None at_ raw t p h
    = Ok (d, <[at_ := [-1 * a + x; -1 * b + y; -1 * c + z]]> h) /\
    is_Vector3 d (<[at_ := [-1 * a + x; -1 * b + y; -1 * c + z]]> h)
               (-1 * a + x) (-1 * b + y) (-1 * c + z) /\
    self d = at_.
Proof.
  intros Ht Hp Hat.
  destruct (V3_copy None at_ raw t h x y z Ht Hat) as (d & Hc & Hd & Hs).
  pose proof (V3_fresh _ _ _ _ _ _ Hp Hat) as Hne.
  exists d. unfold Vector_minus_Vector, Vector_op. rewrite Hc.
  cbn [and_then fst snd].
  erewrite V3_sub; [|done|by apply V3_frame|congruence].
  split; [by rewrite Hs, insert_insert_eq|]. split; [|done].
  replace (<[at_ := [-1 * a + x; -1 * b + y; -1 * c + z]]> h)
    with (<[self d := [-1 * a + x; -1 * b + y; -1 * c + z]]>
            (<[at_ := [x; y; z]]> h))
    by (rewrite Hs; apply insert_insert_eq).
  by apply V3_update with x y z.
Qed.

(** X24.  [getCentroid] returns the mean of the three corner points, and
    [getNormal] the cross product of the two edge vectors that start at
    the first corner, each in a new vector; the points are unchanged.
    The three vertices may coincide. *)
Theorem Triangle_centroid_and_normal tri points h raw p0 p1 p2
    x0 y0 z0 x1 y1 z1 x2 y2 z2 :
  index points (v0 tri) = Some p0 -> index points (v1 tri) = Some p1 ->
  index points (v2 tri) = Some p2 ->
  is_Vector3 p0 h x0 y0 z0 -> is_Vector3 p1 h x1 y1 z1 ->
  is_Vector3 p2 h x2 y2 z2 ->
  (forall av ac,
     h !! av = None -> h !! ac = None -> av <> ac ->
     exists c r s,
       getCentroid tri av ac raw points h
         = Ok (c, <[ac := r]> (<[av := s]> h)) /\
       holds c (<[ac := r]> (<[av := s]> h)) [3%nat] ac r /\
       Forall2 Qeq r [(x0 + x1 + x2) / 3; (y0 + y1 + y2) / 3;
                      (z0 + z1 + z2) / 3]) /\
  (forall a0 a1 a2,
     h !! a0 = None -> h !! a1 = None -> h !! a2 = None ->
     a0 <> a1 -> a0 <> a2 -> a1 <> a2 ->
     exists n r h',
       getNormal tri a0 a1 a2 raw points h = Ok (n, h') /\
       holds n h' [3%nat] a0 r /\
       Forall2 Qeq r
         [(y1 - y0) * (z2 - z0) - (z1 - z0) * (y2 - y0);
          (z1 - z0) * (x2 - x0) - (x1 - x0) * (z2 - z0);
          (x1 - x0) * (y2 - y0) - (y1 - y0) * (x2 - x0)] /\
       (forall l, l <> a0 -> l <> a1 -> l <> a2 -> h' !! l = h !! l)).
Proof.
  intros Hi0 Hi1 Hi2 Hp0 Hp1 Hp2. split.
  - intros av ac Hav Hac Hne.
    pose proof (V3_fresh _ _ _ _ _ _ Hp1 Hav) as Hn1.
    pose proof (V3_fresh _ _ _ _ _ _ Hp2 Hav) as Hn2.
    destruct (V3_copy None av (raw av) p0 h x0 y0 z0 Hp0 Hav)
      as (w & Hc & Hv & Hs).
    unfold getCentroid. rewrite Hi0, Hi1, Hi2. cbn [defined].
    rewrite Hc. cbn [and_then fst snd defined].
    erewrite V3_add; [|done|by apply V3_frame|congruence].
    cbn [and_then fst snd defined].
    erewrite V3_add;
      [|by apply V3_update with x0 y0 z0
       |rewrite Hs, insert_insert_eq; by apply V3_frame
       |congruence].
    cbn [and_then fst snd defined].
    rewrite Hs, !insert_insert_eq.
    set (s := [1 * x2 + (1 * x1 + x0); 1 * y2 + (1 * y1 + y0);
               1 * z2 + (1 * z1 + z0)]).
    assert (is_Vector3 w (<[av := s]> h) (1 * x2 + (1 * x1 + x0))
                       (1 * y2 + (1 * y1 + y0)) (1 * z2 + (1 * z1 + z0)))
      as Hv'.
    { replace (<[av := s]> h) with (<[self w := s]> (<[av := [x0; y0; z0]]> h))
        by (rewrite Hs; apply insert_insert_eq).
      by apply V3_update with x0 y0 z0. }
    destruct (V3_over_scalar ac (raw ac) w 3 _ _ _ _ Hv')
      as (c & Hdiv & (_ & Hch) & Hsc).
    { by rewrite lookup_insert_ne. }
    rewrite Hdiv. eexists c, _, s. split; [done|].
    rewrite Hsc in Hch. split; [done|].
    repeat constructor; unfold Qdiv; ring.
  - intros a0 a1 a2 H0 H1 H2 H01 H02 H12.
    destruct (V3_copy None a0 (raw a0) p0 h x0 y0 z0 Hp0 H0)
      as (t0 & Hc0 & Ht0 & Hs0).
    set (h1 := <[a0 := [x0; y0; z0]]> h) in *.
    assert (is_Vector3 p1 h1 x1 y1 z1) as Hp1'
      by (apply V3_frame; [done|by eapply V3_fresh]).
    assert (is_Vector3 p2 h1 x2 y2 z2) as Hp2'
      by (apply V3_frame; [done|by eapply V3_fresh]).
    assert (h1 !! a1 = None) as H1' by (unfold h1; by rewrite lookup_insert_ne).
    assert (h1 !! a2 = None) as H2' by (unfold h1; by rewrite lookup_insert_ne).
    destruct (V3_copy None a1 (raw a1) p1 h1 x1 y1 z1 Hp1' H1')
      as (t1 & Hc1 & Ht1 & Hs1).
    set (h2 := <[a1 := [x1; y1; z1]]> h1) in *.
    assert (is_Vector3 p2 h2 x2 y2 z2) as Hp2''
      by (apply V3_frame; [done|by eapply V3_fresh]).
    assert (h2 !! a2 = None) as H2'' by (unfold h2; by rewrite lookup_insert_ne).
    destruct (V3_copy None a2 (raw a2) p2 h2 x2 y2 z2 Hp2'' H2'')
      as (t2 & Hc2 & Ht2 & Hs2).
    set (h3 := <[a2 := [x2; y2; z2]]> h2) in *.
    assert (is_Vector3 t0 h3 x0 y0 z0) as Ht0'.
    { apply V3_frame; [|congruence]. apply V3_frame; [done|congruence]. }
    assert (is_Vector3 t1 h3 x1 y1 z1) as Ht1'
      by (apply V3_frame; [done|congruence]).
    unfold getNormal. rewrite Hi0, Hi1, Hi2. cbn [defined].
    rewrite Hc0. cbn [and_then fst snd defined].
    rewrite Hc1. cbn [and_then fst snd defined].
    rewrite Hc2. cbn [and_then fst snd defined].
    erewrite V3_sub; [|done|done|congruence].
    cbn [and_then fst snd defined].
    set (d1 := [-1 * x0 + x1; -1 * y0 + y1; -1 * z0 + z1]).
    set (h4 := <[self t1 := d1]> h3).
    assert (is_Vector3 t1 h4 (-1 * x0 + x1) (-1 * y0 + y1) (-1 * z0 + z1))
      as Ht1'' by (by apply V3_update with x1 y1 z1).
    assert (is_Vector3 t0 h4 x0 y0 z0) as Ht0''
      by (apply V3_frame; [done|congruence]).
    assert (is_Vector3 t2 h4 x2 y2 z2) as Ht2''
      by (apply V3_frame; [done|congruence]).
    erewrite V3_sub; [|done|done|congruence].
    cbn [and_then fst snd defined].
    set (d2 := [-1 * x0 + x2; -1 * y0 + y2; -1 * z0 + z2]).
    set (h5 := <[self t2 := d2]> h4).
    assert (is_Vector3 t2 h5 (-1 * x0 + x2) (-1 * y0 + y2) (-1 * z0 + z2))
      as (_ & Hh2) by (by apply V3_update with x2 y2 z2).
    assert (is_Vector3 t1 h5 (-1 * x0 + x1) (-1 * y0 + y1) (-1 * z0 + z1))
      as (_ & Hh1) by (apply V3_frame; [done|congruence]).
    assert (is_Vector3 t0 h5 x0 y0 z0) as (Hd0 & Hh0)
      by (apply V3_frame; [done|congruence]).
    erewrite crossTo_holds; [|done|done|done|congruence|congruence].
    cbn [pass defined].
    eexists t0, _, _. split; [done|].
    split; [|split].
    + rewrite Hs0 in *. by eapply holds_insert_self.
    + repeat constructor; ring.
    + intros l Hl0 Hl1 Hl2. unfold h5, h4, h3, h2, h1.
      rewrite Hs0, Hs1, Hs2. by rewrite !lookup_insert_ne.
Qed.

End points.

Section circles_and_curves.
Import TensorHpp TensorHppVector TensorMath Geometry GeometryOps.
Implicit Types (h : heap) (p : Tensor).
Local Open Scope Q_scope.

(** X25.  [pointInCircle] answers whether the squared distance of the point from
    the centre is below the squared radius (strictly); the point may be the
    centre object itself. *)
Theorem pointInCircle_distance c at_ raw p h px py pz cx cy cz :
  is_Vector3 p h px py pz -> is_Vector3 (center c) h cx cy cz ->
  h !! at_ = None ->
  exists b,
    pointInCircle c at_ raw p h = Returns b /\
    (b = true <->
     (px - cx) * (px - cx) + (py - cy) * (py - cy) + (pz - cz) * (pz - cz)
     < radius c * radius c).
Proof.
  intros Hp Hc Hat.
  destruct (V3_minus at_ (raw at_) p (center c) h _ _ _ _ _ _ Hp Hc Hat)
    as (d & Hd & (_ & Hh) & Hs).
  unfold pointInCircle. rewrite Hd.
  unfold norm2Sq. rewrite (accumulate_spec _ _ _ _ _ _ _ Hh). simpl.
  match goal with |- context [Qlt_le_dec ?s ?r] =>
    assert (s == (px - cx) * (px - cx) + (py - cy) * (py - cy)
                 + (pz - cz) * (pz - cz)) as Hs2 by ring;
    destruct (Qlt_le_dec s r) as [Hlt|Hge]
  end.
  - exists true. split; [done|]. split; [|done]. intros _.
    by rewrite <- Hs2.
  - exists false. split; [done|]. split; [discriminate|]. intros Hlt.
    rewrite <- Hs2 in Hlt. exfalso. lra.
Qed.

(** X26.  [Curve::orientation] builds its first edge vector as
    [points[e0.v] - points[e0.v]], which is zero, so the cross product and
    [z] are zero and the answer is [O], whatever the curve, the plane normal
    and the points are. *)
Theorem Curve_orientation_is_O edges e0 e1 planeNormal points h raw
    q0 q1v q1u x0 y0 z0 x1 y1 z1 x2 y2 z2 nx ny nz a1 a2 a3 :
  edges !! 0%nat = Some e0 -> edges !! 1%nat = Some e1 ->
  index points (v e0) = Some q0 ->
  index points (v e1) = Some q1v -> index points (u e1) = Some q1u ->
  is_Vector3 q0 h x0 y0 z0 -> is_Vector3 q1v h x1 y1 z1 ->
  is_Vector3 q1u h x2 y2 z2 -> is_Vector3 planeNormal h nx ny nz ->
  h !! a1 = None -> h !! a2 = None -> h !! a3 = None ->
  a1 <> a2 -> a1 <> a3 -> a2 <> a3 ->
  orientation edges planeNormal a1 a2 a3 raw points h = Returns O.
Proof.
  intros He0 He1 Hi0 Hi1v Hi1u Hq0 Hq1v Hq1u Hn H1 H2 H3 H12 H13 H23.
  destruct (V3_copy None a1 (raw a1) q0 h x0 y0 z0 Hq0 H1)
    as (t1 & Hc1 & Ht1 & Hs1).
  set (h1 := <[a1 := [x0; y0; z0]]> h) in *.
  assert (forall q x y z, is_Vector3 q h x y z -> is_Vector3 q h1 x y z)
    as Hf1 by (intros; apply V3_frame; [done|by eapply V3_fresh]).
  set (d1 := [-1 * x0 + x0; -1 * y0 + y0; -1 * z0 + z0]).
  set (h2 := <[a1 := d1]> h).
  assert (is_Vector3 t1 h2 (-1 * x0 + x0) (-1 * y0 + y0) (-1 * z0 + z0))
    as Ht1'.
  { replace h2 with (<[self t1 := d1]> h1)
      by (rewrite Hs1; apply insert_insert_eq).
    by apply V3_update with x0 y0 z0. }
  assert (forall q x y z, is_Vector3 q h x y z -> is_Vector3 q h2 x y z)
    as Hf2 by (intros; apply V3_frame; [done|by eapply V3_fresh]).
  assert (h2 !! a2 = None) as H2' by (unfold h2; by rewrite lookup_insert_ne).
  destruct (V3_copy None a2 (raw a2) q1v h2 x1 y1 z1 (Hf2 _ _ _ _ Hq1v) H2')
    as (t2 & Hc2 & Ht2 & Hs2).
  set (h3 := <[a2 := [x1; y1; z1]]> h2) in *.
  assert (forall q x y z, is_Vector3 q h2 x y z -> self q <> a2 ->
            is_Vector3 q h3 x y z) as Hf3 by (intros; by apply V3_frame).
  set (d2 := [-1 * x2 + x1; -1 * y2 + y1; -1 * z2 + z1]).
  set (h4 := <[a2 := d2]> h2).
  assert (is_Vector3 t2 h4 (-1 * x2 + x1) (-1 * y2 + y1) (-1 * z2 + z1))
    as Ht2'.
  { replace h4 with (<[self t2 := d2]> h3)
      by (rewrite Hs2; apply insert_insert_eq).
    by apply V3_update with x1 y1 z1. }
  assert (is_Vector3 t1 h4 (-1 * x0 + x0) (-1 * y0 + y0) (-1 * z0 + z0))
    as Ht1'' by (apply V3_frame; [done|congruence]).
  assert (h4 !! a3 = None) as H3'
    by (unfold h4, h2; by rewrite !lookup_insert_ne).
  destruct (cross_holds a3 (raw a3) t1 t2 h4 _ _ _ _ _ _ _ _
              (proj2 Ht1'') (proj2 Ht2') H3') as (x & Hx & Hxh & _).
  match type of Hx with _ = ?r =>
    assert (orientation_cross edges a1 a2 a3 raw points h = r) as Hoc
  end.
  { unfold orientation_cross. rewrite He0. cbn [defined].
    rewrite He1. cbn [defined]. rewrite Hi0. cbn [defined].
    rewrite Hc1. cbn [and_then fst snd defined].
    erewrite V3_sub; [|done|by apply Hf1|].
    2:{ rewrite Hs1. apply not_eq_sym. by eapply V3_fresh. }
    cbn [and_then fst snd defined]. rewrite Hs1.
    unfold h1. rewrite insert_insert_eq. fold d1. fold h2.
    rewrite Hi1v. cbn [defined].
    rewrite Hc2. cbn [and_then fst snd defined].
    rewrite Hi1u. cbn [defined].
    erewrite V3_sub; [|done|apply Hf3; [by apply Hf2|by eapply V3_fresh]|].
    2:{ rewrite Hs2. apply not_eq_sym. by eapply V3_fresh. }
    cbn [and_then fst snd defined]. rewrite Hs2.
    unfold h3. rewrite insert_insert_eq. fold d2. fold h4.
    exact Hx. }
  unfold orientation. rewrite Hoc.
  assert (holds planeNormal
            (<[a3 := [(-1 * y0 + y0) * (-1 * z2 + z1)
                      - (-1 * z0 + z0) * (-1 * y2 + y1);
                      (-1 * z0 + z0) * (-1 * x2 + x1)
                      - (-1 * x0 + x0) * (-1 * z2 + z1);
                      (-1 * x0 + x0) * (-1 * y2 + y1)
                      - (-1 * y0 + y0) * (-1 * x2 + x1)]]> h4)
            [3%nat] (self planeNormal) [nx; ny; nz]) as Hn'.
  { apply holds_insert_other; [|by eapply V3_fresh].
    apply holds_insert_other; [|by eapply V3_fresh].
    apply holds_insert_other; [|by eapply V3_fresh].
    by destruct Hn. }
  erewrite dot_holds; [|exact Hn'|exact Hxh|lia].
  simpl.
  match goal with |- context [Qlt_le_dec ?z 0] =>
    assert (z == 0) as Hz by ring; destruct (Qlt_le_dec z 0) as [Hlt|Hge]
  end.
  - exfalso. rewrite Hz in Hlt. lra.
  - done.
Qed.

End circles_and_curves.

Section geometry_examples.
Import TensorHpp TensorHppVector TensorMath Geometry GeometryOps.
Local Open Scope Q_scope.

Lemma Triangle_centroid_and_normal_witness :
  exists c r s,
    getCentroid (mkTriangle 0 1 1) 7%nat 8%nat (fun _ _ => 9)
      [mkTensor [3%nat] 1%nat Indet (Addr 1%nat) 3 (Some [3%nat]);
       mkTensor [3%nat] 2%nat Indet (Addr 2%nat) 3 (Some [3%nat])]
      {[1%nat := [0; 0; 0]; 2%nat := [3; 6; 9]]}
    = Ok (c, <[8%nat := r]>
               (<[7%nat := s]> {[1%nat := [0; 0; 0]; 2%nat := [3; 6; 9]]})) /\
    Forall2 Qeq r [(0 + 3 + 3) / 3; (0 + 6 + 6) / 3; (0 + 9 + 9) / 3].
Proof.
  destruct (Triangle_centroid_and_normal (mkTriangle 0 1 1)
              [mkTensor [3%nat] 1%nat Indet (Addr 1%nat) 3 (Some [3%nat]);
               mkTensor [3%nat] 2%nat Indet (Addr 2%nat) 3 (Some [3%nat])]
              {[1%nat := [0; 0; 0]; 2%nat := [3; 6; 9]]} (fun _ _ => 9)
              (mkTensor [3%nat] 1%nat Indet (Addr 1%nat) 3 (Some [3%nat]))
              (mkTensor [3%nat] 2%nat Indet (Addr 2%nat) 3 (Some [3%nat]))
              (mkTensor [3%nat] 2%nat Indet (Addr 2%nat) 3 (Some [3%nat]))
              0 0 0 3 6 9 3 6 9) as (Hcen & _).
  - reflexivity.
  - reflexivity.
  - reflexivity.
  - unfold is_Vector3, holds; cbn; repeat split; reflexivity.
  - unfold is_Vector3, holds; cbn; repeat split; reflexivity.
  - unfold is_Vector3, holds; cbn; repeat split; reflexivity.
  - destruct (Hcen 7%nat 8%nat) as (c & r & s & Hc & _ & Hr).
    + reflexivity.
    + reflexivity.
    + lia.
    + exists c, r, s. split; [exact Hc|exact Hr].
Defined.

Lemma pointInCircle_distance_witness :
  exists b,
    pointInCircle
      (mkCircle (mkTensor [3%nat] 1%nat Indet (Addr 1%nat) 3 (Some [3%nat])) 2)
      7%nat (fun _ _ => 9)
      (mkTensor [3%nat] 2%nat Indet (Addr 2%nat) 3 (Some [3%nat]))
      {[1%nat := [0; 0; 0]; 2%nat := [1; 1; 1]]} = Returns b.
Proof.
  destruct (pointInCircle_distance
      (mkCircle (mkTensor [3%nat] 1%nat Indet (Addr 1%nat) 3 (Some [3%nat])) 2)
      7%nat (fun _ _ => 9)
      (mkTensor [3%nat] 2%nat Indet (Addr 2%nat) 3 (Some [3%nat]))
      {[1%nat := [0; 0; 0]; 2%nat := [1; 1; 1]]} 1 1 1 0 0 0)
    as (b & Hb & _).
  - unfold is_Vector3, holds; cbn; repeat split; reflexivity.
  - unfold is_Vector3, holds; cbn; repeat split; reflexivity.
  - reflexivity.
  - exists b. exact Hb.
Defined.

Lemma Curve_orientation_is_O_witness :
  orientation [mkEdge 0 1; mkEdge 1 2]
    (mkTensor [3%nat] 4%nat Indet (Addr 4%nat) 3 (Some [3%nat]))
    7%nat 8%nat 9%nat (fun _ _ => 9)
    [mkTensor [3%nat] 1%nat Indet (Addr 1%nat) 3 (Some [3%nat]);
     mkTensor [3%nat] 2%nat Indet (Addr 2%nat) 3 (Some [3%nat]);
     mkTensor [3%nat] 3%nat Indet (Addr 3%nat) 3 (Some [3%nat])]
    {[1%nat := [0; 0; 0]; 2%nat := [1; 0; 0]; 3%nat := [1; 1; 0];
      4%nat := [0; 0; -1]]}
  = Returns O.
Proof.
  apply (Curve_orientation_is_O [mkEdge 0 1; mkEdge 1 2]
           (mkEdge 0 1) (mkEdge 1 2)
           (mkTensor [3%nat] 4%nat Indet (Addr 4%nat) 3 (Some [3%nat]))
           [mkTensor [3%nat] 1%nat Indet (Addr 1%nat) 3 (Some [3%nat]);
            mkTensor [3%nat] 2%nat Indet (Addr 2%nat) 3 (Some [3%nat]);
            mkTensor [3%nat] 3%nat Indet (Addr 3%nat) 3 (Some [3%nat])]
           {[1%nat := [0; 0; 0]; 2%nat := [1; 0; 0]; 3%nat := [1; 1; 0];
             4%nat := [0; 0; -1]]} (fun _ _ => 9)
           (mkTensor [3%nat] 2%nat Indet (Addr 2%nat) 3 (Some [3%nat]))
           (mkTensor [3%nat] 3%nat Indet (Addr 3%nat) 3 (Some [3%nat]))
           (mkTensor [3%nat] 2%nat Indet (Addr 2%nat) 3 (Some [3%nat]))
           1 0 0 1 1 0 1 0 0 0 0 (-1) 7%nat 8%nat 9%nat);
    try reflexivity; try lia;
    unfold is_Vector3, holds; cbn; repeat split; reflexivity.
Defined.

End geometry_examples.

(** ** Binary search *)

Section binary_search.
Import SortableVectorHpp.
Context {E : Type} (eqb ltb : E -> E -> bool).
Hypothesis eqb_eq : forall a b, eqb a b = true <-> a = b.
Hypothesis ltb_irrefl : forall a, ltb a a = false.
Hypothesis ltb_trans :
  forall a b c, ltb a b = true -> ltb b c = true -> ltb a c = true.
Hypothesis ltb_total : forall a b, ltb a b = true \/ a = b \/ ltb b a = true.
Local Open Scope Z_scope.

Lemma ltb_asym a b : ltb a b = true -> ltb b a = true -> False.
Proof using ltb_irrefl ltb_trans.
  intros H1 H2. pose proof (ltb_trans _ _ _ H1 H2) as H.
  by rewrite ltb_irrefl in H.
Qed.

Lemma ltb_le_trans a b c :
  ltb b a = false -> ltb b c = true -> ltb a c = true.
Proof using ltb_trans ltb_total.
  intros Hab Hbc. destruct (ltb_total a b) as [H|[->|H]]; [|done|congruence].
  by eapply ltb_trans.
Qed.

Lemma ltb_trans_le a b c :
  ltb a b = true -> ltb c b = false -> ltb a c = true.
Proof using ltb_trans ltb_total.
  intros Hab Hbc. destruct (ltb_total b c) as [H|[->|H]]; [|done|congruence].
  by eapply ltb_trans.
Qed.

Lemma wrap64_small z : 0 <= z < 2 ^ 64 -> wrap64 z = z.
Proof. intros. unfold wrap64. by apply Z.mod_small. Qed.

Lemma lookup_Z (v : list E) i :
  0 <= i < Z.of_nat (length v) -> is_Some (v !! Z.to_nat i).
Proof. intros Hi. apply lookup_lt_is_Some_2. lia. Qed.

(** After [hi] has wrapped around, the next probe is outside the vector. *)
Lemma find_loop_wrapped fuel (v : list E) q :
  Z.of_nat (length v) < 2 ^ 63 ->
  find_loop eqb ltb (S fuel) v q 0 npos = Some NoBehaviour.
Proof.
  intros Hn. simpl. unfold npos, wrap64.
  change ((0 <=? -1 mod 2 ^ 64)) with true. cbv iota.
  change ((0 + -1 mod 2 ^ 64) mod 2 ^ 64 / 2) with (2 ^ 63 - 1).
  by rewrite lookup_ge_None_2 by lia.
Qed.

Lemma find_loop_sorted (v : list E) q :
  sorted_by ltb v -> Z.of_nat (length v) < 2 ^ 63 ->
  forall fuel lo hi,
    0 <= lo -> hi < Z.of_nat (length v) -> lo <= hi + 1 ->
    hi - lo + 1 < Z.of_nat fuel ->
    (forall i x, 0 <= i < lo -> v !! Z.to_nat i = Some x -> ltb x q = true) ->
    (forall i x, hi < i -> v !! Z.to_nat i = Some x -> ltb q x = true) ->
    (q ∈ v ->
     exists j, find_loop eqb ltb fuel v q lo hi = Some (Returns j) /\
               0 <= j < Z.of_nat (length v) /\ v !! Z.to_nat j = Some q) /\
    (q ∉ v ->
     0 < lo \/ (exists x0, v !! 0%nat = Some x0 /\ ltb x0 q = true) ->
     find_loop eqb ltb fuel v q lo hi = Some (Returns npos)) /\
    (lo = 0 -> 0 <= hi -> (forall x, x ∈ v -> ltb q x = true) ->
     find_loop eqb ltb fuel v q lo hi = Some NoBehaviour).
Proof using eqb_eq ltb_irrefl ltb_trans ltb_total.
  intros Hsorted Hn.
  induction fuel as [|fuel IH]; intros lo hi Hlo Hhi Hle Hfuel Hbelow Habove;
    [lia|].
  cbn [find_loop]. destruct (Z.leb_spec lo hi) as [Hlh|Hlh].
  - (* one probe *)
    rewrite wrap64_small by lia.
    set (mid := (lo + hi) / 2).
    assert (lo <= mid <= hi) as Hmid.
    { unfold mid. split.
      - apply Z.div_le_lower_bound; lia.
      - apply Z.div_le_upper_bound; lia. }
    destruct (lookup_Z v mid) as [x Hx]; [lia|]. rewrite Hx.
    destruct (eqb x q) eqn:Heq.
    + (* found *)
      apply eqb_eq in Heq. subst x.
      assert (q ∈ v) as Hin by (by eapply list_elem_of_lookup_2).
      split; [|split].
      * intros _. exists mid. split; [done|]. split; [lia|done].
      * intros Hnin. done.
      * intros _ _ Hall. specialize (Hall q Hin). by rewrite ltb_irrefl in Hall.
    + destruct (ltb x q) eqn:Hlt.
      * (* go right *)
        rewrite wrap64_small by lia.
        destruct (IH (mid + 1) hi) as (H1 & H2 & H3); try lia.
        { intros i y Hi Hy.
          eapply ltb_le_trans; [|exact Hlt].
          eapply (Hsorted (Z.to_nat i) (Z.to_nat mid)); [lia|done|done]. }
        { done. }
        split; [done|]. split.
        -- intros Hnin _. apply H2; [done|]. left. lia.
        -- intros _ _ Hall.
           assert (x ∈ v) as Hin by (by eapply list_elem_of_lookup_2).
           exfalso. eapply ltb_asym; [exact Hlt|by apply Hall].
      * (* go left *)
        assert (ltb q x = true) as Hgt.
        { destruct (ltb_total x q) as [H|[H|H]]; [congruence| |done].
          apply eqb_eq in H. congruence. }
        assert (forall i y, mid <= i -> v !! Z.to_nat i = Some y ->
                  ltb q y = true) as Hright.
        { intros i y Hi Hy.
          eapply ltb_trans_le; [exact Hgt|].
          eapply (Hsorted (Z.to_nat mid) (Z.to_nat i)); [lia|done|done]. }
        destruct (decide (mid = 0)) as [Hm0|Hm0].
        -- (* [mid - 1] wraps *)
           rewrite Hm0. change (wrap64 (0 - 1)) with npos.
           assert (lo = 0) as -> by lia.
           destruct fuel as [|fuel']; [lia|].
           rewrite find_loop_wrapped by done.
           split; [|split; [|done]].
           ++ intros Hin. apply list_elem_of_lookup_1 in Hin as [i Hi].
              exfalso. pose proof (Hright (Z.of_nat i) q) as Hqq.
              rewrite Nat2Z.id in Hqq.
              rewrite ltb_irrefl in Hqq. by discriminate Hqq; [lia|].
           ++ intros _ [?|(x0 & Hx0 & Hlt0)]; [lia|].
              rewrite Hm0 in Hx. change (Z.to_nat 0) with 0%nat in Hx.
              rewrite Hx in Hx0. injection Hx0 as <-.
              exfalso. by eapply ltb_asym.
        -- rewrite wrap64_small by lia.
           destruct (IH lo (mid - 1)) as (H1 & H2 & H3); try lia.
           { done. }
           { intros i y Hi Hy. apply (Hright i y); [lia|done]. }
           split; [done|]. split; [done|].
           intros Hl0 _ Hall. apply H3; [done|lia|done].
  - (* the loop ends *)
    split; [|split; [done|lia]].
    intros Hin. apply list_elem_of_lookup_1 in Hin as [i Hi]. exfalso.
    destruct (decide (Z.of_nat i < lo)) as [Hil|Hil].
    + pose proof (Hbelow (Z.of_nat i) q) as Hqq. rewrite Nat2Z.id in Hqq.
      rewrite ltb_irrefl in Hqq. by discriminate Hqq; [lia|].
    + pose proof (Habove (Z.of_nat i) q) as Hqq. rewrite Nat2Z.id in Hqq.
      rewrite ltb_irrefl in Hqq. by discriminate Hqq; [lia|].
Qed.

(** X27.  [find] on a vector that is sorted for a strict total order.  A query
    that occurs in the vector is found: the answer is an index that holds
    it, and [contains] is true.  A query that does not occur and is above
    the first element gives [(uint64_t) -1], and [contains] is false.  On
    the empty vector, and for a query below the first element, [hi] wraps
    around to [2^64 - 1] and the next probe reads outside the vector. *)
Theorem SortableVector_find (v : list E) q :
  sorted_by ltb v -> Z.of_nat (length v) < 2 ^ 63 ->
  (q ∈ v ->
   exists j, find eqb ltb v q = Some (Returns j) /\
             0 <= j < Z.of_nat (length v) /\ v !! Z.to_nat j = Some q /\
             contains eqb ltb v q = Some (Returns true)) /\
  (q ∉ v -> (exists x0, v !! 0%nat = Some x0 /\ ltb x0 q = true) ->
   find eqb ltb v q = Some (Returns npos) /\
   contains eqb ltb v q = Some (Returns false)) /\
  (v = [] \/ (exists x0, v !! 0%nat = Some x0 /\ ltb q x0 = true) ->
   find eqb ltb v q = Some NoBehaviour /\
   contains eqb ltb v q = Some NoBehaviour).
Proof using eqb_eq ltb_irrefl ltb_trans ltb_total.
  intros Hsorted Hn.
  destruct v as [|x0 v'] eqn:Hv.
  { (* the empty vector *)
    split; [|split].
    - intros Hin. by apply not_elem_of_nil in Hin.
    - intros _ (x0 & Hx0 & _). done.
    - intros _. unfold contains, find. simpl length.
      change (wrap64 (Z.of_nat 0 - 1)) with npos.
      by rewrite find_loop_wrapped. }
  rewrite <- Hv in *.
  assert (0 < Z.of_nat (length v)) as Hpos by (rewrite Hv; simpl; lia).
  assert (v !! 0%nat = Some x0) as H0 by (by rewrite Hv).
  destruct (find_loop_sorted v q Hsorted Hn (S (S (length v))) 0
              (Z.of_nat (length v) - 1)) as (H1 & H2 & H3); try lia.
  { intros i x Hi Hx. apply lookup_lt_Some in Hx. lia. }
  unfold contains, find. rewrite wrap64_small by lia.
  split; [|split].
  - intros Hin. destruct (H1 Hin) as (j & -> & Hj & Hq).
    exists j. split; [done|]. split; [done|]. split; [done|].
    replace (j =? npos) with false; [done|].
    symmetry. apply Z.eqb_neq. unfold npos, wrap64.
    change (-1 mod 2 ^ 64) with (2 ^ 64 - 1). lia.
  - intros Hnin Hx0. rewrite H2 by auto. done.
  - intros [Hnil|(y0 & Hy0 & Hlt)]; [by rewrite Hv in Hnil|].
    rewrite H0 in Hy0. injection Hy0 as <-.
    rewrite H3; [done|done|lia|].
    intros x Hin. apply list_elem_of_lookup_1 in Hin as [i Hi].
    eapply ltb_trans_le; [exact Hlt|].
    eapply (Hsorted 0%nat i); [lia|done|done].
Qed.

End binary_search.

Section binary_search_example.
Import SortableVectorHpp.
Local Open Scope Z_scope.

Lemma SortableVector_find_witness :
  (exists j, find Z.eqb Z.ltb [1; 3; 5] 3 = Some (Returns j) /\
             [1; 3; 5] !! Z.to_nat j = Some 3) /\
  find Z.eqb Z.ltb [1; 3; 5] 0 = Some NoBehaviour.
Proof.
  destruct (SortableVector_find Z.eqb Z.ltb Z.eqb_eq Z.ltb_irrefl) with
    (v := [1; 3; 5]) (q := 3) as (Hfound & _).
  - intros a b c. rewrite !Z.ltb_lt. lia.
  - intros a b. rewrite !Z.ltb_lt. lia.
  - intros [|[|[|i]]] [|[|[|j]]] x y Hij Hx Hy; simpl in Hx, Hy;
      try discriminate; try lia;
      injection Hx as <-; injection Hy as <-; reflexivity.
  - simpl. lia.
  - destruct (SortableVector_find Z.eqb Z.ltb Z.eqb_eq Z.ltb_irrefl) with
      (v := [1; 3; 5]) (q := 0) as (_ & _ & Hbelow).
    + intros a b c. rewrite !Z.ltb_lt. lia.
    + intros a b. rewrite !Z.ltb_lt. lia.
    + intros [|[|[|i]]] [|[|[|j]]] x y Hij Hx Hy; simpl in Hx, Hy;
        try discriminate; try lia;
        injection Hx as <-; injection Hy as <-; reflexivity.
    + simpl. lia.
    + split.
      * destruct Hfound as (j & Hj & _ & Hq & _).
        -- apply list_elem_of_lookup. by exists 1%nat.
        -- exists j. split; [exact Hj|exact Hq].
      * destruct Hbelow as (Hb & _); [|exact Hb].
        right. exists 1. split; reflexivity.
Defined.

End binary_search_example.

(** ** The container-combine kernels of MatrixVector.hpp *)

Section zip3_lists.
Implicit Types (bd ba bb : list Q).

Lemma zip3_length F bd ba bb :
  length ba = length bd -> length bb = length bd ->
  length (zip3 F bd ba bb) = length bd.
Proof.
  intros Ha Hb. unfold zip3.
  rewrite length_zip_with, length_zip_with. lia.
Qed.

Lemma zip3_lookup F bd ba bb i x y z :
  bd !! i = Some x -> ba !! i = Some y -> bb !! i = Some z ->
  zip3 F bd ba bb !! i = Some (F x y z).
Proof.
  unfold zip3. revert bd ba bb.
  induction i as [|i IH]; intros [|x' bd] [|y' ba] [|z' bb] Hx Hy Hz;
    simpl in *; try done.
  - congruence.
  - by apply IH.
Qed.

Lemma zip3_lhs (f : Q -> Q -> Q) bd : forall ba bb,
  length ba = length bb ->
  zip_with f bd ba = zip3 (fun x a _ => f x a) bd ba bb.
Proof.
  unfold zip3.
  induction bd as [|x bd IH]; intros [|a ba] [|b bb] Hl; simpl in *;
    try done. f_equal. apply IH. lia.
Qed.

Lemma zip3_rhs (f : Q -> Q -> Q) bd : forall ba bb,
  length ba = length bb ->
  zip_with f bd bb = zip3 (fun x _ b => f x b) bd ba bb.
Proof.
  unfold zip3.
  induction bd as [|x bd IH]; intros [|a ba] [|b bb] Hl; simpl in *;
    try done. f_equal. apply IH. lia.
Qed.

Lemma zip3_compose F G bd : forall ba bb,
  zip3 G (zip3 F bd ba bb) ba bb
  = zip3 (fun x a b => G (F x a b) a b) bd ba bb.
Proof.
  unfold zip3.
  induction bd as [|x bd IH]; intros [|a ba] [|b bb]; simpl; try done.
  by rewrite IH.
Qed.

Lemma zip3_first F bd : forall ba bb,
  length ba = length bd ->
  zip3 F ba ba bb = zip3 (fun _ a b => F a a b) bd ba bb.
Proof.
  unfold zip3.
  induction bd as [|x bd IH]; intros [|a ba] [|b bb] Hl; simpl in *;
    try done. f_equal. apply IH. lia.
Qed.

Lemma zip3_Qeq F G bd : forall ba bb,
  (forall x a b, F x a b == G x a b) ->
  Forall2 Qeq (zip3 F bd ba bb) (zip3 G bd ba bb).
Proof.
  unfold zip3. intros ba bb HFG. revert ba bb.
  induction bd as [|x bd IH]; intros [|a ba] [|b bb]; simpl;
    constructor; auto.
Qed.

Lemma zip3_two_pass o destop bd : forall ba bb,
  vv_two_pass o destop bd ba bb
  = zip3 (fun x a b => vv_combine destop x (vv_source o a b)) bd ba bb.
Proof.
  unfold vv_two_pass, zip3.
  induction bd as [|x bd IH]; intros [|a ba] [|b bb]; simpl; try done.
  by rewrite IH.
Qed.

End zip3_lists.

Section vector_kernels.
Import MatrixVectorHpp.
Implicit Types (h : heap) (bd ba bb : list Q) (dest : Vector) (exp : VVOP).

Lemma vholds_insert_self dest h l bd (b' : list Q) :
  vholds dest h l bd -> length b' = length bd ->
  vholds dest (<[l := b']> h) l b'.
Proof.
  intros (Hp & Hl & Hn) Hlen. split; [done|].
  split; [apply lookup_insert_eq|congruence].
Qed.

Lemma vholds_insert_other dest h l bd l' (b' : list Q) :
  vholds dest h l bd -> l <> l' -> vholds dest (<[l' := b']> h) l bd.
Proof.
  intros (Hp & Hl & Hn) Hne. split; [done|].
  split; [by rewrite lookup_insert_ne|done].
Qed.

(** A loop that writes cell [i] at step [i], from values that depend on the
    cells not yet written. *)
Lemma for_loop_writes d vals body h bd n :
  h !! d = Some bd -> length bd = n -> length vals = n ->
  (forall i, (i < n)%nat ->
     body i (<[d := writes id vals i bd]> h)
     = Some (<[d := <[i := nth i vals 0%Q]> (writes id vals i bd)]> h)) ->
  for_loop n body h = Some (<[d := vals]> h).
Proof.
  intros Hd Hn Hv Hbody.
  edestruct (for_loop_invariant
               (fun i h' => h' = <[d := writes id vals i bd]> h) body n h)
    as (h' & Hrun & ->).
  - unfold writes. simpl. by rewrite insert_id.
  - intros i h' Hi ->. rewrite Hbody by done.
    eexists. split; [done|]. by rewrite writes_S.
  - by rewrite Hrun, writes_id.
Qed.

Lemma elementwise2_spec F n d a b h bd ba bb :
  h !! d = Some bd -> h !! a = Some ba -> h !! b = Some bb ->
  d <> a -> d <> b ->
  length bd = n -> length ba = n -> length bb = n ->
  elementwise2 F n (Addr d) (Addr a) (Addr b) h
  = Some (<[d := zip3 F bd ba bb]> h).
Proof.
  intros Hd Ha Hb Hda Hdb Hn Hna Hnb. unfold elementwise2.
  eapply for_loop_writes; [done|done|by rewrite zip3_length by lia|].
  intros i Hi.
  destruct (lookup_lt_is_Some_2 bd i) as [x Hx]; [lia|].
  destruct (lookup_lt_is_Some_2 ba i) as [y Hy]; [lia|].
  destruct (lookup_lt_is_Some_2 bb i) as [z Hz]; [lia|].
  unfold load. rewrite lookup_insert_eq, !lookup_insert_ne, Ha, Hb by done.
  rewrite writes_lookup_other by (unfold id; lia).
  rewrite Hx, Hy, Hz.
  rewrite store_insert by (rewrite writes_length; lia).
  pose proof (zip3_lookup F _ _ _ _ _ _ _ Hx Hy Hz) as Hl.
  rewrite nth_lookup_Q in Hl by (rewrite zip3_length; lia).
  congruence.
Qed.

Lemma vholds_sizes dest exp h d bd a ba b bb :
  vholds dest h d bd -> vholds (lhs exp) h a ba -> vholds (rhs exp) h b bb ->
  size (lhs exp) = size dest -> size (rhs exp) = size dest ->
  length bd = size dest /\ length ba = size dest /\ length bb = size dest.
Proof. intros (_ & _ & ?) (_ & _ & ?) (_ & _ & ?) ? ?. lia. Qed.

Lemma vupdates_lhs (f : Q -> Q -> Q) :
  vupdates (fun d e => elementwise f (size d) (ptr d) (ptr (lhs e)))
           (fun x a _ => f x a).
Proof.
  intros dest exp h d bd a ba b bb Hd Ha Hb Hsa Hsb Hda Hdb.
  destruct (vholds_sizes _ _ _ _ _ _ _ _ _ Hd Ha Hb Hsa Hsb) as (? & ? & ?).
  destruct Hd as (-> & ? & _), Ha as (-> & ? & _).
  erewrite elementwise_spec by done.
  by rewrite (zip3_lhs f bd ba bb) by lia.
Qed.

Lemma vupdates_rhs (f : Q -> Q -> Q) :
  vupdates (fun d e => elementwise f (size d) (ptr d) (ptr (rhs e)))
           (fun x _ b => f x b).
Proof.
  intros dest exp h d bd a ba b bb Hd Ha Hb Hsa Hsb Hda Hdb.
  destruct (vholds_sizes _ _ _ _ _ _ _ _ _ Hd Ha Hb Hsa Hsb) as (? & ? & ?).
  destruct Hd as (-> & ? & _), Hb as (-> & ? & _).
  erewrite elementwise_spec by done.
  by rewrite (zip3_rhs f bd ba bb) by lia.
Qed.

Lemma vupdates_copyTo :
  vupdates (fun d e => copyTo d (lhs e)) (fun _ a _ => a).
Proof.
  intros dest exp h d bd a ba b bb Hd Ha Hb Hsa Hsb Hda Hdb.
  destruct (vholds_sizes _ _ _ _ _ _ _ _ _ Hd Ha Hb Hsa Hsb) as (? & ? & ?).
  destruct Hd as (Hpd & ? & _), Ha as (Hpa & ? & _).
  unfold copyTo. rewrite Hpd, Hpa.
  erewrite memcpy_whole by done.
  rewrite <- (zip3_lhs (fun _ a => a) bd ba bb) by lia.
  by rewrite zip_with_snd by lia.
Qed.

Lemma vupdates_axpy_lhs alpha :
  vupdates (fun d e => axpy (size (lhs e)) alpha (lhs e) d)
           (fun x a _ => alpha * a + x)%Q.
Proof.
  intros dest exp h d bd a ba b bb Hd Ha Hb Hsa Hsb Hda Hdb.
  destruct (vholds_sizes _ _ _ _ _ _ _ _ _ Hd Ha Hb Hsa Hsb) as (? & ? & ?).
  destruct Hd as (Hpd & ? & _), Ha as (Hpa & ? & _).
  unfold axpy. rewrite Hpd, Hpa, Hsa.
  erewrite cblas_axpy_buffer_spec by done.
  by rewrite (zip3_lhs (fun y x => alpha * x + y)%Q bd ba bb) by lia.
Qed.

Lemma vupdates_axpy_rhs alpha :
  vupdates (fun d e => axpy (size (rhs e)) alpha (rhs e) d)
           (fun x _ b => alpha * b + x)%Q.
Proof.
  intros dest exp h d bd a ba b bb Hd Ha Hb Hsa Hsb Hda Hdb.
  destruct (vholds_sizes _ _ _ _ _ _ _ _ _ Hd Ha Hb Hsa Hsb) as (? & ? & ?).
  destruct Hd as (Hpd & ? & _), Hb as (Hpb & ? & _).
  unfold axpy. rewrite Hpd, Hpb, Hsb.
  erewrite cblas_axpy_buffer_spec by done.
  by rewrite (zip3_rhs (fun y x => alpha * x + y)%Q bd ba bb) by lia.
Qed.

Lemma vupdates_loop F : vupdates (kernel_loop F) F.
Proof.
  intros dest exp h d bd a ba b bb Hd Ha Hb Hsa Hsb Hda Hdb.
  destruct (vholds_sizes _ _ _ _ _ _ _ _ _ Hd Ha Hb Hsa Hsb) as (? & ? & ?).
  destruct Hd as (Hpd & ? & _), Ha as (Hpa & ? & _), Hb as (Hpb & ? & _).
  unfold kernel_loop. rewrite Hpd, Hpa, Hpb, Hsa.
  by apply elementwise2_spec.
Qed.

Lemma vone_spec f F dest exp h d bd a ba b bb :
  vupdates f F ->
  vholds dest h d bd -> vholds (lhs exp) h a ba -> vholds (rhs exp) h b bb ->
  size (lhs exp) = size dest -> size (rhs exp) = size dest ->
  d <> a -> d <> b ->
  one f dest exp h = Ok (<[d := zip3 F bd ba bb]> h).
Proof.
  intros Hf Hd Ha Hb Hsa Hsb Hda Hdb. unfold one.
  by rewrite (Hf _ _ _ _ _ _ _ _ _ Hd Ha Hb Hsa Hsb Hda Hdb).
Qed.

Lemma vtwo_spec f g F G dest exp h d bd a ba b bb :
  vupdates f F -> vupdates g G ->
  vholds dest h d bd -> vholds (lhs exp) h a ba -> vholds (rhs exp) h b bb ->
  size (lhs exp) = size dest -> size (rhs exp) = size dest ->
  d <> a -> d <> b ->
  two f g dest exp h
  = Ok (<[d := zip3 (fun x u w => G (F x u w) u w) bd ba bb]> h).
Proof.
  intros Hf Hg Hd Ha Hb Hsa Hsb Hda Hdb.
  destruct (vholds_sizes _ _ _ _ _ _ _ _ _ Hd Ha Hb Hsa Hsb) as (? & ? & ?).
  unfold two.
  rewrite (Hf _ _ _ _ _ _ _ _ _ Hd Ha Hb Hsa Hsb Hda Hdb). simpl.
  erewrite (Hg dest exp _ d _ a ba b bb); [| | | |done|done|done|done].
  - simpl. by rewrite insert_insert_eq, zip3_compose.
  - eapply vholds_insert_self; [done|]. rewrite zip3_length; lia.
  - by apply vholds_insert_other.
  - by apply vholds_insert_other.
Qed.

Lemma vafter_assign_spec f F dest exp h d bd a ba b bb :
  vupdates f F ->
  vholds dest h d bd -> vholds (lhs exp) h a ba -> vholds (rhs exp) h b bb ->
  size (lhs exp) = size dest -> size (rhs exp) = size dest ->
  d <> a -> d <> b ->
  after_assign f dest exp h
  = Ok (<[d := zip3 (fun _ u w => F u u w) bd ba bb]> h).
Proof.
  intros Hf Hd Ha Hb Hsa Hsb Hda Hdb.
  destruct (vholds_sizes _ _ _ _ _ _ _ _ _ Hd Ha Hb Hsa Hsb) as (? & ? & ?).
  unfold after_assign, assign. rewrite decide_False by lia.
  replace (ptr dest) with (Addr d) by (by destruct Hd as (-> & _)).
  replace (ptr (lhs exp)) with (Addr a) by (by destruct Ha as (-> & _)).
  erewrite memcpy_whole;
    [|by destruct Hd as (_ & ? & _)|by destruct Ha as (_ & ? & _)|done|lia].
  simpl.
  erewrite (Hf dest exp _ d _ a ba b bb); [| | | |done|done|done|done].
  - simpl. rewrite insert_insert_eq. by rewrite (zip3_first F bd) by lia.
  - eapply vholds_insert_self; [done|]. lia.
  - by apply vholds_insert_other.
  - by apply vholds_insert_other.
Qed.

End vector_kernels.

Section vector_fusion.
Import MatrixVectorHpp.
Implicit Types (h : heap) (bd ba bb : list Q) (dest : Vector) (exp : VVOP).

Ltac routine :=
  first [ exact (vupdates_lhs _) | exact (vupdates_rhs _)
        | exact vupdates_copyTo
        | exact (vupdates_axpy_lhs _) | exact (vupdates_axpy_rhs _)
        | exact (vupdates_loop _) ].

Ltac kernel_spec :=
  first [ eapply vtwo_spec; [routine|routine|eassumption..]
        | eapply vone_spec; [routine|eassumption..]
        | eapply vafter_assign_spec; [routine|eassumption..] ].

(** Every kernel of the table replaces each element of the destination by a
    value equal to the one of the two-pass evaluation. *)
Lemma vkernel_pointwise ty o destop k :
  VVOPImpl ty o destop = Some k ->
  exists K,
    (forall dest exp h d bd a ba b bb,
       vholds dest h d bd ->
       vholds (lhs exp) h a ba -> vholds (rhs exp) h b bb ->
       size (lhs exp) = size dest -> size (rhs exp) = size dest ->
       d <> a -> d <> b ->
       k dest exp h = Ok (<[d := zip3 K bd ba bb]> h)) /\
    (forall x u w, K x u w == vv_combine destop x (vv_source o u w)).
Proof.
  destruct ty, o, destop; simpl; intros Hk; try discriminate;
    injection Hk as <-; eexists;
    (split; [intros dest exp h d bd a ba b bb Hd Ha Hb Hsa Hsb Hda Hdb;
             kernel_spec|]);
    intros x u w; simpl; unfold fma, Qdiv;
    rewrite ?Qinv_mult_distr, ?Qinv_involutive; ring.
Qed.

End vector_fusion.

Section vector_fusion_equivalence.
Import MatrixVectorHpp.



End vector_fusion_equivalence.

(** ** Checked assignments of MatrixVector.hpp and [setIdentity] *)

Section checked_assignments.
Import MatrixVectorHpp.

(** X29.  [=], [-=], [*=] of a [Vector] of MatrixVector.hpp with a plain
    vector operand: with equal sizes and distinct blocks they copy, or
    combine element by element, into the destination's block; with
    different sizes they and [/=] throw and the store is unchanged, and so
    do the operators that build a descriptor. *)
Theorem Vector_checked_assignments this a h d bd v bv :
  vholds this h d bd -> vholds a h v bv -> d <> v ->
  (size this = size a ->
     assign this a h = Ok (<[d := bv]> h) /\
     sub_assign this a h = Ok (<[d := zip_with Qminus bd bv]> h) /\
     mul_assign this a h = Ok (<[d := zip_with Qmult bd bv]> h)) /\
  (size this <> size a ->
     assign this a h = Throw (AssignSizeMismatch (size this) (size a)) h /\
     sub_assign this a h = Throw LinalgSizeError h /\
     mul_assign this a h = Throw LinalgSizeError h /\
     div_assign this a h = Throw LinalgSizeError h /\
     forall o, make_VVOP o this a = inl LinalgSizeError).
Proof.
  intros (Hpd & Hd & Hld) (Hpv & Hv & Hlv) Hne. split; intros Hsz.
  - unfold assign, sub_assign, mul_assign, size_check.
    rewrite !decide_False by lia. simpl.
    unfold sub, mul. rewrite Hpd, Hpv.
    erewrite memcpy_whole by (done || lia).
    erewrite !elementwise_spec by (done || lia). done.
  - unfold assign, sub_assign, mul_assign, div_assign, size_check, make_VVOP.
    rewrite !decide_True by done. simpl.
    repeat split. intros o. by rewrite decide_True.
Qed.

Lemma Vector_checked_assignments_witness :
  sub_assign (Inline 2 1) (Dynamic 2 16 (Addr 2))
    {[1 := [5%Q; 7%Q]; 2 := [1%Q; 2%Q]]}
  = Ok (<[1 := zip_with Qminus [5%Q; 7%Q] [1%Q; 2%Q]]>
          {[1 := [5%Q; 7%Q]; 2 := [1%Q; 2%Q]]}).
Proof.
  destruct (Vector_checked_assignments (Inline 2 1) (Dynamic 2 16 (Addr 2))
              {[1 := [5%Q; 7%Q]; 2 := [1%Q; 2%Q]]} 1 [5%Q; 7%Q] 2 [1%Q; 2%Q])
    as [Hsame _].
  - unfold vholds; cbn; repeat split; reflexivity.
  - unfold vholds; cbn; repeat split; reflexivity.
  - lia.
  - destruct Hsame as (_ & Hsub & _); [reflexivity|exact Hsub].
Defined.

End checked_assignments.

Section identity.
Import MatrixVectorHpp MatrixVectorHppMatrix.

Lemma nth_replicate_Q n i (x : Q) : i < n -> nth i (replicate n x) 0%Q = x.
Proof.
  intros Hi.
  pose proof (nth_lookup_Q (replicate n x) i) as Hl.
  rewrite length_replicate in Hl. specialize (Hl Hi).
  rewrite lookup_replicate_2 in Hl by done. congruence.
Qed.

(** X30.  [setIdentity] on a matrix that holds its [rows () * cols ()] elements
    writes 1 to the cells [(i, i)] and to no other cell: each cell [(i, j)]
    off the diagonal keeps the value it had, and no other block changes. *)
Theorem Matrix_setIdentity_diagonal m h l b :
  mvholds m h l b ->
  exists b',
    setIdentity m h = Some (<[l := b']> h) /\
    length b' = length b /\
    forall i j, i < rows m -> j < cols m ->
      b' !! at_ m i j = if decide (i = j) then Some 1%Q else b !! at_ m i j.
Proof.
  intros (Hp & Hl & Hlen). unfold setIdentity, at_, lda. rewrite Hp.
  set (r := rows m) in *. set (c := cols m) in *.
  set (n := Nat.min r c).
  set (k := fun i => i + i * r).
  set (ones := replicate n 1%Q).
  assert (forall i, i < n -> k i < length b) as Hk.
  { intros i Hi. unfold k. rewrite Hlen. unfold n in Hi. nia. }
  edestruct (for_loop_invariant
               (fun i h' => h' = <[l := writes k ones i b]> h)
               (fun i => store (Addr l) (i + i * r) 1%Q) n h)
    as (h' & Hrun & ->).
  - unfold writes. simpl. by rewrite insert_id.
  - intros i h' Hi ->. eexists. split.
    + apply store_insert. rewrite writes_length. by apply Hk.
    + rewrite writes_S. unfold ones. by rewrite nth_replicate_Q.
  - exists (writes k ones n b). split; [done|].
    split; [apply writes_length|].
    intros i j Hi Hj. destruct (decide (i = j)) as [<-|Hij].
    + assert (i < n) as Hin by (unfold n; lia).
      change (i + i * r) with (k i).
      rewrite writes_lookup; [|done|by apply Hk|].
      * unfold ones. by rewrite nth_replicate_Q.
      * unfold k. intros t Ht Heq.
        assert (t * S r = i * S r) as Hm by lia.
        apply Nat.mul_cancel_r in Hm; lia.
    + apply writes_lookup_other. intros t Ht. unfold k.
      unfold n in Ht. intros Heq.
      assert (t = i) as ->.
      { destruct (Nat.lt_trichotomy t j) as [Hlt|[->|Hgt]]; [|lia|].
        - assert (t * r + r <= j * r) by nia. lia.
        - assert (j * r + r <= t * r) by nia. lia. }
      assert (i * r = j * r) as Hm by lia.
      apply Nat.mul_cancel_r in Hm; lia.
Qed.

Lemma Matrix_setIdentity_diagonal_witness :
  exists b',
    setIdentity (mkMatrix (Dynamic 6 48 (Addr 4)) 2 3)
      {[4 := [5%Q; 6%Q; 7%Q; 8%Q; 9%Q; 3%Q]]}
    = Some (<[4 := b']> {[4 := [5%Q; 6%Q; 7%Q; 8%Q; 9%Q; 3%Q]]}) /\
    b' !! at_ (mkMatrix (Dynamic 6 48 (Addr 4)) 2 3) 1 1 = Some 1%Q /\
    b' !! at_ (mkMatrix (Dynamic 6 48 (Addr 4)) 2 3) 0 1 = Some 7%Q.
Proof.
  destruct (Matrix_setIdentity_diagonal
              (mkMatrix (Dynamic 6 48 (Addr 4)) 2 3)
              {[4 := [5%Q; 6%Q; 7%Q; 8%Q; 9%Q; 3%Q]]}
              4 [5%Q; 6%Q; 7%Q; 8%Q; 9%Q; 3%Q])
    as (b' & Hrun & _ & Hcells).
  - unfold mvholds; cbn; repeat split; reflexivity.
  - exists b'. split; [exact Hrun|]. split.
    + apply (Hcells 1 1); cbn; lia.
    + apply (Hcells 0 1); cbn; lia.
Defined.

End identity.
